(** * NonProject: the installment / credit financial engine

    A shallow embedding of the schedule engine, the sale mutation
    orchestrator, the post-sale adjustment orchestrator and the
    bonus / penalty calculator of the back office
    (transaction.service.ts and defective-log/defective-log.service.ts).

    Conventions of the embedding.
    - A JavaScript [number] that holds money or a percentage is a rational
      ([Qc], canonical rationals, so that equality is Leibniz); every double
      is one.  The arithmetic of the services is read twice.  The modules
      [Schedule], [DefectiveLogService] and [TransactionService] read it as
      exact arithmetic.  The module [Rounded] has the schedule engine and the
      sale once more with the rounding of every operation made explicit, a
      function [rnd] applied to the result of each [+], [-], [*] and [/];
      [Binary64.nearest] is the rounding of the doubles (to the nearest, ties
      to even), checked against the numbers of the machine, and at the
      rounding that changes nothing [Rounded] is the exact reading.  What is
      said of the sums of the payments of a schedule, of the totals of a
      sale and of the validation of its payments is said of [Rounded], for
      every rounding.  NaN, the infinities, overflow and the subnormal
      numbers are outside both readings.
    - A column that the schema types as an integer (quantities, ids, credit
      terms in months) is a [Z].
    - A nullable column or an optional request field is an [option].
    - The Prisma store is an explicit record of tables; a service method is
      a function from a store to an error or a result with the new store.
      A throw inside [$transaction] rolls the writes back, so the error
      case carries no store. *)

From Stdlib Require Import ZArith QArith Qcanon Qround Lia Ascii String.
From Stdlib Require Floats.PrimFloat Floats.FloatOps Floats.SpecFloat.
From Stdlib Require Numbers.Cyclic.Int63.Uint63.
From stdpp Require Import base numbers option list gmap strings.

Set Warnings "-clear-no-such-hyp".

Local Open Scope Z_scope.

(** ** JavaScript helpers *)

Module JS.

(** [Number] of an integer column. *)
Definition num (z : Z) : Qc := Qc_of_Z z.

(** [x || d] on an optional number: [null], [undefined] and [0] are falsy. *)
Definition or_num (x : option Qc) (d : Qc) : Qc :=
  match x with
  | Some v => if decide (v = 0%Qc) then d else v
  | None => d
  end.

(** [x || d] on an optional integer. *)
Definition or_int (x : option Z) (d : Z) : Z :=
  match x with
  | Some v => if decide (v = 0) then d else v
  | None => d
  end.

(** [x ?? d]: only [null] and [undefined] fall through. *)
Definition nullish {A} (x : option A) (d : A) : A := default d x.

(** Truthiness of an optional number, as tested by [if (x)]. *)
Definition truthy_num (x : option Qc) : bool :=
  match x with
  | Some v => bool_decide (v ≠ 0%Qc)
  | None => false
  end.

Definition truthy_int (x : option Z) : bool :=
  match x with
  | Some v => bool_decide (v ≠ 0)
  | None => false
  end.

(** [Math.max] on two numbers. *)
Definition max (a b : Qc) : Qc := if decide (a < b)%Qc then b else a.

(** [Math.abs]. *)
Definition abs (a : Qc) : Qc := if decide (a < 0)%Qc then (- a)%Qc else a.

(** [Math.round]: the nearest integer, halves rounded towards +infinity. *)
Definition round (x : Qc) : Z := Qfloor (x + Q2Qc (1 # 2))%Qc.

(** [Math.round] with its result read back as a number. *)
Definition roundN (x : Qc) : Qc := num (round x).

(** Truthiness of an id ([if (branchId)], [if (item.productId)]). *)
Definition truthy_id (x : option Z) : option Z :=
  match x with
  | Some v => if decide (v = 0) then None else Some v
  | None => None
  end.

End JS.

(** ** Data model (the Prisma records the engine reads and writes) *)

Inductive PaymentType := CASH | CARD | TERMINAL | CREDIT | INSTALLMENT.
Inductive TransactionType := SALE | PURCHASE | TRANSFER | RETURN | WRITE_OFF | DELIVERY.
Inductive ProductStatus :=
  IN_STORE | DEFECTIVE | FIXED | RETURNED | EXCHANGED | SOLD | IN_WAREHOUSE.
Inductive InstallmentType := MONTHLY | DAILY.
Inductive TermUnit := MONTHS | DAYS.
Inductive BonusReason := SALES_BONUS | SALES_PENALTY.

#[global] Instance PaymentType_eq_dec : EqDecision PaymentType.
Proof. solve_decision. Defined.
#[global] Instance TransactionType_eq_dec : EqDecision TransactionType.
Proof. solve_decision. Defined.
#[global] Instance ProductStatus_eq_dec : EqDecision ProductStatus.
Proof. solve_decision. Defined.

Record Product := mkProduct {
  p_id : Z;
  p_price : Qc;
  p_quantity : Z;
  p_defectiveQuantity : Z;
  p_returnedQuantity : Z;
  p_exchangedQuantity : Z;
  p_status : ProductStatus;
  p_bonusPercentage : Qc;
  p_branchId : option Z
}.

(** A transaction line.  [it_status] is the string column that the return
    path sets to ['RETURNED']; [it_product] is the product relation when the
    query that produced the line included it. *)
Record TransactionItem := mkItem {
  it_id : Z;
  it_productId : option Z;
  it_quantity : Z;
  it_price : Qc;
  it_sellingPrice : option Qc;
  it_originalPrice : option Qc;
  it_total : Qc;
  it_creditMonth : option Z;
  it_creditPercent : option Qc;
  it_status : option ProductStatus;
  it_product : option Product
}.

Record Transaction := mkTransaction {
  tx_id : Z;
  tx_type : TransactionType;
  tx_paymentType : option PaymentType;
  tx_termUnit : TermUnit;
  tx_total : Qc;
  tx_finalTotal : Qc;
  tx_remainingBalance : Qc;
  tx_amountPaid : option Qc;
  tx_downPayment : option Qc;
  tx_extraProfit : option Qc;
  tx_fromBranchId : option Z;
  tx_toBranchId : option Z;
  tx_userId : option Z;
  tx_soldByUserId : option Z;
  tx_items : list TransactionItem
}.

(** A payment-schedule row.  The fields after [ps_paidAmount] are only
    written by the sale-time generators; the due date of a daily row is a
    wall-clock value and is left out. *)
Record PaymentSchedule := mkSchedule {
  ps_transactionId : Z;
  ps_month : Z;
  ps_payment : Qc;
  ps_remainingBalance : Qc;
  ps_isPaid : bool;
  ps_paidAmount : Qc;
  ps_installmentType : option InstallmentType;
  ps_totalMonths : option Z;
  ps_remainingMonths : option Z;
  ps_totalDays : option Z
}.

(** A row of the join table of free giveaways. *)
Record TransactionBonusProduct := mkBonusProduct {
  bp_transactionId : Z;
  bp_productId : Z;
  bp_quantity : Z
}.

(** The denormalised giveaway entry stored on a bonus record. *)
Record BonusProductSnapshot := mkSnapshot {
  sn_productId : Z;
  sn_quantity : Z;
  sn_price : Qc;
  sn_totalValue : Qc
}.

Record Bonus := mkBonus {
  b_userId : Z;
  b_branchId : option Z;
  b_amount : Qc;
  b_reason : BonusReason;
  b_bonusProducts : option (list BonusProductSnapshot);
  b_transactionId : Z
}.

Inductive ActionType := ActDEFECTIVE | ActFIXED | ActRETURN | ActEXCHANGE | ActOther.
Inductive CashDirection := PLUS | MINUS.

#[global] Instance ActionType_eq_dec : EqDecision ActionType.
Proof. solve_decision. Defined.
#[global] Instance CashDirection_eq_dec : EqDecision CashDirection.
Proof. solve_decision. Defined.
#[global] Instance BonusReason_eq_dec : EqDecision BonusReason.
Proof. solve_decision. Defined.

Record DefectiveLog := mkLog {
  dl_productId : Z;
  dl_quantity : Z;
  dl_userId : option Z;
  dl_branchId : option Z;
  dl_cashAmount : Qc;
  dl_actionType : ActionType;
  dl_transactionId : option Z;
  dl_handledByUserId : option Z;
  dl_cashAdjustmentDirection : option CashDirection
}.

Record Branch := mkBranch { br_cashBalance : Qc }.
Record User := mkUser { u_branchId : option Z }.

(** The tables of the store. *)
Record Store := mkStore {
  products : gmap Z Product;
  branches : gmap Z Branch;
  users : gmap Z User;
  transactions : gmap Z Transaction;
  paymentSchedules : list PaymentSchedule;
  transactionBonusProducts : list TransactionBonusProduct;
  bonuses : list Bonus;
  defectiveLogs : list DefectiveLog;
  nextId : Z
}.

Definition set_products (f : gmap Z Product → gmap Z Product) (s : Store) : Store :=
  mkStore (f (products s)) (branches s) (users s) (transactions s) (paymentSchedules s)
          (transactionBonusProducts s) (bonuses s) (defectiveLogs s) (nextId s).
Definition set_branches (f : gmap Z Branch → gmap Z Branch) (s : Store) : Store :=
  mkStore (products s) (f (branches s)) (users s) (transactions s) (paymentSchedules s)
          (transactionBonusProducts s) (bonuses s) (defectiveLogs s) (nextId s).
Definition set_transactions (f : gmap Z Transaction → gmap Z Transaction) (s : Store) : Store :=
  mkStore (products s) (branches s) (users s) (f (transactions s)) (paymentSchedules s)
          (transactionBonusProducts s) (bonuses s) (defectiveLogs s) (nextId s).
Definition set_paymentSchedules (f : list PaymentSchedule → list PaymentSchedule) (s : Store) : Store :=
  mkStore (products s) (branches s) (users s) (transactions s) (f (paymentSchedules s))
          (transactionBonusProducts s) (bonuses s) (defectiveLogs s) (nextId s).
Definition set_transactionBonusProducts
    (f : list TransactionBonusProduct → list TransactionBonusProduct) (s : Store) : Store :=
  mkStore (products s) (branches s) (users s) (transactions s) (paymentSchedules s)
          (f (transactionBonusProducts s)) (bonuses s) (defectiveLogs s) (nextId s).
Definition set_bonuses (f : list Bonus → list Bonus) (s : Store) : Store :=
  mkStore (products s) (branches s) (users s) (transactions s) (paymentSchedules s)
          (transactionBonusProducts s) (f (bonuses s)) (defectiveLogs s) (nextId s).
Definition set_defectiveLogs (f : list DefectiveLog → list DefectiveLog) (s : Store) : Store :=
  mkStore (products s) (branches s) (users s) (transactions s) (paymentSchedules s)
          (transactionBonusProducts s) (bonuses s) (f (defectiveLogs s)) (nextId s).
Definition set_nextId (f : Z → Z) (s : Store) : Store :=
  mkStore (products s) (branches s) (users s) (transactions s) (paymentSchedules s)
          (transactionBonusProducts s) (bonuses s) (defectiveLogs s) (f (nextId s)).

Definition isCredit (pt : option PaymentType) : bool :=
  bool_decide (pt = Some CREDIT ∨ pt = Some INSTALLMENT).

(** Field updates of a stored transaction. *)
Definition setItems (f : list TransactionItem → list TransactionItem)
    (t : Transaction) : Transaction :=
  mkTransaction (tx_id t) (tx_type t) (tx_paymentType t) (tx_termUnit t)
    (tx_total t) (tx_finalTotal t) (tx_remainingBalance t) (tx_amountPaid t)
    (tx_downPayment t) (tx_extraProfit t) (tx_fromBranchId t) (tx_toBranchId t)
    (tx_userId t) (tx_soldByUserId t) (f (tx_items t)).

Definition setExtraProfit (profit : Qc) (t : Transaction) : Transaction :=
  mkTransaction (tx_id t) (tx_type t) (tx_paymentType t) (tx_termUnit t)
    (tx_total t) (tx_finalTotal t) (tx_remainingBalance t) (tx_amountPaid t)
    (tx_downPayment t) (Some profit) (tx_fromBranchId t) (tx_toBranchId t)
    (tx_userId t) (tx_soldByUserId t) (tx_items t).

Definition setTotals (total finalTotal : Qc) (t : Transaction) : Transaction :=
  mkTransaction (tx_id t) (tx_type t) (tx_paymentType t) (tx_termUnit t)
    total finalTotal (tx_remainingBalance t) (tx_amountPaid t) (tx_downPayment t)
    (tx_extraProfit t) (tx_fromBranchId t) (tx_toBranchId t) (tx_userId t)
    (tx_soldByUserId t) (tx_items t).

(** The fields the aggregation loops read from a line: the loops run over
    the lines of a sale request and over stored lines alike. *)
Class CreditLine (A : Type) := {
  linePrice : A → Qc;
  lineQuantity : A → Z;
  lineCreditPercent : A → option Qc;
  lineCreditMonth : A → option Z
}.

#[global] Instance TransactionItem_line : CreditLine TransactionItem := {
  linePrice := it_price;
  lineQuantity := it_quantity;
  lineCreditPercent := it_creditPercent;
  lineCreditMonth := it_creditMonth
}.

(** ** Schedule engine *)

Module Schedule.

Local Open Scope Qc_scope.

(** The accumulators of an aggregation loop
    ([totalPrincipal], [weightedPercentSum], [percentWeightBase],
    [totalMonths]). *)
Record Totals := mkTotals {
  totalPrincipal : Qc;
  weightedPercentSum : Qc;
  percentWeightBase : Qc;
  totalMonths : Z
}.

Definition totals0 : Totals := mkTotals 0 0 0 0%Z.

(** One iteration of a [for (const item of items)] aggregation loop.
    [qty] is the quantity the loop multiplies the price with and [months]
    tells whether the loop also tracks the longest credit term:
    - [create] (lines of the sale request): [lineQuantity], no term;
    - [createPaymentSchedule], [createDailyPaymentSchedule]:
                                            [lineQuantity], term;
    - first pass of [recalculatePaymentSchedules]:
                                            [originalQuantity], term;
    - second pass of [recalculatePaymentSchedules]:
                                            [lineQuantity], no term. *)
Definition accumulate `{CreditLine A} (qty : A → Z) (months : bool)
    (acc : Totals) (item : A) : Totals :=
  let principal := linePrice item * JS.num (qty item) in
  let acc1 :=
    mkTotals (totalPrincipal acc + principal) (weightedPercentSum acc)
             (percentWeightBase acc) (totalMonths acc) in
  let acc2 :=
    if JS.truthy_num (lineCreditPercent item) then
      mkTotals (totalPrincipal acc1)
               (weightedPercentSum acc1
                  + principal * JS.or_num (lineCreditPercent item) 0)
               (percentWeightBase acc1 + principal) (totalMonths acc1)
    else acc1 in
  if months && JS.truthy_int (lineCreditMonth item) then
    mkTotals (totalPrincipal acc2) (weightedPercentSum acc2)
             (percentWeightBase acc2)
             (Z.max (totalMonths acc2) (JS.or_int (lineCreditMonth item) 0))
  else acc2.

Definition aggregate `{CreditLine A} (qty : A → Z) (months : bool)
    (items : list A) : Totals :=
  foldl (accumulate qty months) totals0 items.

(** [percentWeightBase > 0 ? weightedPercentSum / percentWeightBase : 0]. *)
Definition effectivePercent (t : Totals) : Qc :=
  if decide (0 < percentWeightBase t) then
    weightedPercentSum t / percentWeightBase t
  else 0.

(** [remainingWithInterest] from a principal, an upfront payment and a
    rate: [remainingPrincipal = Math.max(0, total - upfront)],
    [interestAmount = remainingPrincipal * effectivePercent]. *)
Definition remainingWithInterest (total upfront percent : Qc) : Qc :=
  let remainingPrincipal := JS.max 0 (total - upfront) in
  let interestAmount := remainingPrincipal * percent in
  remainingPrincipal + interestAmount.

(** The month loop of the two monthly generators:
    [for (let month = 1; month <= totalMonths; month++)].  [fuel] counts
    the iterations that are left, [month] and [remainingBalance] are the
    loop variables, [mk] builds the pushed row from the month, the payment
    and the clamped balance. *)
Fixpoint monthLoop (mk : Z → Qc → Qc → PaymentSchedule)
    (totalMonths : Z) (monthlyPayment : Qc)
    (fuel : nat) (month : Z) (remainingBalance : Qc) : list PaymentSchedule :=
  match fuel with
  | O => []
  | S fuel' =>
      let currentPayment :=
        if decide (month = totalMonths) then remainingBalance else monthlyPayment in
      let remainingBalance' := remainingBalance - currentPayment in
      mk month currentPayment (JS.max 0 remainingBalance')
        :: monthLoop mk totalMonths monthlyPayment fuel' (month + 1)%Z remainingBalance'
  end.

(** The row pushed by [createPaymentSchedule]. *)
Definition saleRow (transactionId totalMonths month : Z) (payment balance : Qc)
    : PaymentSchedule :=
  mkSchedule transactionId month payment balance false 0
             (Some MONTHLY) (Some totalMonths) (Some (totalMonths - month + 1)%Z) None.

(** The row pushed by [recalculatePaymentSchedules]. *)
Definition recalcRow (transactionId month : Z) (payment balance : Qc)
    : PaymentSchedule :=
  mkSchedule transactionId month payment balance false 0 None None None None.

(** The rows [createPaymentSchedule(transactionId, items, downPayment)]
    hands to [paymentSchedule.createMany] (none when the guard fails). *)
Definition paymentScheduleRows (transactionId : Z)
    (items : list TransactionItem) (downPayment : Qc) : list PaymentSchedule :=
  let t := aggregate lineQuantity true items in
  if decide (0 < totalPrincipal t ∧ (0 < totalMonths t)%Z) then
    let upfrontPayment := downPayment in
    let rwi :=
      remainingWithInterest (totalPrincipal t) upfrontPayment (effectivePercent t) in
    let monthlyPayment := rwi / JS.num (totalMonths t) in
    monthLoop (saleRow transactionId (totalMonths t)) (totalMonths t) monthlyPayment
              (Z.to_nat (totalMonths t)) 1%Z rwi
  else [].

(** [createPaymentSchedule]: the rows are appended when there are any. *)
Definition createPaymentSchedule (transactionId : Z)
    (items : list TransactionItem) (downPayment : Qc) (s : Store) : Store :=
  let schedules := paymentScheduleRows transactionId items downPayment in
  if decide (0 < length schedules)%nat then
    set_paymentSchedules (λ rows, rows ++ schedules) s
  else s.

(** The single row of [createDailyPaymentSchedule]. *)
Definition dailyScheduleRows (transactionId : Z)
    (items : list TransactionItem) (downPayment : Qc) : list PaymentSchedule :=
  let t := aggregate lineQuantity true items in
  if decide (0 < totalPrincipal t ∧ (0 < totalMonths t)%Z) then
    let rwi :=
      remainingWithInterest (totalPrincipal t) downPayment (effectivePercent t) in
    [mkSchedule transactionId 1 rwi rwi false 0 (Some DAILY) None None
                (Some (totalMonths t))]
  else [].

Definition createDailyPaymentSchedule (transactionId : Z)
    (items : list TransactionItem) (downPayment : Qc) (s : Store) : Store :=
  let schedules := dailyScheduleRows transactionId items downPayment in
  if decide (0 < length schedules)%nat then
    set_paymentSchedules (λ rows, rows ++ schedules) s
  else s.

(** *** Recomputation after a return ([recalculatePaymentSchedules]) *)

(** [item.quantity + (item.status === 'RETURNED' ? 0 : 0)]. *)
Definition originalQuantity (item : TransactionItem) : Z :=
  (it_quantity item
     + (if decide (it_status item = Some RETURNED) then 0 else 0))%Z.

(** [allItems.filter(item => item.quantity > 0)]. *)
Definition remainingItems (allItems : list TransactionItem) : list TransactionItem :=
  filter (λ item, (0 < it_quantity item)%Z) allItems.

Definition originalTotals (allItems : list TransactionItem) : Totals :=
  aggregate originalQuantity true allItems.

Definition remainingTotals (allItems : list TransactionItem) : Totals :=
  aggregate lineQuantity false (remainingItems allItems).

(** [originalTotalPrincipal > 0
      ? remainingTotalPrincipal / originalTotalPrincipal : 0]. *)
Definition upfrontRatio (allItems : list TransactionItem) : Qc :=
  if decide (0 < totalPrincipal (originalTotals allItems)) then
    totalPrincipal (remainingTotals allItems)
      / totalPrincipal (originalTotals allItems)
  else 0.

(** [proportionalUpfront = (transaction.amountPaid || 0) * upfrontRatio]. *)
Definition proportionalUpfront (transaction : Transaction) : Qc :=
  let originalUpfrontPayment := JS.or_num (tx_amountPaid transaction) 0 in
  originalUpfrontPayment * upfrontRatio (tx_items transaction).

(** [remainingWithInterest] of the recomputation. *)
Definition recalcRemainingWithInterest (transaction : Transaction) : Qc :=
  let remT := remainingTotals (tx_items transaction) in
  remainingWithInterest (totalPrincipal remT) (proportionalUpfront transaction)
                        (effectivePercent remT).

(** The rows the recomputation pushes once its guard
    [remainingTotalPrincipal > 0 && totalMonths > 0] holds. *)
Definition recalcRows (transactionId : Z) (transaction : Transaction)
    : list PaymentSchedule :=
  let totalMonths := totalMonths (originalTotals (tx_items transaction)) in
  let rwi := recalcRemainingWithInterest transaction in
  let monthlyPayment := rwi / JS.num totalMonths in
  monthLoop (recalcRow transactionId) totalMonths monthlyPayment
            (Z.to_nat totalMonths) 1%Z rwi.

(** [transaction.paymentSchedules] of the [include]. *)
Definition schedulesOf (transactionId : Z) (s : Store) : list PaymentSchedule :=
  filter (λ r, ps_transactionId r = transactionId) (paymentSchedules s).

(** [paymentSchedule.deleteMany({ where: { transactionId } })]. *)
Definition deleteSchedules (transactionId : Z) (s : Store) : Store :=
  set_paymentSchedules (filter (λ r, ps_transactionId r ≠ transactionId)) s.

Definition recalculatePaymentSchedules (transactionId : Z) (s : Store) : Store :=
  match transactions s !! transactionId with
  | None => s
  | Some transaction =>
      if negb (isCredit (tx_paymentType transaction)) then s
      else
        let s1 :=
          if decide (0 < length (schedulesOf transactionId s))%nat
          then deleteSchedules transactionId s else s in
        let allItems := tx_items transaction in
        if decide (length (remainingItems allItems) = 0%nat) then s1
        else
          let remT := remainingTotals allItems in
          if decide (0 < totalPrincipal remT
                     ∧ (0 < totalMonths (originalTotals allItems))%Z) then
            let schedules := recalcRows transactionId transaction in
            let s2 :=
              if decide (0 < length schedules)%nat
              then set_paymentSchedules (λ rows, rows ++ schedules) s1 else s1 in
            set_transactions
              (alter (setTotals (totalPrincipal remT)
                                (recalcRemainingWithInterest transaction))
                     transactionId) s2
          else s1
  end.

(** Sum of the [payment] fields of a list of rows. *)
Definition sumPayments (rows : list PaymentSchedule) : Qc :=
  foldr Qcplus 0 (ps_payment <$> rows).


End Schedule.

(** ** Post-sale adjustment orchestrator ([DefectiveLogService.create]) *)

Module DefectiveLogService.

Local Open Scope Qc_scope.

Record CreateDefectiveLogDto := mkDto {
  dto_productId : Z;
  dto_quantity : Z;
  dto_userId : option Z;
  dto_branchId : option Z;
  dto_actionType : option ActionType;
  dto_isFromSale : bool;
  dto_transactionId : option Z;
  dto_cashAdjustmentDirection : option CashDirection;
  dto_cashAmount : option Qc;
  dto_exchangeWithProductId : option Z;
  dto_replacementQuantity : option Z;
  dto_replacementUnitPrice : option Qc;
  dto_handledByUserId : option Z
}.

(** The exceptions the method throws, one constructor per [throw]. *)
Inductive Error :=
| ProductNotFound
| BranchNotFound
| DefectiveExceedsStock
| InvalidActionType
| ExceedsSoldQuantity
| ReplacementNotFound
| ReplacementExceedsStock.

(** The values the [switch (actionType)] assigns. *)
Record Effects := mkEffects {
  cashAmount : Qc;
  newQuantity : Z;
  newDefectiveQuantity : Z;
  newReturnedQuantity : Z;
  newExchangedQuantity : Z;
  newStatus : ProductStatus
}.

(** [(cashAdjustmentDirection === 'PLUS' ? 1 : -1)
      * Math.abs(Number(cashAmountInput) || 0)]. *)
Definition overrideAmount (direction : CashDirection) (input : Qc) : Qc :=
  (if decide (direction = PLUS) then 1 else - 1) * JS.abs (JS.or_num (Some input) 0).

(** [isFromSale && transactionId]. *)
Definition linkedTransaction (dto : CreateDefectiveLogDto) : option Z :=
  if dto_isFromSale dto then JS.truthy_id (dto_transactionId dto) else None.

(** The refund of a RETURN without a cashier override. *)
Definition returnRefund (dto : CreateDefectiveLogDto) (product : Product)
    (s : Store) : Qc :=
  match linkedTransaction dto with
  | Some transactionId =>
      let tx := transactions s !! transactionId in
      let line :=
        tx ≫= λ t, List.find
          (λ it, bool_decide (JS.nullish (it_productId it) 0%Z = dto_productId dto))
          (tx_items t) in
      let unit :=
        match line with
        | Some l => JS.or_num (Some (JS.nullish (it_sellingPrice l) (it_price l))) 0
        | None => JS.or_num (Some (p_price product)) 0
        end in
      - (unit * JS.num (dto_quantity dto))
  | None => - (p_price product * JS.num (dto_quantity dto))
  end.

Definition effects (dto : CreateDefectiveLogDto) (actionType : ActionType)
    (product : Product) (s : Store) : option Effects :=
  let quantity := dto_quantity dto in
  match actionType with
  | ActDEFECTIVE =>
      let newQuantity :=
        if dto_isFromSale dto then p_quantity product
        else Z.max 0 (p_quantity product - quantity) in
      Some (mkEffects (- (p_price product * JS.num quantity))
              newQuantity
              (p_defectiveQuantity product + quantity)%Z
              (p_returnedQuantity product) (p_exchangedQuantity product)
              (if decide (newQuantity = 0%Z) then DEFECTIVE else IN_STORE))
  | ActFIXED =>
      Some (mkEffects (p_price product * JS.num quantity)
              (p_quantity product + quantity)%Z
              (Z.max 0 (p_defectiveQuantity product - quantity))
              (p_returnedQuantity product) (p_exchangedQuantity product)
              IN_STORE)
  | ActRETURN =>
      let cash :=
        match dto_cashAmount dto, dto_cashAdjustmentDirection dto with
        | Some input, Some direction =>
            if decide (0 < JS.abs input) then overrideAmount direction input
            else returnRefund dto product s
        | _, _ => returnRefund dto product s
        end in
      Some (mkEffects cash
              (p_quantity product + quantity)%Z
              (p_defectiveQuantity product)
              (p_returnedQuantity product + quantity)%Z
              (p_exchangedQuantity product)
              RETURNED)
  | ActEXCHANGE =>
      let cash :=
        match dto_cashAmount dto, dto_cashAdjustmentDirection dto with
        | Some input, Some direction => overrideAmount direction input
        | _, _ => p_price product * JS.num quantity
        end in
      Some (mkEffects cash
              (p_quantity product + quantity)%Z
              (p_defectiveQuantity product) (p_returnedQuantity product)
              (p_exchangedQuantity product + quantity)%Z
              EXCHANGED)
  | ActOther => None
  end.

(** *** Writes inside [$transaction] *)

Definition logOf (dto : CreateDefectiveLogDto) (actionType : ActionType)
    (cash : Qc) : DefectiveLog :=
  mkLog (dto_productId dto) (dto_quantity dto) (dto_userId dto) (dto_branchId dto)
        cash actionType (JS.truthy_id (dto_transactionId dto))
        (JS.truthy_id (dto_handledByUserId dto)) (dto_cashAdjustmentDirection dto).

Definition applyEffects (e : Effects) (p : Product) : Product :=
  mkProduct (p_id p) (p_price p) (newQuantity e) (newDefectiveQuantity e)
            (newReturnedQuantity e) (newExchangedQuantity e) (newStatus e)
            (p_bonusPercentage p) (p_branchId p).

Definition setQuantity (q : Z) (p : Product) : Product :=
  mkProduct (p_id p) (p_price p) q (p_defectiveQuantity p) (p_returnedQuantity p)
            (p_exchangedQuantity p) (p_status p) (p_bonusPercentage p) (p_branchId p).

(** [data: { quantity: { increment: n } }]. *)
Definition incrementQuantity (n : Z) (p : Product) : Product :=
  setQuantity (p_quantity p + n) p.

Definition setLine (quantity : Z) (total : Qc) (status : option ProductStatus)
    (it : TransactionItem) : TransactionItem :=
  mkItem (it_id it) (it_productId it) quantity (it_price it) (it_sellingPrice it)
         (it_originalPrice it) total (it_creditMonth it) (it_creditPercent it)
         status (it_product it).

(** [transactionItem.update({ where: { id }, data })] on a line of
    transaction [transactionId]. *)
Definition updateItem (transactionId itemId : Z)
    (f : TransactionItem → TransactionItem) (s : Store) : Store :=
  set_transactions
    (alter (setItems (fmap (λ it, if decide (it_id it = itemId) then f it else it)))
           transactionId) s.

(** The line mutation of RETURN and EXCHANGE. *)
Definition reduceLine (transactionId : Z) (orig : TransactionItem) (quantity : Z)
    (s : Store) : Store :=
  let remainingQty := Z.max 0 (it_quantity orig - quantity) in
  if decide (remainingQty = 0%Z) then
    updateItem transactionId (it_id orig) (setLine 0 0 (Some RETURNED)) s
  else
    let unitPrice :=
      JS.or_num (Some (JS.nullish (it_sellingPrice orig) (it_price orig))) 0 in
    updateItem transactionId (it_id orig)
      (λ it, setLine remainingQty (JS.num remainingQty * unitPrice) (it_status it) it) s.

(** [transactionBonusProduct.findMany({ where: { transactionId } })]. *)
Definition bonusProductsOf (transactionId : Z) (s : Store)
    : list TransactionBonusProduct :=
  filter (λ bp, bp_transactionId bp = transactionId) (transactionBonusProducts s).

(** One pass of the restock loop; an update of a product that does not
    exist throws and is swallowed by the [catch]. *)
Definition restockOne (s : Store) (bp : TransactionBonusProduct) : Store :=
  set_products (alter (incrementQuantity (bp_quantity bp)) (bp_productId bp)) s.

(** Restock of the giveaways of a transaction, followed by the removal of
    the join rows. *)
Definition restockBonusProducts (transactionId : Z) (s : Store) : Store :=
  let txBonusProducts := bonusProductsOf transactionId s in
  if decide (0 < length txBonusProducts)%nat then
    let s1 := foldl restockOne s txBonusProducts in
    set_transactionBonusProducts
      (filter (λ bp, bp_transactionId bp ≠ transactionId)) s1
  else s.

(** [Math.max(0, originalProfit - originalProfit * (quantity / originalQty))]
    with [originalQty = Number(orig.quantity) + Number(quantity)].  When
    [originalQty] is 0 (a return of no unit of a line that holds none) the
    quotient of the code is NaN, where the quotient of [Qc] is 0: that input
    is outside the model. *)
Definition newProfit (tx : Transaction) (orig : TransactionItem) (quantity : Z) : Qc :=
  let originalProfit := JS.or_num (tx_extraProfit tx) 0 in
  let originalQty := JS.num (it_quantity orig) + JS.num quantity in
  let proportionalProfit := originalProfit * (JS.num quantity / originalQty) in
  JS.max 0 (originalProfit - proportionalProfit).

(** The bonus reversal of a RETURN. *)
Definition reverseBonuses (tx : Transaction) (orig : TransactionItem) (quantity : Z)
    (s : Store) : Store :=
  let s1 := restockBonusProducts (tx_id tx) s in
  let s2 := set_bonuses (filter (λ b, b_transactionId b ≠ tx_id tx)) s1 in
  set_transactions (alter (setExtraProfit (newProfit tx orig quantity)) (tx_id tx)) s2.

(** [Math.max(1, Number(replacementQuantity || quantity) || quantity)]. *)
Definition replacementQty (dto : CreateDefectiveLogDto) : Z :=
  let quantity := dto_quantity dto in
  Z.max 1 (JS.or_int (Some (JS.or_int (dto_replacementQuantity dto) quantity)) quantity).

(** [transactionItem.findFirst] on product and price, newest first: the
    lines of a transaction are kept in creation order. *)
Definition findReplacement (tx : Transaction) (replProdId : Z) (replPrice : Qc)
    : option TransactionItem :=
  List.find
    (λ it, bool_decide (it_productId it = Some replProdId ∧ it_price it = replPrice))
    (reverse (tx_items tx)).

(** The replacement half of an EXCHANGE.  A request without
    [exchangeWithProductId] names no product: the lookup of the
    replacement finds nothing. *)
Definition exchangeStep (dto : CreateDefectiveLogDto) (transactionId : Z)
    (s : Store) : Error + Store :=
  let replQty := replacementQty dto in
  let replPrice := JS.nullish (dto_replacementUnitPrice dto) 0 in
  match dto_exchangeWithProductId dto with
  | None => inl ReplacementNotFound
  | Some replProdId =>
      let existingRepl :=
        transactions s !! transactionId ≫= λ t, findReplacement t replProdId replPrice in
      let s1 :=
        match existingRepl with
        | Some e =>
            updateItem transactionId (it_id e)
              (λ it, setLine (it_quantity e + replQty)
                       (JS.num (it_quantity e + replQty)
                          * JS.nullish (it_sellingPrice e) (it_price e))
                       (it_status it) it) s
        | None =>
            set_nextId (λ n, n + 1)%Z
              (set_transactions
                 (alter (setItems (λ items, items ++
                     [mkItem (nextId s) (Some replProdId) replQty replPrice
                             (Some replPrice) (Some replPrice)
                             (JS.num replQty * replPrice) None None None None]))
                   transactionId) s)
        end in
      match products s1 !! replProdId with
      | None => inl ReplacementNotFound
      | Some repl =>
          if decide (p_quantity repl < replQty)%Z then inl ReplacementExceedsStock
          else
            inr (set_products
                   (alter (setQuantity (Z.max 0 (p_quantity repl - replQty)))
                          replProdId) s1)
      end
  end.

(** The mutation of the linked sale.  The result carries the id of the
    transaction to recompute ([recalcForTxId]) when the flag is set. *)
Definition linkedSaleStep (dto : CreateDefectiveLogDto) (actionType : ActionType)
    (s : Store) : Error + (Store * option Z) :=
  match linkedTransaction dto with
  | None => inr (s, None)
  | Some transactionId =>
      match transactions s !! transactionId with
      | None => inr (s, None)
      | Some tx =>
          match List.find
                  (λ i, bool_decide (it_productId i = Some (dto_productId dto)))
                  (tx_items tx) with
          | None => inr (s, None)
          | Some orig =>
              let quantity := dto_quantity dto in
              if decide (it_quantity orig < quantity)%Z then inl ExceedsSoldQuantity
              else
                let s1 :=
                  if decide (actionType = ActRETURN ∨ actionType = ActEXCHANGE) then
                    let s' := reduceLine (tx_id tx) orig quantity s in
                    if decide (actionType = ActRETURN)
                    then reverseBonuses tx orig quantity s' else s'
                  else s in
                let r :=
                  if decide (actionType = ActEXCHANGE)
                  then exchangeStep dto (tx_id tx) s1 else inr s1 in
                match r with
                | inl e => inl e
                | inr s2 =>
                    inr (s2, if isCredit (tx_paymentType tx)
                             then Some (tx_id tx) else None)
                end
          end
      end
  end.

Definition incrementCash (amount : Qc) (b : Branch) : Branch :=
  mkBranch (br_cashBalance b + amount).

(** The callback of [$transaction]. *)
Definition transactionBody (dto : CreateDefectiveLogDto) (actionType : ActionType)
    (e : Effects) (s : Store) : Error + (DefectiveLog * Store * option Z) :=
  let defectiveLog := logOf dto actionType (cashAmount e) in
  let s1 := set_defectiveLogs (λ logs, logs ++ [defectiveLog]) s in
  let s2 := set_products (alter (applyEffects e) (dto_productId dto)) s1 in
  match linkedSaleStep dto actionType s2 with
  | inl err => inl err
  | inr (s3, recalc) =>
      let s4 :=
        match JS.truthy_id (dto_branchId dto) with
        | Some branchId =>
            set_branches (alter (incrementCash (cashAmount e)) branchId) s3
        | None => s3
        end in
      inr (defectiveLog, s4, recalc)
  end.

(** [create(createDefectiveLogDto)]: the checks before the atomic write,
    the atomic write, and the recomputation of the schedule after it. *)
Definition create (dto : CreateDefectiveLogDto) (s : Store)
    : Error + (DefectiveLog * Store) :=
  match products s !! dto_productId dto with
  | None => inl ProductNotFound
  | Some product =>
      let branchMissing :=
        match JS.truthy_id (dto_branchId dto) with
        | Some branchId => bool_decide (branches s !! branchId = None)
        | None => false
        end in
      if branchMissing then inl BranchNotFound
      else
        let actionType := default ActDEFECTIVE (dto_actionType dto) in
        if bool_decide (actionType = ActDEFECTIVE) && negb (dto_isFromSale dto)
           && bool_decide (p_quantity product < dto_quantity dto)%Z
        then inl DefectiveExceedsStock
        else
          match effects dto actionType product s with
          | None => inl InvalidActionType
          | Some e =>
              match transactionBody dto actionType e s with
              | inl err => inl err
              | inr (result, s1, recalc) =>
                  match JS.truthy_id recalc with
                  | Some recalcForTxId =>
                      inr (result, Schedule.recalculatePaymentSchedules recalcForTxId s1)
                  | None => inr (result, s1)
                  end
              end
          end
  end.

End DefectiveLogService.

(** ** Sale mutation orchestrator and bonus / penalty calculator
       ([TransactionService]) *)

Module TransactionService.

Local Open Scope Qc_scope.

(** A line of the sale request ([TransactionItemDto]). *)
Record TransactionItemDto := mkItemDto {
  d_productId : Z;
  d_quantity : Z;
  d_price : Qc;
  d_sellingPrice : option Qc;
  d_originalPrice : option Qc;
  d_creditMonth : option Z;
  d_creditPercent : option Qc;
  d_total : option Qc
}.

#[global] Instance TransactionItemDto_line : CreditLine TransactionItemDto := {
  linePrice := d_price;
  lineQuantity := d_quantity;
  lineCreditPercent := d_creditPercent;
  lineCreditMonth := d_creditMonth
}.

(** An entry of the itemized payment breakdown, as it arrives. *)
Record PaymentBreakdownDto := mkBreakdown {
  pb_method : option string;
  pb_amount : option Qc
}.

Record CreateTransactionDto := mkCreateDto {
  ct_userId : option Z;
  ct_soldByUserId : option Z;
  ct_fromBranchId : option Z;
  ct_toBranchId : option Z;
  ct_type : TransactionType;
  ct_paymentType : option PaymentType;
  ct_downPayment : option Qc;
  ct_amountPaid : option Qc;
  ct_upfrontPaymentType : option string;
  ct_termUnit : option TermUnit;
  ct_items : list TransactionItemDto;
  ct_payments : option (list PaymentBreakdownDto)
}.

Inductive Error :=
| UserNotFound
| InvalidUpfrontPaymentType
| PaymentsMismatch (roundedTotal roundedPayments : Z).

(** The upper-case form of an ASCII letter. *)
Definition upperAscii (c : ascii) : ascii :=
  let n := Ascii.nat_of_ascii c in
  if (97 <=? n)%nat && (n <=? 122)%nat then Ascii.ascii_of_nat (n - 32) else c.

(** The characters outside ASCII whose upper-case form is written in ASCII
    letters, by the bytes of their UTF-8 encoding: U+00DF (SS), U+0131 (I),
    U+017F (S) and the ligatures U+FB00 to U+FB06 (FF, FI, FL, FFI, FFL, ST,
    ST). *)
Definition upperTwoBytes (b1 b2 : nat) : option string :=
  if (b1 =? 195)%nat && (b2 =? 159)%nat then Some "SS"%string
  else if (b1 =? 196)%nat && (b2 =? 177)%nat then Some "I"%string
  else if (b1 =? 197)%nat && (b2 =? 191)%nat then Some "S"%string
  else None.

Definition upperThreeBytes (b1 b2 b3 : nat) : option string :=
  if (b1 =? 239)%nat && (b2 =? 172)%nat then
    if (b3 =? 128)%nat then Some "FF"%string
    else if (b3 =? 129)%nat then Some "FI"%string
    else if (b3 =? 130)%nat then Some "FL"%string
    else if (b3 =? 131)%nat then Some "FFI"%string
    else if (b3 =? 132)%nat then Some "FFL"%string
    else if (b3 =? 133)%nat then Some "ST"%string
    else if (b3 =? 134)%nat then Some "ST"%string
    else None
  else None.

(** [String.prototype.toUpperCase] on a string given by its UTF-8 bytes.
    The ASCII letters and the characters above are mapped; every other
    character keeps its bytes: its upper-case form is not written in ASCII
    either, and the result is only compared with names written in ASCII. *)
Fixpoint toUpperCase (s : string) : string :=
  match s with
  | EmptyString => EmptyString
  | String c1 rest1 =>
      let plain := String (upperAscii c1) (toUpperCase rest1) in
      match rest1 with
      | EmptyString => plain
      | String c2 rest2 =>
          match upperTwoBytes (Ascii.nat_of_ascii c1) (Ascii.nat_of_ascii c2) with
          | Some upper => (upper ++ toUpperCase rest2)%string
          | None =>
              match rest2 with
              | EmptyString => plain
              | String c3 rest3 =>
                  match upperThreeBytes (Ascii.nat_of_ascii c1) (Ascii.nat_of_ascii c2)
                                        (Ascii.nat_of_ascii c3) with
                  | Some upper => (upper ++ toUpperCase rest3)%string
                  | None => plain
                  end
              end
          end
      end
  end.

(** The mapped entry [{ method, amount }]. *)
Definition normalise (p : PaymentBreakdownDto) : string * Qc :=
  (toUpperCase (default EmptyString (pb_method p)), JS.or_num (pb_amount p) 0).

Definition knownMethods : list string := ["CASH"; "CARD"; "TERMINAL"; "TOVAR"]%string.

(** [payments.map(...).filter(p => p.amount > 0 && [...].includes(p.method))]. *)
Definition paymentsData (payments : list PaymentBreakdownDto) : list (string * Qc) :=
  filter (λ p, 0 < p.2 ∧ p.1 ∈ knownMethods) (normalise <$> payments).

(** [paymentsData.reduce((sum, p) => sum + p.amount, 0)]. *)
Definition totalPayments (data : list (string * Qc)) : Qc :=
  foldl (λ sum p, sum + p.2) 0 data.

(** The sum of an itemized payment breakdown as it was supplied, every
    entry counted. *)
Definition breakdownSum (payments : list PaymentBreakdownDto) : Qc :=
  foldr Qcplus 0 ((λ p, JS.or_num (pb_amount p) 0) <$> payments).

(** The figures [create] computes once, at sale time. *)
Record SaleTotals := mkSaleTotals {
  computedTotal : Qc;
  saleEffectivePercent : Qc;
  upfrontPayment : Qc;
  saleRemainingWithInterest : Qc;
  finalTotalOnce : Qc
}.

Definition saleTotals (dto : CreateTransactionDto) : SaleTotals :=
  let t := Schedule.aggregate lineQuantity false (ct_items dto) in
  let computedTotal := Schedule.totalPrincipal t in
  let upfrontPayment :=
    JS.or_num (Some (JS.or_num (ct_downPayment dto)
                       (JS.or_num (ct_amountPaid dto) 0))) 0 in
  let remainingPrincipal := JS.max 0 (computedTotal - upfrontPayment) in
  let effectivePercent := Schedule.effectivePercent t in
  let interestAmount :=
    if isCredit (ct_paymentType dto) then remainingPrincipal * effectivePercent else 0 in
  let remainingWithInterest := remainingPrincipal + interestAmount in
  mkSaleTotals computedTotal effectivePercent upfrontPayment remainingWithInterest
               (upfrontPayment + remainingWithInterest).

(** The checks of [create] that throw, in the order of the source: the
    user, the upfront payment type, the itemized payments.  (The customer
    upsert between the first two writes a table that is not modelled.) *)
Definition createChecks (dto : CreateTransactionDto) (userId : option Z) (s : Store)
    : Error + list (string * Qc) :=
  let userMissing :=
    match JS.truthy_id userId with
    | Some u => bool_decide (users s !! u = None)
    | None => false
    end in
  if userMissing then inl UserNotFound
  else
    let badUpfrontType :=
      match ct_upfrontPaymentType dto with
      | Some t =>
          bool_decide (t ≠ EmptyString)
            && negb (bool_decide (t ∈ ["CASH"; "CARD"; "TERMINAL"]%string))
      | None => false
      end in
    if badUpfrontType then inl InvalidUpfrontPaymentType
    else
      match ct_payments dto with
      | Some (p :: ps) =>
          let data := paymentsData (p :: ps) in
          let roundedTotal := JS.round (computedTotal (saleTotals dto)) in
          let roundedPayments := JS.round (totalPayments data) in
          if decide (roundedTotal ≠ roundedPayments)
          then inl (PaymentsMismatch roundedTotal roundedPayments)
          else inr data
      | _ => inr []
      end.

(** The stored line of a request line ([items: { create: ... }]), read
    back with its product ([include: { product: true }]). *)
Definition persistItem (s : Store) (id : Z) (item : TransactionItemDto)
    : TransactionItem :=
  mkItem id (Some (d_productId item)) (d_quantity item) (d_price item)
         (Some (JS.or_num (d_sellingPrice item) (d_price item)))
         (Some (JS.or_num (d_originalPrice item) (d_price item)))
         (JS.or_num (d_total item) (d_price item * JS.num (d_quantity item)))
         (d_creditMonth item) (d_creditPercent item) None
         (products s !! d_productId item).

Definition setStock (quantity : Z) (status : ProductStatus) (p : Product) : Product :=
  mkProduct (p_id p) (p_price p) quantity (p_defectiveQuantity p)
            (p_returnedQuantity p) (p_exchangedQuantity p) status
            (p_bonusPercentage p) (p_branchId p).

(** One pass of the loop of [updateProductQuantities]. *)
Definition updateProductQuantity (type : TransactionType) (s : Store)
    (item : TransactionItem) : Store :=
  match JS.truthy_id (it_productId item) with
  | None => s
  | Some productId =>
      match products s !! productId with
      | None => s
      | Some product =>
          let '(newQuantity, newStatus) :=
            match type with
            | SALE =>
                let q := Z.max 0 (p_quantity product - it_quantity item) in
                (q, if decide (q = 0%Z) then SOLD else IN_STORE)
            | PURCHASE =>
                ((p_quantity product + it_quantity item)%Z, IN_WAREHOUSE)
            | _ => (p_quantity product, p_status product)
            end in
          set_products (alter (setStock newQuantity newStatus) productId) s
      end
  end.

Definition updateProductQuantities (transaction : Transaction) (s : Store) : Store :=
  foldl (updateProductQuantity (tx_type transaction)) s (tx_items transaction).

(** [create(createTransactionDto, userId)] up to its return value: the
    checks, the stored transaction, its schedule and the stock.  The bonus
    computation it schedules before returning ([setTimeout], two seconds)
    is [scheduledBonuses] below.  The customer the method looks up or
    creates first and the task it creates for a delivery are rows of tables
    the store of the model does not carry. *)
Definition create (dto : CreateTransactionDto) (userId : option Z) (s : Store)
    : Error + (Transaction * Store) :=
  match createChecks dto userId s with
  | inl e => inl e
  | inr _ =>
      let totals := saleTotals dto in
      let createdByUserId :=
        match userId with Some u => Some u | None => ct_userId dto end in
      let soldByUserId :=
        match ct_soldByUserId dto with
        | Some u => Some u
        | None => match userId with Some u => Some u | None => createdByUserId end
        end in
      let id := nextId s in
      let items := imap (λ i item, persistItem s (id + 1 + Z.of_nat i)%Z item)
                        (ct_items dto) in
      let transaction :=
        mkTransaction id (ct_type dto) (ct_paymentType dto)
          (default MONTHS (ct_termUnit dto))
          (computedTotal totals) (finalTotalOnce totals)
          (saleRemainingWithInterest totals)
          (ct_amountPaid dto) (ct_downPayment dto) None
          (ct_fromBranchId dto) (ct_toBranchId dto)
          (JS.truthy_id createdByUserId) (JS.truthy_id soldByUserId) items in
      let s1 :=
        set_nextId (λ n, n + 1 + Z.of_nat (length items))%Z
          (set_transactions (insert id transaction) s) in
      let downPayment := JS.or_num (ct_downPayment dto) 0 in
      let s2 :=
        if isCredit (tx_paymentType transaction) then
          match tx_termUnit transaction with
          | DAYS => Schedule.createDailyPaymentSchedule id items downPayment s1
          | MONTHS => Schedule.createPaymentSchedule id items downPayment s1
          end
        else s1 in
      inr (transaction, updateProductQuantities transaction s2)
  end.

(** *** Bonus / penalty calculator ([calculateAndCreateSalesBonuses]) *)

(** Modelled from the spec: [BonusService.create] is not part of the
    sources at hand; a Bonus record is "created", that is appended to the
    Bonus table, for the beneficiary named in the record. *)
Definition bonusServiceCreate (b : Bonus) (s : Store) : Store :=
  set_bonuses (λ rows, rows ++ [b]) s.

(** The USD to UZS rate picked from the branch-scoped rate and the global
    rate; either is [0] when the currency service threw. *)
Definition usdToSomRate (branchRate globalRate : Qc) : Qc :=
  if decide (branchRate ≠ 0 ∧ 1 < branchRate) then branchRate
  else if decide (globalRate ≠ 0 ∧ 1 < globalRate) then globalRate
  else JS.or_num (Some (JS.or_num (Some branchRate) globalRate)) 1.

(** [Math.round(Number(product?.price || 0) * usdToSomRate)]. *)
Definition priceInUzs (rate : Qc) (product : option Product) : Qc :=
  JS.roundN (JS.or_num (p_price <$> product) 0 * rate).

(** [product?.price ? Math.round(Number(product.price) * usdToSomRate) : 0]. *)
Definition costInUzsOf (rate : Qc) (product : option Product) : Qc :=
  match product with
  | Some p => if decide (p_price p ≠ 0) then JS.roundN (p_price p * rate) else 0
  | None => 0
  end.

(** Value of the recorded giveaways. *)
Definition recordedBonusValue (rate : Qc) (s : Store)
    (bonusProducts : list TransactionBonusProduct) : Qc :=
  foldl (λ total bp,
           total + priceInUzs rate (products s !! bp_productId bp)
                     * JS.num (bp_quantity bp))
        0 bonusProducts.

(** The zero-price lines the fallback treats as giveaways. *)
Definition potentialBonusItems (items : list TransactionItem) : list TransactionItem :=
  filter (λ it, (JS.nullish (it_sellingPrice it) (it_price it) = 0 ∨ it_price it = 0)
                ∧ is_Some (it_productId it)) items.

(** One pass of the fallback loop: the value of the line is added and a
    join row is recorded for it. *)
Definition fallbackStep (rate : Qc) (transactionId : Z) (acc : Qc * Store)
    (bi : TransactionItem) : Qc * Store :=
  let '(total, s) := acc in
  let dbProduct :=
    match it_product bi with
    | Some p => Some p
    | None => JS.truthy_id (it_productId bi) ≫= λ id, products s !! id
    end in
  let unitCostUZS := costInUzsOf rate dbProduct in
  let qty := JS.or_int (Some (it_quantity bi)) 1 in
  let itemValue := unitCostUZS * JS.num qty in
  let s' :=
    match JS.truthy_id (it_productId bi) with
    | Some productId =>
        set_transactionBonusProducts
          (λ rows, rows ++ [mkBonusProduct transactionId productId qty]) s
    | None => s
    end in
  (total + itemValue, s').

(** [totalBonusProductsValue] and the store after the fallback writes. *)
Definition bonusProductsValue (rate : Qc) (transaction : Transaction)
    (bonusProducts : list TransactionBonusProduct) (s : Store) : Qc * Store :=
  if decide (0 < length bonusProducts)%nat then
    (recordedBonusValue rate s bonusProducts, s)
  else
    foldl (fallbackStep rate (tx_id transaction)) (0, s)
          (potentialBonusItems (tx_items transaction)).

(** An entry of [itemDiffs]. *)
Record ItemDiff := mkItemDiff {
  df_item : TransactionItem;
  df_productInfo : option Product;
  df_sellingPrice : Qc;
  df_quantity : Qc;
  df_bonusPercentage : Qc;
  df_costInUzs : Qc;
  df_priceDifference : Qc
}.

(** The selling price of a line in UZS, with the magnitude heuristic. *)
Definition sellingPriceOf (rate : Qc) (item : TransactionItem) : Qc :=
  match it_sellingPrice item with
  | Some rawSp =>
      if decide (0 < rawSp ∧ rawSp < JS.max (rate / JS.num 2) (JS.num 10000))
      then JS.roundN (rawSp * rate) else JS.roundN rawSp
  | None => JS.roundN (JS.or_num (Some (it_price item)) 0 * rate)
  end.

(** [productInfo] and [bonusPercentage] of a line: the included product,
    replaced by the stored one when it is missing or carries no
    percentage. *)
Definition resolveProduct (s : Store) (item : TransactionItem)
    : option Product * Qc :=
  let productInfo := it_product item in
  let bonusPercentage := JS.or_num (p_bonusPercentage <$> productInfo) 0 in
  let stored := JS.truthy_id (it_productId item) ≫= λ id, products s !! id in
  match productInfo, decide (bonusPercentage = 0), stored with
  | Some _, right _, _ => (productInfo, bonusPercentage)
  | _, _, Some dbProduct =>
      (Some dbProduct, JS.or_num (Some (p_bonusPercentage dbProduct)) 0)
  | _, _, None => (productInfo, bonusPercentage)
  end.

Definition itemDiffOf (rate : Qc) (s : Store) (item : TransactionItem) : ItemDiff :=
  let sellingPrice := sellingPriceOf rate item in
  let quantity := JS.num (JS.or_int (Some (it_quantity item)) 1) in
  let '(productInfo, bonusPercentage) := resolveProduct s item in
  let costInUzs := costInUzsOf rate productInfo in
  let priceDifference :=
    if decide (costInUzs < sellingPrice ∧ 0 < bonusPercentage)
    then (sellingPrice - costInUzs) * quantity else 0 in
  mkItemDiff item productInfo sellingPrice quantity bonusPercentage costInUzs
             priceDifference.

(** The accumulators of the first pass over the lines. *)
Record Precompute := mkPrecompute {
  totalPriceDifferenceForTransaction : Qc;
  itemDiffs : list ItemDiff;
  totalSellingAll : Qc;
  totalCostAll : Qc
}.

Definition precomputeStep (rate : Qc) (s : Store) (acc : Precompute)
    (item : TransactionItem) : Precompute :=
  let d := itemDiffOf rate s item in
  let selling := totalSellingAll acc + df_sellingPrice d * df_quantity d in
  let cost := totalCostAll acc + df_costInUzs d * df_quantity d in
  if decide (0 < df_priceDifference d) then
    mkPrecompute (totalPriceDifferenceForTransaction acc + df_priceDifference d)
                 (itemDiffs acc ++ [d]) selling cost
  else
    mkPrecompute (totalPriceDifferenceForTransaction acc) (itemDiffs acc) selling cost.

Definition precompute (rate : Qc) (s : Store) (items : list TransactionItem)
    : Precompute :=
  foldl (precomputeStep rate s) (mkPrecompute 0 [] 0 0) items.

(** [bonusAmount] of a contributing line. *)
Definition bonusAmountOf (totalPriceDifference pool : Qc) (info : ItemDiff) : Qc :=
  let share :=
    if decide (0 < totalPriceDifference)
    then df_priceDifference info / totalPriceDifference else 0 in
  let netExtraAmount := JS.roundN (pool * share) in
  JS.roundN (netExtraAmount * (df_bonusPercentage info / JS.num 100)).

(** The giveaway snapshot stored on the records. *)
Definition snapshot (rate : Qc) (s : Store)
    (bonusProducts : list TransactionBonusProduct)
    : option (list BonusProductSnapshot) :=
  let data :=
    (λ bp, let price := priceInUzs rate (products s !! bp_productId bp) in
           mkSnapshot (bp_productId bp) (bp_quantity bp) price
                      (price * JS.num (bp_quantity bp))) <$> bonusProducts in
  if decide (0 < length data)%nat then Some data else None.

(** One pass of the second loop: a record for a line whose amount is
    positive. *)
Definition bonusStep (transaction : Transaction) (soldByUserId : Z)
    (branchContextId : option Z) (snap : option (list BonusProductSnapshot))
    (totalPriceDifference pool : Qc) (s : Store) (info : ItemDiff) : Store :=
  let bonusAmount := bonusAmountOf totalPriceDifference pool info in
  if decide (0 < bonusAmount) then
    bonusServiceCreate
      (mkBonus soldByUserId branchContextId bonusAmount SALES_BONUS snap
               (tx_id transaction)) s
  else s.

(** [grossDiffAfterBonusCost]. *)
Definition grossDiff (pre : Precompute) (totalBonusProductsValue : Qc) : Qc :=
  let sellingTotal := JS.roundN (totalSellingAll pre) in
  let costPlusBonus :=
    JS.roundN (totalCostAll pre) + JS.roundN totalBonusProductsValue in
  sellingTotal - costPlusBonus.

Definition calculateAndCreateSalesBonuses (branchRate globalRate : Qc)
    (transaction : Transaction) (soldByUserId : Z) (s : Store) : Store :=
  match users s !! soldByUserId with
  | None => s
  | Some seller =>
      let branchContextId :=
        match JS.truthy_id (tx_fromBranchId transaction) with
        | Some b => Some b
        | None =>
            match JS.truthy_id (tx_toBranchId transaction) with
            | Some b => Some b
            | None => JS.truthy_id (u_branchId seller)
            end
        end in
      let rate := usdToSomRate branchRate globalRate in
      let bonusProducts :=
        filter (λ bp, bp_transactionId bp = tx_id transaction)
               (transactionBonusProducts s) in
      let '(totalBonusProductsValue, s1) :=
        bonusProductsValue rate transaction bonusProducts s in
      let pre := precompute rate s1 (tx_items transaction) in
      let transactionNetExtraPool :=
        JS.max 0 (JS.roundN (totalPriceDifferenceForTransaction pre)
                  - JS.roundN totalBonusProductsValue) in
      let snap := snapshot rate s1 bonusProducts in
      let s2 :=
        foldl (bonusStep transaction soldByUserId branchContextId snap
                 (totalPriceDifferenceForTransaction pre) transactionNetExtraPool)
              s1 (itemDiffs pre) in
      let grossDiffAfterBonusCost := grossDiff pre totalBonusProductsValue in
      let s3 :=
        set_transactions
          (alter (setExtraProfit grossDiffAfterBonusCost)
                 (tx_id transaction)) s2 in
      if decide (grossDiffAfterBonusCost < 0) then
        let netDeficit := JS.abs grossDiffAfterBonusCost in
        bonusServiceCreate
          (mkBonus soldByUserId branchContextId (- netDeficit) SALES_PENALTY snap
                   (tx_id transaction)) s3
      else s3
  end.

(** The job [create] schedules before it returns, to run two seconds
    later ([setTimeout(..., 2000)]): the bonus computation of a sale that
    has a seller. *)
Definition scheduledBonuses (branchRate globalRate : Qc)
    (transaction : Transaction) (s : Store) : Store :=
  match tx_soldByUserId transaction, tx_type transaction with
  | Some soldByUserId, SALE =>
      calculateAndCreateSalesBonuses branchRate globalRate transaction
                                     soldByUserId s
  | _, _ => s
  end.

(** The join rows the fallback of the calculator records for the
    zero-price lines [items] of a sale. *)
Definition fallbackRows (transactionId : Z) (items : list TransactionItem)
    : list TransactionBonusProduct :=
  omap (λ bi, (λ productId,
                 mkBonusProduct transactionId productId
                                (JS.or_int (Some (it_quantity bi)) 1))
              <$> JS.truthy_id (it_productId bi))
       items.

(** The transaction-level gross margin the method computes
    ([grossDiffAfterBonusCost]), as a function of its inputs. *)
Definition grossMargin (branchRate globalRate : Qc) (transaction : Transaction)
    (s : Store) : Qc :=
  let rate := usdToSomRate branchRate globalRate in
  let bonusProducts :=
    filter (λ bp, bp_transactionId bp = tx_id transaction)
           (transactionBonusProducts s) in
  let '(totalBonusProductsValue, s1) :=
    bonusProductsValue rate transaction bonusProducts s in
  grossDiff (precompute rate s1 (tx_items transaction)) totalBonusProductsValue.

End TransactionService.

(** ** The blended rate in the words of the specification *)

Module BlendedRateSpec.

Local Open Scope Qc_scope.

Section Lines.
Context `{CreditLine A}.

Definition sumQc (l : list Qc) : Qc := foldr Qcplus 0 l.

(** The principal of a line: price times quantity. *)
Definition principal (item : A) : Qc :=
  linePrice item * JS.num (lineQuantity item).

(** A line has a creditPercent set when the field is present and not 0. *)
Definition hasCreditPercent (item : A) : Prop :=
  ∃ c, lineCreditPercent item = Some c ∧ c ≠ 0.

#[global] Instance hasCreditPercent_dec item : Decision (hasCreditPercent item).
Proof.
  unfold hasCreditPercent.
  destruct (lineCreditPercent item) as [c|].
  - destruct (decide (c = 0)) as [Hz|Hc].
    + right. intros (c' & Heq & Hc'). apply Hc'. congruence.
    + left. eauto.
  - right. intros (c & Heq & _). discriminate.
Defined.

(** Sum of the principals of all lines. *)
Definition sumPrincipal (items : list A) : Qc :=
  sumQc (principal <$> items).

(** Sum of principal times creditPercent over the lines that have one. *)
Definition sumWeighted (items : list A) : Qc :=
  sumQc ((λ item, principal item * default 0 (lineCreditPercent item))
           <$> filter hasCreditPercent items).

(** Sum of the principals of the lines that have a creditPercent. *)
Definition sumWeightBase (items : list A) : Qc :=
  sumQc (principal <$> filter hasCreditPercent items).

End Lines.

End BlendedRateSpec.

(** ** Views of the store used to state the properties *)

Module Ledger.

(** Every stored transaction is filed under its own id. *)
Definition wf_store (s : Store) : Prop :=
  ∀ k t, transactions s !! k = Some t → tx_id t = k.

(** Units of product [productId] given away with the join rows [rows]. *)
Definition givenAway (rows : list TransactionBonusProduct) (productId : Z) : Z :=
  foldr Z.add 0 (bp_quantity <$> filter (λ bp, bp_productId bp = productId) rows).

(** The product table after the restock loop over [rows]. *)
Definition restockProducts (rows : list TransactionBonusProduct)
    (ps : gmap Z Product) : gmap Z Product :=
  foldl (λ m bp,
           alter (DefectiveLogService.incrementQuantity (bp_quantity bp))
                 (bp_productId bp) m)
        ps rows.

(** The cash ledger: the branch balances and the audit log. *)
Definition sameLedger (s s' : Store) : Prop :=
  branches s' = branches s ∧ defectiveLogs s' = defectiveLogs s.

(** The stock: the products and the join rows of the giveaways. *)
Definition sameStock (s s' : Store) : Prop :=
  products s' = products s
  ∧ transactionBonusProducts s' = transactionBonusProducts s.

End Ledger.

(** ** A credit sale followed by returns (the scenario of the examples) *)

Module Scenario.

Local Open Scope Qc_scope.

(** Product 7 costs 1000 and has 10 units in stock, product 8 costs 100
    and has 5, product 9 costs 5000 and has 3; a bonus of 20 % is configured
    on product 7 only; seller 5 works at branch 1. *)
Definition store0 : Store :=
  mkStore (<[ 7%Z := mkProduct 7 (JS.num 1000) 10 0 0 0 IN_STORE (JS.num 20) (Some 1%Z) ]>
             (<[ 8%Z := mkProduct 8 (JS.num 100) 5 0 0 0 IN_STORE 0 (Some 1%Z) ]>
                {[ 9%Z := mkProduct 9 (JS.num 5000) 3 0 0 0 IN_STORE 0 (Some 1%Z) ]}))
          {[ 1%Z := mkBranch 0 ]}
          {[ 5%Z := mkUser (Some 1%Z) ]}
          ∅ [] [] [] [] 1.

(** Two units on credit: price 1000 each, sold at 1450, 10 % over 3 months,
    300 paid upfront. *)
Definition saleDto : TransactionService.CreateTransactionDto :=
  TransactionService.mkCreateDto
    (Some 5%Z) (Some 5%Z) (Some 1%Z) None SALE (Some CREDIT)
    (Some (JS.num 300)) (Some (JS.num 300)) (Some "CASH"%string) (Some MONTHS)
    [TransactionService.mkItemDto 7 2 (JS.num 1000) (Some (JS.num 1450)) None
       (Some 3%Z) (Some (Q2Qc (1 # 10))) None]
    None.

Definition sale : option (Transaction * Store) :=
  match TransactionService.create saleDto (Some 5%Z) store0 with
  | inr r => Some r
  | inl _ => None
  end.

(** The store after the sale and after its bonus computation (rate 1). *)
Definition afterSale : Store :=
  match sale with
  | Some (transaction, s) =>
      TransactionService.calculateAndCreateSalesBonuses 0 0 transaction 5 s
  | None => store0
  end.

(** The same store once a unit of product 8 has been attached to the sale
    as a giveaway. *)
Definition afterGiveaway : Store :=
  set_transactionBonusProducts (λ rows, rows ++ [mkBonusProduct 1 8 1]) afterSale.

(** A RETURN of [quantity] units of product 7 against transaction 1. *)
Definition returnDto (quantity : Z) : DefectiveLogService.CreateDefectiveLogDto :=
  DefectiveLogService.mkDto 7 quantity (Some 5%Z) (Some 1%Z) (Some ActRETURN) true
    (Some 1%Z) None None None None None (Some 5%Z).

Definition afterReturn (quantity : Z) : option Store :=
  match DefectiveLogService.create (returnDto quantity) afterSale with
  | inr (_, s) => Some s
  | inl _ => None
  end.

(** The store after the atomic write of a RETURN of both units, before the
    recomputation of the schedule. *)
Definition afterFullReturnWrite : option Store :=
  match products afterSale !! 7%Z with
  | Some product =>
      match DefectiveLogService.effects (returnDto 2) ActRETURN product afterSale with
      | Some e =>
          match DefectiveLogService.transactionBody (returnDto 2) ActRETURN e afterSale with
          | inr (_, s, _) => Some s
          | inl _ => None
          end
      | None => None
      end
  | None => None
  end.

(** A cash sale of two units of product 7 above cost (1450 for 1000) and
    one unit of product 9 far below cost (1000 for 5000). *)
Definition mixedSaleDto : TransactionService.CreateTransactionDto :=
  TransactionService.mkCreateDto
    (Some 5%Z) (Some 5%Z) (Some 1%Z) None SALE (Some CASH)
    None None None None
    [TransactionService.mkItemDto 7 2 (JS.num 1000) (Some (JS.num 1450)) None
       None None None;
     TransactionService.mkItemDto 9 1 (JS.num 5000) (Some (JS.num 1000)) None
       None None None]
    None.


(** A cash sale of two units of product 7 above cost (1450 for 1000) with
    one unit of product 8 handed over as a line of price 0. *)
Definition giftSaleDto : TransactionService.CreateTransactionDto :=
  TransactionService.mkCreateDto
    (Some 5%Z) (Some 5%Z) (Some 1%Z) None SALE (Some CASH)
    None None None None
    [TransactionService.mkItemDto 7 2 (JS.num 1000) (Some (JS.num 1450)) None
       None None None;
     TransactionService.mkItemDto 8 1 0 None None None None None]
    None.

(** A cash sale of two units of product 7, principal 2000, whose payment
    breakdown is one entry of 2000 under a method the service does not
    know. *)
Definition bankSaleDto : TransactionService.CreateTransactionDto :=
  TransactionService.mkCreateDto
    (Some 5%Z) (Some 5%Z) (Some 1%Z) None SALE (Some CASH)
    None None None None
    [TransactionService.mkItemDto 7 2 (JS.num 1000) None None None None None]
    (Some [TransactionService.mkBreakdown (Some "BANK"%string) (Some (JS.num 2000))]).

End Scenario.

(** ** Further operations of the two services and of the cashier report *)

Module Operations.

Local Open Scope Qc_scope.

(** *** [TransactionService.updatePaymentStatus] *)

Inductive PaymentStatusError := InvalidTransactionId | ScheduleNotFound.

Definition setBalance (balance : Qc) (r : PaymentSchedule) : PaymentSchedule :=
  mkSchedule (ps_transactionId r) (ps_month r) (ps_payment r) balance (ps_isPaid r)
             (ps_paidAmount r) (ps_installmentType r) (ps_totalMonths r)
             (ps_remainingMonths r) (ps_totalDays r).

(** [paymentSchedule.findFirst({ where: { transactionId, month } })] is the
    first such row of the table; the update is addressed to that row. *)
Definition updatePaymentStatus (transactionId month : Z) (paid : bool) (s : Store)
    : PaymentStatusError + Store :=
  if decide (transactionId ≤ 0)%Z then inl InvalidTransactionId
  else
    match list_find (λ r, ps_transactionId r = transactionId ∧ ps_month r = month)
                    (paymentSchedules s) with
    | None => inl ScheduleNotFound
    | Some (i, schedule) =>
        inr (set_paymentSchedules
               (λ rows, <[i := setBalance
                                 (if paid then 0 else ps_remainingBalance schedule)
                                 schedule]> rows) s)
    end.

(** What an update of the payment status does to a row: nothing, or, when
    the instalment is marked paid, it sets the remainingBalance of the row
    addressed to 0. *)
Definition marked (transactionId month : Z) (paid : bool)
    (r r' : PaymentSchedule) : Prop :=
  r' = r
  ∨ (paid = true ∧ ps_transactionId r = transactionId ∧ ps_month r = month
     ∧ r' = setBalance 0 r).

(** *** [TransactionService.getDebts]: the entry of one transaction *)

(** [include: { paymentSchedules: { orderBy: { month: 'asc' } } }]: the rows
    of the transaction, by month; rows of the same month keep the order of
    the table. *)
Fixpoint insertByMonth (r : PaymentSchedule) (rows : list PaymentSchedule)
    : list PaymentSchedule :=
  match rows with
  | [] => [r]
  | r' :: rows' =>
      if decide (ps_month r' < ps_month r)%Z
      then r' :: insertByMonth r rows'
      else r :: r' :: rows'
  end.

Definition sortByMonth (rows : list PaymentSchedule) : list PaymentSchedule :=
  foldr insertByMonth [] rows.

(** [nextDue]: the month of the first row that is not settled, what is left
    to pay on it, and its remainingBalance. *)
Record NextDue := mkNextDue {
  nd_month : Z;
  nd_amountDue : Qc;
  nd_remainingBalance : Qc
}.

Record DebtItem := mkDebtItem {
  di_id : Z;
  di_productId : option Z;
  di_quantity : Z;
  di_price : Qc;
  di_total : Qc
}.

(** An entry of [debts].  The customer, the creation date and the names of
    the products are columns the store of the model does not carry. *)
Record Debt := mkDebt {
  debt_transactionId : Z;
  debt_paymentType : option PaymentType;
  debt_totalPayable : Qc;
  debt_totalPaid : Qc;
  debt_outstanding : Qc;
  debt_monthlyPayment : Qc;
  debt_nextDue : option NextDue;
  debt_items : list DebtItem
}.

(** [(s) => (s.paidAmount || 0) < (s.payment || 0) && !s.isPaid]. *)
Definition due (r : PaymentSchedule) : Prop :=
  JS.or_num (Some (ps_paidAmount r)) 0 < JS.or_num (Some (ps_payment r)) 0
  ∧ ps_isPaid r = false.

#[global] Instance due_dec r : Decision (due r).
Proof. unfold due. apply _. Defined.

Definition nextDueOf (r : PaymentSchedule) : NextDue :=
  mkNextDue (ps_month r)
            (JS.max 0 (JS.or_num (Some (ps_payment r)) 0
                       - JS.or_num (Some (ps_paidAmount r)) 0))
            (ps_remainingBalance r).

(** The callback of [transactions.map]. *)
Definition debtOf (s : Store) (t : Transaction) : Debt :=
  let schedules := sortByMonth (Schedule.schedulesOf (tx_id t) s) in
  let totalPayable :=
    foldl (λ sum r, sum + JS.or_num (Some (ps_payment r)) 0) 0 schedules in
  let totalPaidFromSchedules :=
    foldl (λ sum r, sum + JS.or_num (Some (ps_paidAmount r)) 0) 0 schedules in
  let upfrontPaid :=
    JS.or_num (tx_downPayment t) 0 + JS.or_num (tx_amountPaid t) 0 in
  let totalPaid := totalPaidFromSchedules + upfrontPaid in
  let outstanding := JS.max 0 (totalPayable - totalPaid) in
  let nextDue := snd <$> list_find due schedules in
  let monthlyPayment :=
    match schedules with
    | r :: _ => ps_payment r
    | [] => 0
    end in
  mkDebt (tx_id t) (tx_paymentType t) totalPayable totalPaid outstanding
         monthlyPayment (nextDueOf <$> nextDue)
         ((λ it, mkDebtItem (it_id it) (it_productId it) (it_quantity it)
                            (it_price it) (it_total it)) <$> tx_items t).

(** [.filter((d) => d.outstanding > 0)] over the mapped transactions. *)
Definition debtsOf (s : Store) (transactions : list Transaction) : list Debt :=
  filter (λ d, 0 < debt_outstanding d) (debtOf s <$> transactions).

(** [debts.reduce((sum, d) => sum + d.outstanding, 0)]. *)
Definition totalOutstanding (debts : list Debt) : Qc :=
  foldl (λ sum d, sum + debt_outstanding d) 0 debts.

(** *** [DefectiveLogService]: the shorthands of [create] *)

Definition shorthandDto (productId quantity : Z) (userId branchId : option Z)
    (actionType : ActionType) : DefectiveLogService.CreateDefectiveLogDto :=
  DefectiveLogService.mkDto productId quantity userId branchId (Some actionType)
    false None None None None None None None.

Definition markAsFixed (productId quantity : Z) (userId branchId : option Z) :=
  DefectiveLogService.create (shorthandDto productId quantity userId branchId ActFIXED).

Definition returnProduct (productId quantity : Z) (userId branchId : option Z) :=
  DefectiveLogService.create (shorthandDto productId quantity userId branchId ActRETURN).

Definition exchangeProduct (productId quantity : Z) (userId branchId : option Z) :=
  DefectiveLogService.create (shorthandDto productId quantity userId branchId ActEXCHANGE).

(** *** [DefectiveLogService.getByCashier]: the totals *)

(** The signed amount of a log: the stored amount with the sign the
    direction dictates; a RETURN of amount 0 is priced from the line of its
    sale. *)
Definition signedAmount (s : Store) (log : DefectiveLog) : Qc :=
  let raw := JS.or_num (Some (dl_cashAmount log)) 0 in
  let signed :=
    match dl_cashAdjustmentDirection log with
    | Some MINUS => - JS.abs raw
    | Some PLUS => JS.abs raw
    | None => raw
    end in
  let isReturn := bool_decide (dl_actionType log = ActRETURN) in
  if bool_decide (signed = 0) && isReturn then
    match JS.truthy_id (dl_transactionId log) ≫= λ txId, transactions s !! txId with
    | Some tx =>
        let it :=
          List.find
            (λ ii, bool_decide (JS.nullish (it_productId ii) 0%Z = dl_productId log))
            (tx_items tx) in
        let unit :=
          match it with
          | Some i => JS.or_num (Some (JS.nullish (it_sellingPrice i) (it_price i))) 0
          | None => 0
          end in
        let qty := JS.num (JS.or_int (Some (dl_quantity log)) 0) in
        if decide (0 < unit ∧ 0 < qty) then - JS.abs (unit * qty) else signed
    | None => signed
    end
  else signed.

(** One pass of the loop: [plus] and [minus]. *)
Definition cashierStep (s : Store) (acc : Qc * Qc) (log : DefectiveLog) : Qc * Qc :=
  let signed := signedAmount s log in
  if decide (signed = 0) then acc
  else if decide (0 < signed) then (acc.1 + signed, acc.2)
  else (acc.1, acc.2 + JS.abs signed).

(** [{ plus, minus }] over the logs the query returned. *)
Definition cashierTotals (s : Store) (logs : list DefectiveLog) : Qc * Qc :=
  foldl (cashierStep s) (0, 0) logs.

(** *** [CashierReportService.generateCashierReport]: the defective logs *)

(** [defectiveLog.findMany({ where: { userId: cashierId, branchId,
    createdAt } })]: the creation time is not a field of the model, the date
    range is the predicate [inRange]. *)
Definition reportLogs (inRange : DefectiveLog → bool) (cashierId branchId : Z)
    (s : Store) : list DefectiveLog :=
  filter (λ log, dl_userId log = Some cashierId ∧ dl_branchId log = Some branchId
                 ∧ inRange log = true)
         (defectiveLogs s).

(** One pass of the loop over the logs: [defectivePlus], [defectiveMinus]. *)
Definition defectiveStep (acc : Qc * Qc) (log : DefectiveLog) : Qc * Qc :=
  let amount := JS.or_num (Some (dl_cashAmount log)) 0 in
  if decide (0 < amount) then (acc.1 + amount, acc.2)
  else if decide (amount < 0) then (acc.1, acc.2 + JS.abs amount)
  else acc.

Definition defectiveTotals (logs : list DefectiveLog) : Qc * Qc :=
  foldl defectiveStep (0, 0) logs.

(** *** [TransactionService.remove] *)

Inductive TransactionStatus := PENDING | IN_PROGRESS | COMPLETED | CANCELLED.
Inductive Role := ADMIN | OtherRole.

#[global] Instance TransactionStatus_eq_dec : EqDecision TransactionStatus.
Proof. solve_decision. Defined.
#[global] Instance Role_eq_dec : EqDecision Role.
Proof. solve_decision. Defined.

Inductive RemoveError :=
| InvalidId
| TransactionNotFound
| CompletedNotDeletable
| ProductToRestockNotFound.

(** [data: { quantity: { increment: n }, status: 'IN_STORE' }]. *)
Definition putBack (n : Z) (p : Product) : Product :=
  TransactionService.setStock (p_quantity p + n) IN_STORE p.

(** One pass of the restock loop of [remove]; the update of a product that
    does not exist throws and aborts the atomic write. *)
Definition putBackLine (acc : option Store) (item : TransactionItem) : option Store :=
  s ← acc;
  match JS.truthy_id (it_productId item) with
  | None => Some s
  | Some productId =>
      match products s !! productId with
      | None => None
      | Some _ =>
          Some (set_products (alter (putBack (it_quantity item)) productId) s)
      end
  end.

(** [remove(id, currentUser)]: [statuses] is the status column of the
    transaction table, [role] the role of the current user when there is
    one.  The repayment tables the method also clears, and the foreign keys
    of the other tables, are outside the model. *)
Definition remove (id : Z) (role : option Role) (statuses : gmap Z TransactionStatus)
    (s : Store) : RemoveError + Store :=
  if decide (id ≤ 0)%Z then inl InvalidId
  else
    match transactions s !! id with
    | None => inl TransactionNotFound
    | Some transaction =>
        if bool_decide (statuses !! id = Some COMPLETED)
           && negb (bool_decide (role = Some ADMIN))
        then inl CompletedNotDeletable
        else
          match foldl putBackLine (Some s) (tx_items transaction) with
          | None => inl ProductToRestockNotFound
          | Some s1 =>
              inr (set_transactions (delete id)
                     (set_paymentSchedules
                        (filter (λ r, ps_transactionId r ≠ id)) s1))
          end
    end.

(** *** The units of a product on the lines of a transaction *)

(** Sum of the quantities of the lines that name product [productId]
    ([if (item.productId)]: the id 0 names no product). *)
Definition unitsOf (productId : Z) (items : list TransactionItem) : Z :=
  foldr Z.add 0%Z
    (it_quantity
       <$> filter (λ it, JS.truthy_id (it_productId it) = Some productId) items).

(** *** The counters of the stock *)

(** The counters of a product are quantities: none is negative. *)
Definition stockOk (p : Product) : Prop :=
  (0 ≤ p_quantity p ∧ 0 ≤ p_defectiveQuantity p
   ∧ 0 ≤ p_returnedQuantity p ∧ 0 ≤ p_exchangedQuantity p)%Z.

(** No product has a negative counter and no giveaway row a negative
    quantity. *)
Definition stockInvariant (s : Store) : Prop :=
  map_Forall (λ _, stockOk) (products s)
  ∧ Forall (λ bp, 0 ≤ bp_quantity bp)%Z (transactionBonusProducts s).

(** The line of a sale after [quantity] of its units were returned or
    exchanged: the units left, their total at the unit price of the line, and
    the status RETURNED with total 0 when none is left. *)
Definition reducedLine (orig : TransactionItem) (quantity : Z)
    (it : TransactionItem) : TransactionItem :=
  let remainingQty := (it_quantity orig - quantity)%Z in
  if decide (remainingQty = 0%Z) then
    DefectiveLogService.setLine 0 0 (Some RETURNED) it
  else
    DefectiveLogService.setLine remainingQty
      (JS.num remainingQty
         * JS.or_num (Some (JS.nullish (it_sellingPrice orig) (it_price orig))) 0)
      (it_status it) it.

(** *** The term of a schedule, in the words of the specification *)

(** The largest creditMonth among the lines, 0 when no line has one. *)
Definition longestTerm `{CreditLine A} (items : list A) : Z :=
  foldr Z.max 0%Z ((λ item, default 0%Z (lineCreditMonth item)) <$> items).

End Operations.

(** ** Binary64: the rounding of the numbers of the services *)

Module Binary64.

(** The integer nearest to [num / den], the even one on a tie
    ([0 ≤ num], [0 < den]). *)
Definition nearestEven (num den : Z) : Z :=
  let q := num / den in
  match 2 * (num mod den) ?= den with
  | Lt => q
  | Gt => q + 1
  | Eq => if Z.even q then q else q + 1
  end.

(** The double nearest to [x], ties to even: [x] is brought to a
    significand of 53 bits, [2^52 ≤ q < 2^53] at the exponent [s], and the
    significand is rounded to an integer.  The range of the exponent is not
    bounded: overflow and the subnormal numbers are outside the model. *)
Definition nearest (x : Qc) : Qc :=
  let n := Qnum x in
  let d := Zpos (Qden x) in
  if decide (n = 0) then 0%Qc
  else
    let a := Z.abs n in
    let e0 := Z.log2 a - Z.log2 d in
    let reaches := d * 2 ^ Z.max 0 e0 <=? a * 2 ^ Z.max 0 (- e0) in
    let k := if reaches then e0 else e0 - 1 in
    let s := k - 52 in
    let q := nearestEven (a * 2 ^ Z.max 0 (- s)) (d * 2 ^ Z.max 0 s) in
    let v := Q2Qc (Qmake (q * 2 ^ Z.max 0 s) (Z.to_pos (2 ^ Z.max 0 (- s)))) in
    if decide (0 < n) then v else (- v)%Qc.

(** *** The numbers of the machine *)

(** An integer as a machine number. *)
Definition ofInt (z : Z) : PrimFloat.float :=
  PrimFloat.of_uint63 (Uint63.of_Z z).

(** The rational a finite machine number denotes. *)
Definition toQc (f : PrimFloat.float) : option Qc :=
  match FloatOps.Prim2SF f with
  | SpecFloat.S754_zero _ => Some 0%Qc
  | SpecFloat.S754_finite sign m e =>
      let v := Q2Qc (Qmake (Zpos m * 2 ^ Z.max 0 e) (Z.to_pos (2 ^ Z.max 0 (- e)))) in
      Some (if sign then (- v)%Qc else v)
  | _ => None
  end.

(** The payments of the month loop of the two generators, run on machine
    numbers: [currentPayment] of each pass. *)
Fixpoint machinePayments (totalMonths : Z) (monthlyPayment : PrimFloat.float)
    (fuel : nat) (month : Z) (remainingBalance : PrimFloat.float)
    : list PrimFloat.float :=
  match fuel with
  | O => []
  | S fuel' =>
      let currentPayment :=
        if decide (month = totalMonths) then remainingBalance else monthlyPayment in
      currentPayment
        :: machinePayments totalMonths monthlyPayment fuel' (month + 1)
             (PrimFloat.sub remainingBalance currentPayment)
  end.

End Binary64.

(** ** The schedule engine and the sale with the rounding made explicit *)

(** The functions of [Schedule] and the sale of [TransactionService] once
    more, every [+], [-], [*] and [/] on numbers followed by the rounding
    [rnd] of the arithmetic.  With [rnd] the identity they are the functions
    above; with [Binary64.nearest] they compute what the services compute on
    doubles in the range of the amounts. *)
Module Rounded.

Local Open Scope Qc_scope.

Section Arithmetic.

Variable rnd : Qc → Qc.

Definition add (a b : Qc) : Qc := rnd (a + b).
Definition sub (a b : Qc) : Qc := rnd (a - b).
Definition mul (a b : Qc) : Qc := rnd (a * b).
Definition div (a b : Qc) : Qc := rnd (a / b).

(** *** Schedule engine *)

Definition accumulate `{CreditLine A} (qty : A → Z) (months : bool)
    (acc : Schedule.Totals) (item : A) : Schedule.Totals :=
  let principal := mul (linePrice item) (JS.num (qty item)) in
  let acc1 :=
    Schedule.mkTotals (add (Schedule.totalPrincipal acc) principal)
                      (Schedule.weightedPercentSum acc)
                      (Schedule.percentWeightBase acc) (Schedule.totalMonths acc) in
  let acc2 :=
    if JS.truthy_num (lineCreditPercent item) then
      Schedule.mkTotals
        (Schedule.totalPrincipal acc1)
        (add (Schedule.weightedPercentSum acc1)
             (mul principal (JS.or_num (lineCreditPercent item) 0)))
        (add (Schedule.percentWeightBase acc1) principal)
        (Schedule.totalMonths acc1)
    else acc1 in
  if months && JS.truthy_int (lineCreditMonth item) then
    Schedule.mkTotals
      (Schedule.totalPrincipal acc2) (Schedule.weightedPercentSum acc2)
      (Schedule.percentWeightBase acc2)
      (Z.max (Schedule.totalMonths acc2) (JS.or_int (lineCreditMonth item) 0))
  else acc2.

Definition aggregate `{CreditLine A} (qty : A → Z) (months : bool)
    (items : list A) : Schedule.Totals :=
  foldl (accumulate qty months) Schedule.totals0 items.

Definition effectivePercent (t : Schedule.Totals) : Qc :=
  if decide (0 < Schedule.percentWeightBase t) then
    div (Schedule.weightedPercentSum t) (Schedule.percentWeightBase t)
  else 0.

Definition remainingWithInterest (total upfront percent : Qc) : Qc :=
  let remainingPrincipal := JS.max 0 (sub total upfront) in
  let interestAmount := mul remainingPrincipal percent in
  add remainingPrincipal interestAmount.

(** The month loop: [remainingBalance -= currentPayment] rounds. *)
Fixpoint monthLoop (mk : Z → Qc → Qc → PaymentSchedule)
    (totalMonths : Z) (monthlyPayment : Qc)
    (fuel : nat) (month : Z) (remainingBalance : Qc) : list PaymentSchedule :=
  match fuel with
  | O => []
  | S fuel' =>
      let currentPayment :=
        if decide (month = totalMonths) then remainingBalance else monthlyPayment in
      let remainingBalance' := sub remainingBalance currentPayment in
      mk month currentPayment (JS.max 0 remainingBalance')
        :: monthLoop mk totalMonths monthlyPayment fuel' (month + 1)%Z remainingBalance'
  end.

(** The rows of a monthly schedule of [totalMonths] months for the amount
    [remainingWithInterest]: [monthlyPayment = remainingWithInterest /
    totalMonths], then the loop. *)
Definition monthRows (mk : Z → Qc → Qc → PaymentSchedule) (totalMonths : Z)
    (remainingWithInterest : Qc) : list PaymentSchedule :=
  monthLoop mk totalMonths (div remainingWithInterest (JS.num totalMonths))
            (Z.to_nat totalMonths) 1%Z remainingWithInterest.

Definition paymentScheduleRows (transactionId : Z)
    (items : list TransactionItem) (downPayment : Qc) : list PaymentSchedule :=
  let t := aggregate lineQuantity true items in
  if decide (0 < Schedule.totalPrincipal t ∧ (0 < Schedule.totalMonths t)%Z) then
    let upfrontPayment := downPayment in
    let rwi :=
      remainingWithInterest (Schedule.totalPrincipal t) upfrontPayment
                            (effectivePercent t) in
    monthRows (Schedule.saleRow transactionId (Schedule.totalMonths t))
              (Schedule.totalMonths t) rwi
  else [].

Definition createPaymentSchedule (transactionId : Z)
    (items : list TransactionItem) (downPayment : Qc) (s : Store) : Store :=
  let schedules := paymentScheduleRows transactionId items downPayment in
  if decide (0 < length schedules)%nat then
    set_paymentSchedules (λ rows, rows ++ schedules) s
  else s.

Definition dailyScheduleRows (transactionId : Z)
    (items : list TransactionItem) (downPayment : Qc) : list PaymentSchedule :=
  let t := aggregate lineQuantity true items in
  if decide (0 < Schedule.totalPrincipal t ∧ (0 < Schedule.totalMonths t)%Z) then
    let rwi :=
      remainingWithInterest (Schedule.totalPrincipal t) downPayment
                            (effectivePercent t) in
    [mkSchedule transactionId 1 rwi rwi false 0 (Some DAILY) None None
                (Some (Schedule.totalMonths t))]
  else [].

Definition createDailyPaymentSchedule (transactionId : Z)
    (items : list TransactionItem) (downPayment : Qc) (s : Store) : Store :=
  let schedules := dailyScheduleRows transactionId items downPayment in
  if decide (0 < length schedules)%nat then
    set_paymentSchedules (λ rows, rows ++ schedules) s
  else s.

(** *** Recomputation after a return *)

Definition originalTotals (allItems : list TransactionItem) : Schedule.Totals :=
  aggregate Schedule.originalQuantity true allItems.

Definition remainingTotals (allItems : list TransactionItem) : Schedule.Totals :=
  aggregate lineQuantity false (Schedule.remainingItems allItems).

Definition upfrontRatio (allItems : list TransactionItem) : Qc :=
  if decide (0 < Schedule.totalPrincipal (originalTotals allItems)) then
    div (Schedule.totalPrincipal (remainingTotals allItems))
        (Schedule.totalPrincipal (originalTotals allItems))
  else 0.

Definition proportionalUpfront (transaction : Transaction) : Qc :=
  let originalUpfrontPayment := JS.or_num (tx_amountPaid transaction) 0 in
  mul originalUpfrontPayment (upfrontRatio (tx_items transaction)).

Definition recalcRemainingWithInterest (transaction : Transaction) : Qc :=
  let remT := remainingTotals (tx_items transaction) in
  remainingWithInterest (Schedule.totalPrincipal remT)
                        (proportionalUpfront transaction) (effectivePercent remT).

Definition recalcRows (transactionId : Z) (transaction : Transaction)
    : list PaymentSchedule :=
  monthRows (Schedule.recalcRow transactionId)
            (Schedule.totalMonths (originalTotals (tx_items transaction)))
            (recalcRemainingWithInterest transaction).

Definition recalculatePaymentSchedules (transactionId : Z) (s : Store) : Store :=
  match transactions s !! transactionId with
  | None => s
  | Some transaction =>
      if negb (isCredit (tx_paymentType transaction)) then s
      else
        let s1 :=
          if decide (0 < length (Schedule.schedulesOf transactionId s))%nat
          then Schedule.deleteSchedules transactionId s else s in
        let allItems := tx_items transaction in
        if decide (length (Schedule.remainingItems allItems) = 0%nat) then s1
        else
          let remT := remainingTotals allItems in
          if decide (0 < Schedule.totalPrincipal remT
                     ∧ (0 < Schedule.totalMonths (originalTotals allItems))%Z) then
            let schedules := recalcRows transactionId transaction in
            let s2 :=
              if decide (0 < length schedules)%nat
              then set_paymentSchedules (λ rows, rows ++ schedules) s1 else s1 in
            set_transactions
              (alter (setTotals (Schedule.totalPrincipal remT)
                                (recalcRemainingWithInterest transaction))
                     transactionId) s2
          else s1
  end.

(** *** What the month loop leaves to the last month *)

(** The balance the loop holds after [k] payments of [monthlyPayment]. *)
Fixpoint balanceAfter (monthlyPayment : Qc) (k : nat) (balance : Qc) : Qc :=
  match k with
  | O => balance
  | S k' => balanceAfter monthlyPayment k' (sub balance monthlyPayment)
  end.

(** The sum of the rounding errors of those [k] subtractions: what each
    [remainingBalance -= monthlyPayment] stores, less what it should. *)
Fixpoint subtractionDrift (monthlyPayment : Qc) (k : nat) (balance : Qc) : Qc :=
  match k with
  | O => 0
  | S k' =>
      (sub balance monthlyPayment - (balance - monthlyPayment))
      + subtractionDrift monthlyPayment k' (sub balance monthlyPayment)
  end.

(** The monthly schedules the engine generates, each with its
    [remainingWithInterest] and its term: the rows written at sale creation,
    and the rows a credit or installment transaction holds after a
    recomputation.  Both generators emit rows only for a positive principal
    and a term of at least one month. *)
Inductive MonthlySchedule : list PaymentSchedule → Qc → Z → Prop :=
| AtSale (transactionId : Z) (items : list TransactionItem) (downPayment : Qc) :
    let t := aggregate lineQuantity true items in
    0 < Schedule.totalPrincipal t →
    (1 ≤ Schedule.totalMonths t)%Z →
    MonthlySchedule
      (paymentScheduleRows transactionId items downPayment)
      (remainingWithInterest (Schedule.totalPrincipal t) downPayment
                             (effectivePercent t))
      (Schedule.totalMonths t)
| AtRecalculation (s : Store) (transactionId : Z) (transaction : Transaction) :
    transactions s !! transactionId = Some transaction →
    isCredit (tx_paymentType transaction) = true →
    0 < Schedule.totalPrincipal (remainingTotals (tx_items transaction)) →
    (1 ≤ Schedule.totalMonths (originalTotals (tx_items transaction)))%Z →
    MonthlySchedule
      (Schedule.schedulesOf transactionId
         (recalculatePaymentSchedules transactionId s))
      (recalcRemainingWithInterest transaction)
      (Schedule.totalMonths (originalTotals (tx_items transaction))).

(** *** The sale *)

Definition saleTotals (dto : TransactionService.CreateTransactionDto)
    : TransactionService.SaleTotals :=
  let t := aggregate lineQuantity false (TransactionService.ct_items dto) in
  let computedTotal := Schedule.totalPrincipal t in
  let upfrontPayment :=
    JS.or_num (Some (JS.or_num (TransactionService.ct_downPayment dto)
                       (JS.or_num (TransactionService.ct_amountPaid dto) 0))) 0 in
  let remainingPrincipal := JS.max 0 (sub computedTotal upfrontPayment) in
  let percent := effectivePercent t in
  let interestAmount :=
    if isCredit (TransactionService.ct_paymentType dto)
    then mul remainingPrincipal percent else 0 in
  let rwi := add remainingPrincipal interestAmount in
  TransactionService.mkSaleTotals computedTotal percent upfrontPayment rwi
                                  (add upfrontPayment rwi).

(** [paymentsData.reduce((sum, p) => sum + p.amount, 0)]. *)
Definition totalPayments (data : list (string * Qc)) : Qc :=
  foldl (λ sum p, add sum p.2) 0 data.

Definition createChecks (dto : TransactionService.CreateTransactionDto)
    (userId : option Z) (s : Store)
    : TransactionService.Error + list (string * Qc) :=
  let userMissing :=
    match JS.truthy_id userId with
    | Some u => bool_decide (users s !! u = None)
    | None => false
    end in
  if userMissing then inl TransactionService.UserNotFound
  else
    let badUpfrontType :=
      match TransactionService.ct_upfrontPaymentType dto with
      | Some t =>
          bool_decide (t ≠ EmptyString)
            && negb (bool_decide (t ∈ ["CASH"; "CARD"; "TERMINAL"]%string))
      | None => false
      end in
    if badUpfrontType then inl TransactionService.InvalidUpfrontPaymentType
    else
      match TransactionService.ct_payments dto with
      | Some (p :: ps) =>
          let data := TransactionService.paymentsData (p :: ps) in
          let roundedTotal :=
            JS.round (TransactionService.computedTotal (saleTotals dto)) in
          let roundedPayments := JS.round (totalPayments data) in
          if decide (roundedTotal ≠ roundedPayments)
          then inl (TransactionService.PaymentsMismatch roundedTotal roundedPayments)
          else inr data
      | _ => inr []
      end.

Definition persistItem (s : Store) (id : Z)
    (item : TransactionService.TransactionItemDto) : TransactionItem :=
  mkItem id (Some (TransactionService.d_productId item))
         (TransactionService.d_quantity item) (TransactionService.d_price item)
         (Some (JS.or_num (TransactionService.d_sellingPrice item)
                          (TransactionService.d_price item)))
         (Some (JS.or_num (TransactionService.d_originalPrice item)
                          (TransactionService.d_price item)))
         (JS.or_num (TransactionService.d_total item)
                    (mul (TransactionService.d_price item)
                         (JS.num (TransactionService.d_quantity item))))
         (TransactionService.d_creditMonth item)
         (TransactionService.d_creditPercent item) None
         (products s !! TransactionService.d_productId item).

(** [create(createTransactionDto, userId)] up to its return value, as
    [TransactionService.create]; the job it schedules is
    [TransactionService.scheduledBonuses]. *)
Definition create (dto : TransactionService.CreateTransactionDto)
    (userId : option Z) (s : Store)
    : TransactionService.Error + (Transaction * Store) :=
  match createChecks dto userId s with
  | inl e => inl e
  | inr _ =>
      let totals := saleTotals dto in
      let createdByUserId :=
        match userId with
        | Some u => Some u
        | None => TransactionService.ct_userId dto
        end in
      let soldByUserId :=
        match TransactionService.ct_soldByUserId dto with
        | Some u => Some u
        | None => match userId with Some u => Some u | None => createdByUserId end
        end in
      let id := nextId s in
      let items := imap (λ i item, persistItem s (id + 1 + Z.of_nat i)%Z item)
                        (TransactionService.ct_items dto) in
      let transaction :=
        mkTransaction id (TransactionService.ct_type dto)
          (TransactionService.ct_paymentType dto)
          (default MONTHS (TransactionService.ct_termUnit dto))
          (TransactionService.computedTotal totals)
          (TransactionService.finalTotalOnce totals)
          (TransactionService.saleRemainingWithInterest totals)
          (TransactionService.ct_amountPaid dto)
          (TransactionService.ct_downPayment dto) None
          (TransactionService.ct_fromBranchId dto)
          (TransactionService.ct_toBranchId dto)
          (JS.truthy_id createdByUserId) (JS.truthy_id soldByUserId) items in
      let s1 :=
        set_nextId (λ n, n + 1 + Z.of_nat (length items))%Z
          (set_transactions (insert id transaction) s) in
      let downPayment := JS.or_num (TransactionService.ct_downPayment dto) 0 in
      let s2 :=
        if isCredit (tx_paymentType transaction) then
          match tx_termUnit transaction with
          | DAYS => createDailyPaymentSchedule id items downPayment s1
          | MONTHS => createPaymentSchedule id items downPayment s1
          end
        else s1 in
      inr (transaction, TransactionService.updateProductQuantities transaction s2)
  end.

(** *** The payment breakdown, in the words of the specification *)

(** The item total: the prices times the quantities, added up line by
    line. *)
Definition itemTotal (items : list TransactionService.TransactionItemDto) : Qc :=
  foldl (λ sum item,
           add sum (mul (TransactionService.d_price item)
                        (JS.num (TransactionService.d_quantity item))))
        0 items.

(** An entry of the breakdown counts when its amount is positive and its
    method, in upper case, is one of the four the service knows. *)
Definition accepted (p : TransactionService.PaymentBreakdownDto) : Prop :=
  0 < JS.or_num (TransactionService.pb_amount p) 0
  ∧ TransactionService.toUpperCase
      (default EmptyString (TransactionService.pb_method p))
    ∈ ["CASH"; "CARD"; "TERMINAL"; "TOVAR"]%string.

#[global] Instance accepted_dec p : Decision (accepted p).
Proof. unfold accepted. apply _. Defined.

(** The sum of the amounts of the entries that count, in the order of the
    breakdown. *)
Definition acceptedSum (payments : list TransactionService.PaymentBreakdownDto)
    : Qc :=
  foldl (λ sum p,
           if decide (accepted p)
           then add sum (JS.or_num (TransactionService.pb_amount p) 0) else sum)
        0 payments.

(** The sum of the amounts of all the entries, as they were supplied. *)
Definition suppliedSum (payments : list TransactionService.PaymentBreakdownDto)
    : Qc :=
  foldl (λ sum p, add sum (JS.or_num (TransactionService.pb_amount p) 0)) 0 payments.

End Arithmetic.

End Rounded.

(** ** The bonus records of a sale, in the words of the specification *)

Module BonusSpec.

Local Open Scope Qc_scope.

Section Sale.

Variables (branchRate globalRate : Qc) (transaction : Transaction)
          (soldByUserId : Z) (seller : User) (s : Store).

Definition rate : Qc := TransactionService.usdToSomRate branchRate globalRate.

(** The giveaways recorded for the sale when the calculator starts. *)
Definition recorded : list TransactionBonusProduct :=
  filter (λ bp, bp_transactionId bp = tx_id transaction) (transactionBonusProducts s).

(** Their value, and the store once the fallback has recorded the
    zero-price lines. *)
Definition giveawayValue : Qc :=
  (TransactionService.bonusProductsValue rate transaction recorded s).1.

Definition afterGiveaways : Store :=
  (TransactionService.bonusProductsValue rate transaction recorded s).2.

(** The contributing lines: the lines sold above cost, of a product with a
    bonus percentage. *)
Definition contributing : list TransactionService.ItemDiff :=
  filter (λ d, 0 < TransactionService.df_priceDifference d)
         (TransactionService.itemDiffOf rate afterGiveaways <$> tx_items transaction).

(** The markup of the sale: the price differences of the contributing
    lines. *)
Definition markup : Qc :=
  foldr Qcplus 0 (TransactionService.df_priceDifference <$> contributing).

(** The pool the lines share: the markup less the giveaways, both rounded,
    never negative. *)
Definition pool : Qc := JS.max 0 (JS.roundN markup - JS.roundN giveawayValue).

(** The branch the records are filed under. *)
Definition branchContext : option Z :=
  match JS.truthy_id (tx_fromBranchId transaction) with
  | Some b => Some b
  | None =>
      match JS.truthy_id (tx_toBranchId transaction) with
      | Some b => Some b
      | None => JS.truthy_id (u_branchId seller)
      end
  end.

(** The bonus of a contributing line, and its record. *)
Definition lineAmount (d : TransactionService.ItemDiff) : Qc :=
  TransactionService.bonusAmountOf markup pool d.

Definition lineBonus (d : TransactionService.ItemDiff) : Bonus :=
  mkBonus soldByUserId branchContext (lineAmount d) SALES_BONUS
          (TransactionService.snapshot rate afterGiveaways recorded)
          (tx_id transaction).

(** One record per contributing line whose bonus is positive, in the order
    of the lines. *)
Definition lineBonuses : list Bonus :=
  lineBonus <$> filter (λ d, 0 < lineAmount d) contributing.

End Sale.

End BonusSpec.

(** * Properties *)

(** ** JavaScript helpers *)

Section JSFacts.

Local Open Scope Qc_scope.

Lemma js_max_0_0 : JS.max 0 0 = 0.
Proof. reflexivity. Qed.

Lemma js_max_0_nonneg (x : Qc) : 0 ≤ JS.max 0 x.
Proof.
  unfold JS.max. case_decide as H.
  - by apply Qclt_le_weak.
  - apply Qcle_refl.
Qed.

Lemma js_max_0_of_nonneg (x : Qc) : 0 ≤ x → JS.max 0 x = x.
Proof.
  intros Hx. unfold JS.max. case_decide as H; [done|].
apply Qcle_antisym; [done | by apply Qcnot_lt_le].
Qed.

Lemma js_max_0_of_nonpos (x : Qc) : x ≤ 0 → JS.max 0 x = 0.
Proof.
  intros Hx. unfold JS.max. case_decide as H; [|done].
  exfalso. by apply (Qcle_not_lt _ _ Hx).
Qed.

Lemma Qcminus_diag (x : Qc) : x - x = 0.
Proof. ring. Qed.

Lemma truthy_id_Some (x : option Z) (v : Z) :
  JS.truthy_id x = Some v ↔ x = Some v ∧ v ≠ 0%Z.
Proof.
  unfold JS.truthy_id. destruct x as [w|]; [|naive_solver].
  case_decide; naive_solver.
Qed.

Lemma truthy_num_spec (x : option Qc) :
  JS.truthy_num x = true ↔ ∃ c, x = Some c ∧ c ≠ 0.
Proof.
  unfold JS.truthy_num. destruct x as [c|].
  - rewrite bool_decide_eq_true. naive_solver.
  - naive_solver.
Qed.

Lemma or_num_truthy (x : option Qc) (c d : Qc) :
  x = Some c → c ≠ 0 → JS.or_num x d = c.
Proof. intros -> Hc. unfold JS.or_num. by case_decide. Qed.

End JSFacts.

(** ** Schedule engine: the aggregation loops *)

Section Aggregation.

Local Open Scope Qc_scope.
Import Schedule BlendedRateSpec.

Context `{CreditLine A}.

(** The three money accumulators after a loop, started from any state. *)
Lemma foldl_accumulate_sums (months : bool) (items : list A) (acc : Totals) :
  let t := foldl (accumulate lineQuantity months) acc items in
  totalPrincipal t = totalPrincipal acc + sumPrincipal items
  ∧ weightedPercentSum t = weightedPercentSum acc + sumWeighted items
  ∧ percentWeightBase t = percentWeightBase acc + sumWeightBase items.
Proof.
  revert acc. induction items as [|item items IH]; intros acc.
  - cbn. split; [|split]; ring.
  - cbn [foldl]. destruct (IH (accumulate lineQuantity months acc item))
      as (IH1 & IH2 & IH3).
    cbv zeta in *. rewrite IH1, IH2, IH3. clear IH IH1 IH2 IH3.
    unfold sumPrincipal, sumWeighted, sumWeightBase, sumQc.
    rewrite fmap_cons. cbn [foldr].
    unfold accumulate. fold (principal item).
    destruct (JS.truthy_num (lineCreditPercent item)) eqn:Hp.
    + apply truthy_num_spec in Hp as Hp'. destruct Hp' as (c & Hc & Hc0).
      rewrite filter_cons_True by (exists c; done).
      rewrite !fmap_cons. cbn [foldr].
      rewrite (or_num_truthy _ c 0 Hc Hc0), Hc. cbn [default]. unfold id.
      destruct (months && JS.truthy_int (lineCreditMonth item));
        cbn [totalPrincipal weightedPercentSum percentWeightBase];
        (split; [|split]); ring.
    + rewrite filter_cons_False.
      2:{ intros Hhas. apply truthy_num_spec in Hhas. congruence. }
      destruct (months && JS.truthy_int (lineCreditMonth item));
        cbn [totalPrincipal weightedPercentSum percentWeightBase];
        (split; [|split]); ring.
Qed.

Lemma aggregate_sums (months : bool) (items : list A) :
  let t := aggregate lineQuantity months items in
  totalPrincipal t = sumPrincipal items
  ∧ weightedPercentSum t = sumWeighted items
  ∧ percentWeightBase t = sumWeightBase items.
Proof.
  destruct (foldl_accumulate_sums months items totals0) as (H1 & H2 & H3).
  cbv zeta in *. unfold aggregate. rewrite H1, H2, H3. cbn.
  (split; [|split]); ring.
Qed.

(** C5.  The blended rate of schedule generation is the principal-weighted
    average of the creditPercent of the lines that have one: the numerator is
    the sum of principal times creditPercent and the denominator the sum of
    principal over the lines whose creditPercent is set (present and not 0),
    while the total principal sums every line.  When no principal carries a
    percent the rate is 0.  The statement covers the loop of
    [createPaymentSchedule] ([months = true]) and the one of [create]
    ([months = false]). *)
Theorem blended_rate_weighted_average (months : bool) (items : list A) :
  let t := aggregate lineQuantity months items in
  totalPrincipal t = sumPrincipal items
  ∧ (0 < sumWeightBase items →
     effectivePercent t = sumWeighted items / sumWeightBase items)
  ∧ (sumWeightBase items = 0 → effectivePercent t = 0).
Proof.
  destruct (aggregate_sums months items) as (H1 & H2 & H3). cbv zeta in *.
  split; [done|]. unfold effectivePercent. rewrite H2, H3. split.
  - intros Hb. by rewrite decide_True.
  - intros ->. rewrite decide_False; [done|].
    intros Hlt. by apply Qclt_not_eq in Hlt.
Qed.

End Aggregation.

(** The witness of C5: lines of principal 1000 at 10 %, 3000 at 20 % and
    1000 without a percent blend to (100 + 600) / 4000 = 17.5 %, on a total
    principal of 5000. *)
Lemma blended_rate_weighted_average_witness :
  Schedule.totalPrincipal
    (Schedule.aggregate lineQuantity true
       [mkItem 1 (Some 7) 1 (JS.num 1000) None None (JS.num 1000)
               (Some 3) (Some (Q2Qc (1 # 10))) None None;
        mkItem 2 (Some 8) 1 (JS.num 3000) None None (JS.num 3000)
               (Some 6) (Some (Q2Qc (2 # 10))) None None;
        mkItem 3 (Some 9) 2 (JS.num 500) None None (JS.num 1000)
               None (Some 0%Qc) None None])
  = JS.num 5000
  ∧ Schedule.effectivePercent
      (Schedule.aggregate lineQuantity true
         [mkItem 1 (Some 7) 1 (JS.num 1000) None None (JS.num 1000)
                 (Some 3) (Some (Q2Qc (1 # 10))) None None;
          mkItem 2 (Some 8) 1 (JS.num 3000) None None (JS.num 3000)
                 (Some 6) (Some (Q2Qc (2 # 10))) None None;
          mkItem 3 (Some 9) 2 (JS.num 500) None None (JS.num 1000)
                 None (Some 0%Qc) None None])
    = Q2Qc (7 # 40).
Proof.
  destruct (blended_rate_weighted_average true
       [mkItem 1 (Some 7) 1 (JS.num 1000) None None (JS.num 1000)
               (Some 3) (Some (Q2Qc (1 # 10))) None None;
        mkItem 2 (Some 8) 1 (JS.num 3000) None None (JS.num 3000)
               (Some 6) (Some (Q2Qc (2 # 10))) None None;
        mkItem 3 (Some 9) 2 (JS.num 500) None None (JS.num 1000)
               None (Some 0%Qc) None None])
    as (Htotal & Hrate & _).
  rewrite Htotal, Hrate by (vm_compute; reflexivity).
  split; apply Qc_is_canon; vm_compute; reflexivity.
Defined.

(** ** Schedule engine: the month loop *)

Section MonthLoop.

Local Open Scope Qc_scope.
Import Schedule.

Lemma monthLoop_length mk totalMonths monthlyPayment fuel month balance :
  length (monthLoop mk totalMonths monthlyPayment fuel month balance) = fuel.
Proof.
  revert month balance. induction fuel as [|fuel IH]; intros month balance; [done|].
  cbn. by rewrite IH.
Qed.

End MonthLoop.

(** ** Schedule engine: recomputation *)

Section Recalculation.

Local Open Scope Qc_scope.
Import Schedule.

Lemma monthLoop_transactionId transactionId totalMonths monthlyPayment fuel month balance :
  Forall (λ r, ps_transactionId r = transactionId)
         (monthLoop (recalcRow transactionId) totalMonths monthlyPayment fuel month balance).
Proof.
  revert month balance.
  induction fuel as [|fuel IH]; intros month balance; cbn; constructor; [done|apply IH].
Qed.

Lemma filter_all {B} (P : B → Prop) `{∀ x, Decision (P x)} (l : list B) :
  Forall P l → filter P l = l.
Proof.
  induction 1 as [|x l Hx _ IH]; [done|]. by rewrite filter_cons_True, IH.
Qed.

Lemma filter_none {B} (P : B → Prop) `{∀ x, Decision (P x)} (l : list B) :
  Forall (λ x, ¬ P x) l → filter P l = [].
Proof.
  induction 1 as [|x l Hx _ IH]; [done|]. by rewrite filter_cons_False.
Qed.

Lemma filter_filter_neg {B} (P : B → Prop) `{∀ x, Decision (P x)} (l : list B) :
  filter P (filter (λ x, ¬ P x) l) = [].
Proof.
  apply filter_none, Forall_forall. intros x Hx.
  by apply list_elem_of_filter in Hx as [Hx _].
Qed.

(** The rows of a transaction once its old rows are gone, whether or not
    [deleteMany] had anything to delete. *)
Lemma schedules_after_delete transactionId s :
  paymentSchedules
    (if decide (0 < length (schedulesOf transactionId s))%nat
     then deleteSchedules transactionId s else s)
  = filter (λ r, ps_transactionId r ≠ transactionId) (paymentSchedules s).
Proof.
  case_decide as Hlen; [done|].
  symmetry. apply filter_all, Forall_forall. intros r Hr Heq.
  assert (r ∈ schedulesOf transactionId s) as Hin
    by (apply list_elem_of_filter; done).
  destruct (schedulesOf transactionId s); [by apply elem_of_nil in Hin|].
  cbn in Hlen. lia.
Qed.

End Recalculation.

(** Closed facts about the scenario are decided by evaluation. *)
Ltac by_evaluation := apply (bool_decide_unpack _); vm_compute; exact I.

(** ** The two readings of the arithmetic *)

(** The exact model is the model with rounding at the rounding that
    changes nothing. *)
Section Exact.

Lemma exact_monthLoop mk totalMonths monthlyPayment fuel month balance :
  Rounded.monthLoop (λ x, x) mk totalMonths monthlyPayment fuel month balance
  = Schedule.monthLoop mk totalMonths monthlyPayment fuel month balance.
Proof. reflexivity. Qed.

Lemma exact_paymentScheduleRows transactionId items downPayment :
  Rounded.paymentScheduleRows (λ x, x) transactionId items downPayment
  = Schedule.paymentScheduleRows transactionId items downPayment.
Proof. reflexivity. Qed.

Lemma exact_dailyScheduleRows transactionId items downPayment :
  Rounded.dailyScheduleRows (λ x, x) transactionId items downPayment
  = Schedule.dailyScheduleRows transactionId items downPayment.
Proof. reflexivity. Qed.

Lemma exact_recalculatePaymentSchedules transactionId s :
  Rounded.recalculatePaymentSchedules (λ x, x) transactionId s
  = Schedule.recalculatePaymentSchedules transactionId s.
Proof. reflexivity. Qed.

Lemma exact_create dto userId s :
  Rounded.create (λ x, x) dto userId s = TransactionService.create dto userId s.
Proof. reflexivity. Qed.

End Exact.

(** ** Schedule engine with rounding: the month loop *)

Section RoundedLoop.

Local Open Scope Qc_scope.
Import Schedule.

Variable rnd : Qc → Qc.
Variable mk : Z → Qc → Qc → PaymentSchedule.
Hypothesis mk_month : ∀ m p b, ps_month (mk m p b) = m.
Hypothesis mk_payment : ∀ m p b, ps_payment (mk m p b) = p.
Hypothesis mk_balance : ∀ m p b, ps_remainingBalance (mk m p b) = b.
Hypothesis mk_unpaid :
  ∀ m p b, ps_isPaid (mk m p b) = false ∧ ps_paidAmount (mk m p b) = 0.

Lemma rounded_monthLoop_length totalMonths monthlyPayment fuel month balance :
  length (Rounded.monthLoop rnd mk totalMonths monthlyPayment fuel month balance)
  = fuel.
Proof.
  revert month balance. induction fuel as [|fuel IH]; intros month balance; [done|].
  cbn. by rewrite IH.
Qed.

Lemma rounded_monthLoop_months totalMonths monthlyPayment fuel month balance :
  ps_month <$> Rounded.monthLoop rnd mk totalMonths monthlyPayment fuel month balance
  = seqZ month (Z.of_nat fuel).
Proof.
  revert month balance. induction fuel as [|fuel IH]; intros month balance; [done|].
  cbn [Rounded.monthLoop]. rewrite fmap_cons, mk_month, IH.
  rewrite (seqZ_cons month) by lia. do 2 f_equal; lia.
Qed.

Lemma rounded_monthLoop_unpaid totalMonths monthlyPayment fuel month balance :
  Forall (λ r, ps_isPaid r = false ∧ ps_paidAmount r = 0)
         (Rounded.monthLoop rnd mk totalMonths monthlyPayment fuel month balance).
Proof.
  revert month balance.
  induction fuel as [|fuel IH]; intros month balance; cbn; constructor;
    [apply mk_unpaid | apply IH].
Qed.

(** Every row before the last month asks for [monthlyPayment]. *)
Lemma rounded_monthLoop_early totalMonths monthlyPayment fuel month balance i r :
  Rounded.monthLoop rnd mk totalMonths monthlyPayment fuel month balance !! i = Some r →
  (month + Z.of_nat i ≠ totalMonths)%Z →
  ps_payment r = monthlyPayment.
Proof.
  revert month balance i.
  induction fuel as [|fuel IH]; intros month balance i; [done|].
  cbn [Rounded.monthLoop]. destruct i as [|i].
  - cbn. intros [= <-] Hne. rewrite mk_payment. by rewrite decide_False by lia.
  - cbn [lookup list_lookup]. intros Hr Hne. eapply IH; [exact Hr|]. lia.
Qed.

(** The payments of a run that ends on month [totalMonths] add up to the
    balance the run started with and to the rounding errors of its
    subtractions. *)
Lemma rounded_monthLoop_sum totalMonths monthlyPayment fuel month balance :
  (month + Z.of_nat fuel = totalMonths)%Z →
  sumPayments (Rounded.monthLoop rnd mk totalMonths monthlyPayment (S fuel) month balance)
  = balance + Rounded.subtractionDrift rnd monthlyPayment fuel balance.
Proof.
  revert month balance.
  induction fuel as [|fuel IH]; intros month balance Hend.
  - cbn. rewrite mk_payment, decide_True by lia. ring.
  - change (Rounded.monthLoop rnd mk totalMonths monthlyPayment (S (S fuel)) month balance)
      with (mk month
              (if decide (month = totalMonths) then balance else monthlyPayment)
              (JS.max 0 (Rounded.sub rnd balance
                 (if decide (month = totalMonths) then balance else monthlyPayment)))
            :: Rounded.monthLoop rnd mk totalMonths monthlyPayment (S fuel) (month + 1)%Z
                 (Rounded.sub rnd balance
                    (if decide (month = totalMonths) then balance else monthlyPayment))).
    unfold sumPayments in *. rewrite fmap_cons. cbn [foldr].
    rewrite IH by lia. rewrite mk_payment.
    rewrite decide_False by lia. cbn [Rounded.subtractionDrift]. ring.
Qed.

(** The last row of such a run pays the balance the earlier months left
    and has nothing left to pay. *)
Lemma rounded_monthLoop_last totalMonths monthlyPayment fuel month balance :
  rnd 0 = 0 →
  (month + Z.of_nat fuel = totalMonths)%Z →
  ∃ row,
    last (Rounded.monthLoop rnd mk totalMonths monthlyPayment (S fuel) month balance)
    = Some row
    ∧ ps_remainingBalance row = 0
    ∧ ps_payment row = Rounded.balanceAfter rnd monthlyPayment fuel balance.
Proof.
  intros Hzero. revert month balance.
  induction fuel as [|fuel IH]; intros month balance Hend.
  - eexists. split; [reflexivity|].
    rewrite mk_balance, mk_payment, decide_True by lia.
    unfold Rounded.sub. rewrite Qcminus_diag, Hzero. split; [apply js_max_0_0|done].
  - destruct (IH (month + 1)%Z
                (Rounded.sub rnd balance
                   (if decide (month = totalMonths) then balance else monthlyPayment)))
      as (row & Hlast & Hbalance & Hpayment); [lia|].
    exists row. split; [|split; [done|]].
    + rewrite <- Hlast. reflexivity.
    + rewrite Hpayment. by rewrite decide_False by lia.
Qed.


(** The rows of a monthly schedule of at least one month. *)
Lemma monthRows_schedule totalMonths amount :
  (1 ≤ totalMonths)%Z →
  length (Rounded.monthRows rnd mk totalMonths amount) = Z.to_nat totalMonths
  ∧ ps_month <$> Rounded.monthRows rnd mk totalMonths amount = seqZ 1 totalMonths
  ∧ Forall (λ r, ps_isPaid r = false ∧ ps_paidAmount r = 0)
           (Rounded.monthRows rnd mk totalMonths amount)
  ∧ (∀ i r, Rounded.monthRows rnd mk totalMonths amount !! i = Some r →
            (Z.of_nat i < totalMonths - 1)%Z →
            ps_payment r = Rounded.div rnd amount (JS.num totalMonths))
  ∧ sumPayments (Rounded.monthRows rnd mk totalMonths amount)
    = amount
      + Rounded.subtractionDrift rnd (Rounded.div rnd amount (JS.num totalMonths))
          (Z.to_nat totalMonths - 1) amount
  ∧ (rnd 0 = 0 →
     ∃ row,
       last (Rounded.monthRows rnd mk totalMonths amount) = Some row
       ∧ ps_remainingBalance row = 0
       ∧ ps_payment row
         = Rounded.balanceAfter rnd (Rounded.div rnd amount (JS.num totalMonths))
             (Z.to_nat totalMonths - 1) amount).
Proof.
  intros Hterm. unfold Rounded.monthRows.
  split; [apply rounded_monthLoop_length|].
  split; [rewrite rounded_monthLoop_months; f_equal; lia|].
  split; [apply rounded_monthLoop_unpaid|].
  split.
  { intros i r Hr Hi. eapply rounded_monthLoop_early; [exact Hr|]. lia. }
  destruct (Z.to_nat totalMonths) as [|fuel] eqn:Hfuel; [lia|].
  replace (S fuel - 1)%nat with fuel by lia.
  split.
  - apply rounded_monthLoop_sum. lia.
  - intros Hzero. apply rounded_monthLoop_last; [done|lia].
Qed.

End RoundedLoop.

(** ** Schedule engine with rounding: the two generators *)

Section RoundedSchedule.

Local Open Scope Qc_scope.
Import Schedule.

Lemma rounded_monthLoop_transactionId rnd mk transactionId totalMonths monthlyPayment
    fuel month balance :
  (∀ m p b, ps_transactionId (mk m p b) = transactionId) →
  Forall (λ r, ps_transactionId r = transactionId)
         (Rounded.monthLoop rnd mk totalMonths monthlyPayment fuel month balance).
Proof.
  intros Hmk. revert month balance.
  induction fuel as [|fuel IH]; intros month balance; cbn; constructor;
    [apply Hmk | apply IH].
Qed.

(** The principal the aggregation holds is the fold of the rounded
    additions of the rounded products, line by line. *)
Lemma rounded_aggregate_principal `{CreditLine A} rnd (qty : A → Z) (months : bool)
    (items : list A) :
  totalPrincipal (Rounded.aggregate rnd qty months items)
  = foldl (λ sum item,
             Rounded.add rnd sum (Rounded.mul rnd (linePrice item) (JS.num (qty item))))
          0 items.
Proof.
  unfold Rounded.aggregate.
  enough (∀ acc,
            totalPrincipal (foldl (Rounded.accumulate rnd qty months) acc items)
            = foldl (λ sum item,
                       Rounded.add rnd sum
                         (Rounded.mul rnd (linePrice item) (JS.num (qty item))))
                    (totalPrincipal acc) items) as Hgen by apply Hgen.
  induction items as [|item items IH]; intros acc; [done|].
  cbn [foldl]. rewrite IH. f_equal.
  unfold Rounded.accumulate.
  by destruct (JS.truthy_num (lineCreditPercent item)),
    (months && JS.truthy_int (lineCreditMonth item)).
Qed.

Lemma rounded_positive_principal_has_items rnd (items : list TransactionItem) :
  0 < totalPrincipal (Rounded.remainingTotals rnd items) →
  length (remainingItems items) ≠ 0%nat.
Proof.
  unfold Rounded.remainingTotals. destruct (remainingItems items); [|done].
  cbn. intros Hlt. by apply Qclt_not_eq in Hlt.
Qed.

(** What a recomputation that passes its guard leaves in the store. *)
Lemma rounded_recalculate_rows rnd s transactionId transaction :
  transactions s !! transactionId = Some transaction →
  isCredit (tx_paymentType transaction) = true →
  0 < totalPrincipal (Rounded.remainingTotals rnd (tx_items transaction)) →
  (1 ≤ totalMonths (Rounded.originalTotals rnd (tx_items transaction)))%Z →
  schedulesOf transactionId (Rounded.recalculatePaymentSchedules rnd transactionId s)
  = Rounded.recalcRows rnd transactionId transaction
  ∧ paymentSchedules (Rounded.recalculatePaymentSchedules rnd transactionId s)
    = filter (λ r, ps_transactionId r ≠ transactionId) (paymentSchedules s)
      ++ Rounded.recalcRows rnd transactionId transaction
  ∧ transactions (Rounded.recalculatePaymentSchedules rnd transactionId s)
    = alter (setTotals
               (totalPrincipal (Rounded.remainingTotals rnd (tx_items transaction)))
               (Rounded.recalcRemainingWithInterest rnd transaction))
            transactionId (transactions s).
Proof.
  intros Htx Hcredit Hprincipal Hterm.
  unfold Rounded.recalculatePaymentSchedules. rewrite Htx, Hcredit. cbn [negb].
  rewrite decide_False by by apply (rounded_positive_principal_has_items rnd).
  rewrite decide_True by (split; [done|lia]).
  assert (0 < length (Rounded.recalcRows rnd transactionId transaction))%nat as Hrows.
  { unfold Rounded.recalcRows, Rounded.monthRows.
    rewrite rounded_monthLoop_length. lia. }
  rewrite decide_True by done.
  assert (paymentSchedules
            (set_transactions
               (alter (setTotals
                         (totalPrincipal
                            (Rounded.remainingTotals rnd (tx_items transaction)))
                         (Rounded.recalcRemainingWithInterest rnd transaction))
                      transactionId)
               (set_paymentSchedules
                  (λ rows, rows ++ Rounded.recalcRows rnd transactionId transaction)
                  (if decide (0 < length (schedulesOf transactionId s))%nat
                   then deleteSchedules transactionId s else s)))
          = filter (λ r, ps_transactionId r ≠ transactionId) (paymentSchedules s)
            ++ Rounded.recalcRows rnd transactionId transaction) as Hps.
  { cbn [paymentSchedules set_transactions set_paymentSchedules].
    by rewrite schedules_after_delete. }
  split; [|split; [exact Hps|]].
  - unfold schedulesOf at 1. rewrite Hps, filter_app.
    rewrite (filter_filter_neg (λ r, ps_transactionId r = transactionId)).
    rewrite filter_all; [done|].
    by apply rounded_monthLoop_transactionId.
  - cbn [transactions set_transactions set_paymentSchedules].
    by case_decide.
Qed.

(** A monthly schedule is the month loop run on its amount and its term. *)
Lemma MonthlySchedule_rows rnd rows rwi n :
  Rounded.MonthlySchedule rnd rows rwi n →
  (1 ≤ n)%Z
  ∧ ∃ mk,
      rows = Rounded.monthRows rnd mk n rwi
      ∧ (∀ m p b, ps_month (mk m p b) = m)
      ∧ (∀ m p b, ps_payment (mk m p b) = p)
      ∧ (∀ m p b, ps_remainingBalance (mk m p b) = b)
      ∧ (∀ m p b, ps_isPaid (mk m p b) = false ∧ ps_paidAmount (mk m p b) = 0).
Proof.
  destruct 1 as [transactionId items downPayment t Hprincipal Hterm
                |s transactionId transaction Htx Hcredit Hprincipal Hterm].
  - split; [done|]. exists (saleRow transactionId (totalMonths t)).
    split; [|done]. unfold Rounded.paymentScheduleRows. fold t.
    by rewrite decide_True by (split; [done|lia]).
  - split; [done|]. exists (recalcRow transactionId). split; [|done].
    by destruct (rounded_recalculate_rows rnd s transactionId transaction)
      as [-> _].
Qed.




(** The rounding [Binary64.nearest] against the machine: the payments of
    the month loop of that schedule, and of the schedule of 1,100,000 over 3
    months, computed on the numbers of the machine, are the payments of the
    model; so are the products 1.15 * 10 and 1.005 * 100 and the sum
    0.1 + 0.2. *)
Lemma nearest_is_the_rounding_of_the_machine :
  Binary64.toQc
    <$> Binary64.machinePayments 6
          (PrimFloat.div (Binary64.ofInt 110) (Binary64.ofInt 6)) 6 1
          (Binary64.ofInt 110)
  = (Some ∘ ps_payment)
      <$> Rounded.monthRows Binary64.nearest (saleRow 1 6) 6 (JS.num 110)
  ∧ Binary64.toQc
      <$> Binary64.machinePayments 3
            (PrimFloat.div (Binary64.ofInt 1100000) (Binary64.ofInt 3)) 3 1
            (Binary64.ofInt 1100000)
    = (Some ∘ ps_payment)
        <$> Rounded.monthRows Binary64.nearest (saleRow 1 3) 3 (JS.num 1100000)
  ∧ Binary64.toQc
      (PrimFloat.mul (PrimFloat.div (Binary64.ofInt 115) (Binary64.ofInt 100))
                     (Binary64.ofInt 10))
    = Some (Rounded.mul Binary64.nearest
              (Rounded.div Binary64.nearest (JS.num 115) (JS.num 100)) (JS.num 10))
  ∧ Binary64.toQc
      (PrimFloat.add (PrimFloat.div (Binary64.ofInt 1) (Binary64.ofInt 10))
                     (PrimFloat.div (Binary64.ofInt 2) (Binary64.ofInt 10)))
    = Some (Rounded.add Binary64.nearest
              (Rounded.div Binary64.nearest (JS.num 1) (JS.num 10))
              (Rounded.div Binary64.nearest (JS.num 2) (JS.num 10)))
  ∧ Binary64.toQc
      (PrimFloat.mul (PrimFloat.div (Binary64.ofInt 1005) (Binary64.ofInt 1000))
                     (Binary64.ofInt 100))
    = Some (Rounded.mul Binary64.nearest
              (Rounded.div Binary64.nearest (JS.num 1005) (JS.num 1000)) (JS.num 100)).
Proof. repeat split; by_evaluation. Qed.

End RoundedSchedule.

Section RecalculationAfterReturn.

Local Open Scope Qc_scope.
Import Schedule BlendedRateSpec.

Lemma originalQuantity_is_quantity (item : TransactionItem) :
  originalQuantity item = it_quantity item.
Proof. unfold originalQuantity. case_decide; lia. Qed.

Lemma foldl_accumulate_original (months : bool) (items : list TransactionItem)
    (acc : Totals) :
  foldl (accumulate originalQuantity months) acc items
  = foldl (accumulate lineQuantity months) acc items.
Proof.
  revert acc. induction items as [|item items IH]; intros acc; [done|].
  cbn [foldl]. rewrite IH. f_equal.
  unfold accumulate. by rewrite originalQuantity_is_quantity.
Qed.

Lemma num_0 : JS.num 0 = 0.
Proof. by apply Qc_is_canon. Qed.

(** Lines without units add nothing to a principal. *)
Lemma sumPrincipal_remaining (items : list TransactionItem) :
  Forall (λ item, (0 ≤ it_quantity item)%Z) items →
  sumPrincipal (remainingItems items) = sumPrincipal items.
Proof.
  unfold sumPrincipal, sumQc, remainingItems.
  induction 1 as [|item items Hq _ IH]; [done|].
  rewrite fmap_cons. cbn [foldr]. rewrite <- IH.
  destruct (decide (0 < it_quantity item)%Z) as [Hpos|Hzero].
  - by rewrite filter_cons_True.
  - rewrite filter_cons_False by done.
    assert (it_quantity item = 0%Z) as Hq0 by lia.
    unfold principal. cbn [lineQuantity TransactionItem_line].
    rewrite Hq0, num_0. ring.
Qed.

(** The "original" principal of the recomputation is read from the current
    quantities, so it is the remaining principal. *)
Lemma original_principal_is_remaining (items : list TransactionItem) :
  Forall (λ item, (0 ≤ it_quantity item)%Z) items →
  totalPrincipal (originalTotals items) = totalPrincipal (remainingTotals items).
Proof.
  intros Hq. unfold originalTotals, remainingTotals.
  replace (aggregate originalQuantity true items)
    with (aggregate lineQuantity true items)
    by (symmetry; apply foldl_accumulate_original).
  destruct (aggregate_sums true items) as [-> _].
  destruct (aggregate_sums false (remainingItems items)) as [-> _].
  by rewrite sumPrincipal_remaining.
Qed.

(** Hence the recomputation applies the whole original upfront payment. *)
Lemma proportionalUpfront_unscaled (transaction : Transaction) :
  Forall (λ item, (0 ≤ it_quantity item)%Z) (tx_items transaction) →
  0 < totalPrincipal (remainingTotals (tx_items transaction)) →
  proportionalUpfront transaction = JS.or_num (tx_amountPaid transaction) 0.
Proof.
  intros Hq Hpos. unfold proportionalUpfront, upfrontRatio.
  rewrite original_principal_is_remaining by done.
  rewrite decide_True by done.
  unfold Qcdiv. rewrite Qcmult_inv_r; [ring|].
  intros Heq. rewrite Heq in Hpos. by apply Qclt_not_eq in Hpos.
Qed.

(** C1 (defect of the code).  A credit sale of two units, principal 2000
    with 300 paid upfront, of which one unit is returned: the principal
    falls from 2000 to 1000, so the upfront payment applied to the new
    schedule should be 300 * (1000 / 2000) = 150; the recomputation applies
    300, because its "original" principal is read from the quantities after
    the return, and stores a finalTotal of 770. *)
Theorem upfront_not_rescaled_after_partial_return :
  ∃ before after,
    transactions Scenario.afterSale !! 1%Z = Some before
    ∧ Scenario.afterReturn 1 ≫= (λ s, transactions s !! 1%Z) = Some after
    ∧ tx_total before = JS.num 2000
    ∧ tx_total after = JS.num 1000
    ∧ tx_amountPaid after = Some (JS.num 300)
    ∧ proportionalUpfront after = JS.num 300
    ∧ JS.num 300 * (JS.num 1000 / JS.num 2000) = JS.num 150
    ∧ tx_finalTotal after = JS.num 770.
Proof.
  eexists _, _. split; [vm_compute; reflexivity|].
  split; [vm_compute; reflexivity|].
  repeat split; by_evaluation.
Qed.

(** C9, as the code has it.  Recomputing the schedule of a credit or
    installment transaction whose lines all have quantity 0 deletes the
    stored schedule rows of the transaction and creates none; the rows of
    other transactions and every stored transaction, hence total and
    finalTotal, are unchanged. *)
Theorem recalculate_without_remaining_items (s : Store) (transactionId : Z)
    (transaction : Transaction) :
  transactions s !! transactionId = Some transaction →
  isCredit (tx_paymentType transaction) = true →
  Forall (λ item, it_quantity item = 0%Z) (tx_items transaction) →
  let s' := recalculatePaymentSchedules transactionId s in
  schedulesOf transactionId s' = []
  ∧ paymentSchedules s'
    = filter (λ r, ps_transactionId r ≠ transactionId) (paymentSchedules s)
  ∧ transactions s' = transactions s.
Proof.
  intros Htx Hcredit Hzero s'. subst s'.
  unfold recalculatePaymentSchedules. rewrite Htx, Hcredit. cbn [negb].
  assert (remainingItems (tx_items transaction) = []) as ->.
  { apply filter_none. eapply Forall_impl; [exact Hzero|]. cbn. intros; lia. }
  rewrite decide_True by done.
  split; [|split].
  - unfold schedulesOf at 1. rewrite schedules_after_delete.
    apply (filter_filter_neg (λ r, ps_transactionId r = transactionId)).
  - apply schedules_after_delete.
  - by case_decide.
Qed.

Lemma recalculate_without_remaining_items_witness :
  ∃ s transaction,
    Scenario.afterFullReturnWrite = Some s
    ∧ transactions s !! 1%Z = Some transaction
    ∧ schedulesOf 1 (recalculatePaymentSchedules 1 s) = []
    ∧ paymentSchedules (recalculatePaymentSchedules 1 s)
      = filter (λ r, ps_transactionId r ≠ 1%Z) (paymentSchedules s)
    ∧ transactions (recalculatePaymentSchedules 1 s) = transactions s.
Proof.
  eexists _, _. split; [vm_compute; reflexivity|].
  split; [vm_compute; reflexivity|].
  eapply (recalculate_without_remaining_items _ 1%Z).
  - vm_compute; reflexivity.
  - reflexivity.
  - repeat constructor.
Defined.

(** C9 as stated fails: after the return of both units every line of the
    transaction has quantity 0, the transaction still holds its three
    schedule rows, and the recomputation removes them. *)
Lemma recalculate_without_remaining_items_deletes_rows :
  ∃ s transaction,
    Scenario.afterFullReturnWrite = Some s
    ∧ transactions s !! 1%Z = Some transaction
    ∧ isCredit (tx_paymentType transaction) = true
    ∧ Forall (λ item, it_quantity item = 0%Z) (tx_items transaction)
    ∧ length (paymentSchedules s) = 3%nat
    ∧ paymentSchedules (recalculatePaymentSchedules 1 s) ≠ paymentSchedules s.
Proof.
  eexists _, _. split; [vm_compute; reflexivity|].
  split; [vm_compute; reflexivity|].
  split; [reflexivity|]. split; [repeat constructor|].
  split; [reflexivity|].
  intros Heq. apply (f_equal length) in Heq. vm_compute in Heq. discriminate.
Qed.

End RecalculationAfterReturn.

(** ** Post-sale adjustments: what each step leaves alone *)

Section Frames.

Local Open Scope Qc_scope.
Import DefectiveLogService Ledger.

Lemma sameLedger_refl s : sameLedger s s.
Proof. done. Qed.

Lemma sameLedger_trans s1 s2 s3 :
  sameLedger s1 s2 → sameLedger s2 s3 → sameLedger s1 s3.
Proof. intros [? ?] [? ?]. split; congruence. Qed.

Lemma sameStock_trans s1 s2 s3 :
  sameStock s1 s2 → sameStock s2 s3 → sameStock s1 s3.
Proof. intros [? ?] [? ?]. split; congruence. Qed.

Lemma recalculate_sameLedger transactionId s :
  sameLedger s (Schedule.recalculatePaymentSchedules transactionId s).
Proof.
  unfold Schedule.recalculatePaymentSchedules.
  repeat (case_match || case_decide); done.
Qed.

Lemma recalculate_sameStock transactionId s :
  sameStock s (Schedule.recalculatePaymentSchedules transactionId s).
Proof.
  unfold Schedule.recalculatePaymentSchedules.
  repeat (case_match || case_decide); done.
Qed.

Lemma reduceLine_sameLedger transactionId orig quantity s :
  sameLedger s (reduceLine transactionId orig quantity s).
Proof. unfold reduceLine. by case_decide. Qed.

Lemma reduceLine_sameStock transactionId orig quantity s :
  sameStock s (reduceLine transactionId orig quantity s).
Proof. unfold reduceLine. by case_decide. Qed.

Lemma foldl_restockOne_frame rows s :
  let s' := foldl restockOne s rows in
  sameLedger s s'
  ∧ transactionBonusProducts s' = transactionBonusProducts s
  ∧ transactions s' = transactions s
  ∧ products s' = restockProducts rows (products s).
Proof.
  revert s. induction rows as [|bp rows IH]; intros s; [done|].
  cbn [foldl]. destruct (IH (restockOne s bp)) as ((Hb & Hl) & Ht & Htx & Hp).
  cbv zeta. unfold sameLedger.
  split; [split|split; [|split]];
    [rewrite Hb | rewrite Hl | rewrite Ht | rewrite Htx | rewrite Hp]; done.
Qed.

Lemma restockBonusProducts_sameLedger transactionId s :
  sameLedger s (restockBonusProducts transactionId s).
Proof.
  unfold restockBonusProducts. case_decide; [|done].
  destruct (foldl_restockOne_frame (bonusProductsOf transactionId s) s)
    as (Hl & _). exact Hl.
Qed.

Lemma reverseBonuses_sameLedger tx orig quantity s :
  sameLedger s (reverseBonuses tx orig quantity s).
Proof. apply (restockBonusProducts_sameLedger (tx_id tx) s). Qed.

Lemma exchangeStep_sameLedger dto transactionId s s' :
  exchangeStep dto transactionId s = inr s' → sameLedger s s'.
Proof.
  unfold exchangeStep. intros Hstep.
  repeat (case_match || case_decide); simplify_eq; done.
Qed.

Lemma linkedSaleStep_sameLedger dto actionType s s' recalc :
  linkedSaleStep dto actionType s = inr (s', recalc) → sameLedger s s'.
Proof.
  unfold linkedSaleStep. intros Hstep.
  destruct (linkedTransaction dto) as [transactionId|]; [|by simplify_eq].
  destruct (transactions s !! transactionId) as [tx|]; [|by simplify_eq].
  destruct (List.find _ (tx_items tx)) as [orig|]; [|by simplify_eq].
  destruct (decide (it_quantity orig < dto_quantity dto)%Z); [done|].
  pose proof (reduceLine_sameLedger (tx_id tx) orig (dto_quantity dto) s) as Hline.
  pose proof (reverseBonuses_sameLedger tx orig (dto_quantity dto)
                (reduceLine (tx_id tx) orig (dto_quantity dto) s)) as Hrev.
  destruct (decide (actionType = ActRETURN ∨ actionType = ActEXCHANGE));
    destruct (decide (actionType = ActRETURN));
    destruct (decide (actionType = ActEXCHANGE));
    try (destruct (exchangeStep _ _ _) as [|s2] eqn:Hex; [done|];
         apply exchangeStep_sameLedger in Hex);
    simplify_eq; eauto using sameLedger_trans, sameLedger_refl.
Qed.

End Frames.

(** ** Post-sale adjustments: cash *)

Section Cash.

Local Open Scope Qc_scope.
Import DefectiveLogService Ledger.

(** The atomic write appends the log and credits the branch with the very
    amount the log records. *)
Lemma transactionBody_cash dto actionType e s log s' recalc branchId branch :
  JS.truthy_id (dto_branchId dto) = Some branchId →
  branches s !! branchId = Some branch →
  transactionBody dto actionType e s = inr (log, s', recalc) →
  defectiveLogs s' = defectiveLogs s ++ [log]
  ∧ branches s' !! branchId
    = Some (mkBranch (br_cashBalance branch + dl_cashAmount log)).
Proof.
  intros Hid Hbranch. unfold transactionBody. rewrite Hid.
  destruct (linkedSaleStep _ _ _) as [|[s3 r]] eqn:Hstep; [done|].
  intros [= <- <- <-].
  apply linkedSaleStep_sameLedger in Hstep as [Hb Hl].
  cbn in Hb, Hl. cbn. rewrite Hb, Hl. split; [done|].
  by rewrite lookup_alter_eq, Hbranch.
Qed.

(** C10.  When a DEFECTIVE, FIXED, RETURN or EXCHANGE action completes with
    a branchId supplied, the created log is appended to the audit log and
    the cashBalance of the branch grows by exactly the cashAmount persisted
    on that log. *)
Theorem cash_log_matches_ledger dto s log s' branchId :
  dto_branchId dto = Some branchId →
  branchId ≠ 0%Z →
  create dto s = inr (log, s') →
  defectiveLogs s' = defectiveLogs s ++ [log]
  ∧ ∃ branch,
      branches s !! branchId = Some branch
      ∧ branches s' !! branchId
        = Some (mkBranch (br_cashBalance branch + dl_cashAmount log)).
Proof.
  intros Hdto Hnz. unfold create.
  assert (JS.truthy_id (dto_branchId dto) = Some branchId) as Hid
    by by apply truthy_id_Some.
  rewrite Hid.
  destruct (products s !! dto_productId dto) as [product|]; [|done].
  destruct (branches s !! branchId) as [branch|] eqn:Hbranch; [|done].
  rewrite bool_decide_eq_false_2 by done.
  destruct (_ && _); [done|].
  destruct (effects _ _ _ _) as [e|]; [|done].
  destruct (transactionBody _ _ _ _) as [|[[result s1] recalc]] eqn:Hbody; [done|].
  destruct (transactionBody_cash _ _ _ _ _ _ _ _ _ Hid Hbranch Hbody) as [Hlog Hcash].
  destruct (JS.truthy_id recalc) as [recalcForTxId|]; intros [= <- <-].
  - destruct (recalculate_sameLedger recalcForTxId s1) as [-> ->]. eauto.
  - eauto.
Qed.

(** The witness of C10: the return of one unit in the scenario refunds
    1450 and the balance of branch 1 falls by 1450. *)
Lemma cash_log_matches_ledger_witness :
  ∃ log s',
    create (Scenario.returnDto 1) Scenario.afterSale = inr (log, s')
    ∧ dl_cashAmount log = - JS.num 1450
    ∧ defectiveLogs s' = defectiveLogs Scenario.afterSale ++ [log]
    ∧ ∃ branch,
        branches Scenario.afterSale !! 1%Z = Some branch
        ∧ branches s' !! 1%Z
          = Some (mkBranch (br_cashBalance branch + dl_cashAmount log)).
Proof.
  eexists _, _. split; [vm_compute; reflexivity|].
  split; [by_evaluation|].
  apply (cash_log_matches_ledger (Scenario.returnDto 1) Scenario.afterSale _ _ 1%Z);
    [reflexivity | lia | vm_compute; reflexivity].
Defined.

End Cash.

(** ** Post-sale adjustments: restock of the giveaways *)

Section Restock.

Local Open Scope Z_scope.
Import DefectiveLogService Ledger.

Lemma wf_store_transactions s s' :
  transactions s' = transactions s → wf_store s → wf_store s'.
Proof. unfold wf_store. by intros ->. Qed.

Lemma wf_store_alter f k s :
  (∀ t, tx_id (f t) = tx_id t) →
  wf_store s → wf_store (set_transactions (alter f k) s).
Proof.
  intros Hf Hwf k' t. cbn. rewrite lookup_alter.
  case_decide as Hk; [|by apply Hwf]. subst k'.
  destruct (transactions s !! k) as [t0|] eqn:Ht0; [|done].
  intros [= <-]. rewrite Hf. by apply Hwf.
Qed.

Lemma incrementQuantity_0 p : incrementQuantity 0 p = p.
Proof.
  destruct p. unfold incrementQuantity, setQuantity. cbn. f_equal. lia.
Qed.

Lemma incrementQuantity_add a b p :
  incrementQuantity b (incrementQuantity a p) = incrementQuantity (a + b) p.
Proof.
  destruct p. unfold incrementQuantity, setQuantity. cbn. f_equal. lia.
Qed.

(** Each product receives the units its join rows name, once per row. *)
Lemma restockProducts_lookup rows ps productId :
  restockProducts rows ps !! productId
  = incrementQuantity (givenAway rows productId) <$> ps !! productId.
Proof.
  revert ps. induction rows as [|bp rows IH]; intros ps.
  - cbn. destruct (ps !! productId); [|done]. cbn. by rewrite incrementQuantity_0.
  - unfold restockProducts in *. cbn [foldl]. rewrite IH, lookup_alter.
    unfold givenAway.
    destruct (decide (bp_productId bp = productId)) as [Heq|Hne].
    + rewrite filter_cons_True by done. rewrite fmap_cons. cbn [foldr].
      fold (givenAway rows productId). rewrite Heq.
      destruct (ps !! productId); [|done]. cbn.
      by rewrite incrementQuantity_add.
    + by rewrite filter_cons_False by done.
Qed.

Lemma restockBonusProducts_spec transactionId s :
  let s' := restockBonusProducts transactionId s in
  products s' = restockProducts (bonusProductsOf transactionId s) (products s)
  ∧ transactionBonusProducts s'
    = filter (λ bp, bp_transactionId bp ≠ transactionId) (transactionBonusProducts s)
  ∧ transactions s' = transactions s.
Proof.
  unfold restockBonusProducts. case_decide as Hlen.
  - destruct (foldl_restockOne_frame (bonusProductsOf transactionId s) s)
      as (_ & Ht & Htx & Hp).
    cbn. by rewrite Ht, Htx, Hp.
  - destruct (bonusProductsOf transactionId s) eqn:Hrows; [|cbn in Hlen; lia].
    cbn. split; [done|]. split; [|done].
    symmetry. apply filter_all, Forall_forall. intros bp Hbp Heq.
    assert (bp ∈ bonusProductsOf transactionId s) as Hin
      by (apply list_elem_of_filter; done).
    rewrite Hrows in Hin. by apply elem_of_nil in Hin.
Qed.


(** The linked-sale step of a RETURN: its effect on the stock. *)
Lemma linkedSaleStep_return dto s s' recalc :
  wf_store s →
  linkedSaleStep dto ActRETURN s = inr (s', recalc) →
  wf_store s'
  ∧ ∃ rows,
      products s' = restockProducts rows (products s)
      ∧ (rows = []
         ∨ ∃ transactionId,
             linkedTransaction dto = Some transactionId
             ∧ rows = bonusProductsOf transactionId s)
      ∧ (rows = [] → transactionBonusProducts s' = transactionBonusProducts s)
      ∧ ∀ transactionId tx,
          linkedTransaction dto = Some transactionId →
          transactions s !! transactionId = Some tx →
          is_Some (List.find
                     (λ i, bool_decide (it_productId i = Some (dto_productId dto)))
                     (tx_items tx)) →
          rows = bonusProductsOf transactionId s
          ∧ transactionBonusProducts s'
            = filter (λ bp, bp_transactionId bp ≠ transactionId)
                     (transactionBonusProducts s).
Proof.
  intros Hwf. unfold linkedSaleStep.
  destruct (linkedTransaction dto) as [transactionId|]; cycle 1.
  { intros [= <- <-]. split; [done|]. exists []. naive_solver. }
  destruct (transactions s !! transactionId) as [tx|] eqn:Htx; cycle 1.
  { intros [= <- <-]. split; [done|]. exists []. naive_solver. }
  destruct (List.find _ (tx_items tx)) as [orig|] eqn:Hfind; cycle 1.
  { intros [= <- <-]. split; [done|]. exists [].
    split; [done|]. split; [by left|]. split; [done|].
    intros tid t [= <-] Ht [o Ho]. simplify_eq. }
  destruct (decide (it_quantity orig < dto_quantity dto)); [done|].
  destruct (decide (ActRETURN = ActRETURN ∨ ActRETURN = ActEXCHANGE)) as [_|[]];
    [|by left].
  destruct (decide (ActRETURN = ActRETURN)) as [_|[]]; [|done].
  destruct (decide (ActRETURN = ActEXCHANGE)) as [?|_]; [done|].
  intros [= <- <-].
  pose proof (Hwf _ _ Htx) as Hid. unfold reverseBonuses. rewrite Hid.
  set (s1 := reduceLine transactionId orig (dto_quantity dto) s).
  destruct (reduceLine_sameStock transactionId orig (dto_quantity dto) s)
    as [Hp1 Ht1]. fold s1 in Hp1, Ht1.
  destruct (restockBonusProducts_spec transactionId s1) as (Hp & Ht & Htxs).
  cbv zeta in Hp, Ht, Htxs.
  assert (bonusProductsOf transactionId s1 = bonusProductsOf transactionId s) as Hrows
    by (unfold bonusProductsOf; by rewrite Ht1).
  split.
  - apply wf_store_alter; [done|].
    apply (wf_store_transactions (restockBonusProducts transactionId s1)); [done|].
    apply (wf_store_transactions s1); [done|].
    unfold s1, reduceLine, updateItem. case_decide; by apply wf_store_alter.
  - exists (bonusProductsOf transactionId s).
    cbn [products transactionBonusProducts set_transactions set_bonuses].
    rewrite Hp, Ht, Hrows, Hp1, Ht1.
    split; [done|]. split; [eauto|]. split.
    + intros Hnil. apply filter_all, Forall_forall. intros bp Hbp Heq.
      assert (bp ∈ bonusProductsOf transactionId s) as Hin
        by (apply list_elem_of_filter; done).
      rewrite Hnil in Hin. by apply elem_of_nil in Hin.
    + by intros ? ? [= <-] _ _.
Qed.

Lemma recalculate_wf transactionId s :
  wf_store s → wf_store (Schedule.recalculatePaymentSchedules transactionId s).
Proof.
  intros Hwf. unfold Schedule.recalculatePaymentSchedules.
  repeat (case_match || case_decide); try done;
    try (apply wf_store_alter; [done|]);
    by eapply wf_store_transactions; [|exact Hwf].
Qed.

(** A completed RETURN: the returned product is updated, the giveaways of
    [rows] are restocked, and nothing else touches the stock. *)
Lemma create_return dto s log s' :
  wf_store s →
  dto_actionType dto = Some ActRETURN →
  create dto s = inr (log, s') →
  wf_store s'
  ∧ ∃ product e rows,
      products s !! dto_productId dto = Some product
      ∧ newQuantity e = p_quantity product + dto_quantity dto
      ∧ products s'
        = restockProducts rows
            (alter (applyEffects e) (dto_productId dto) (products s))
      ∧ (rows = []
         ∨ ∃ transactionId,
             linkedTransaction dto = Some transactionId
             ∧ rows = bonusProductsOf transactionId s)
      ∧ (rows = [] → transactionBonusProducts s' = transactionBonusProducts s)
      ∧ ∀ transactionId tx,
          linkedTransaction dto = Some transactionId →
          transactions s !! transactionId = Some tx →
          is_Some (List.find
                     (λ i, bool_decide (it_productId i = Some (dto_productId dto)))
                     (tx_items tx)) →
          rows = bonusProductsOf transactionId s
          ∧ transactionBonusProducts s'
            = filter (λ bp, bp_transactionId bp ≠ transactionId)
                     (transactionBonusProducts s).
Proof.
  intros Hwf Haction. unfold create. rewrite Haction.
  change (default ActDEFECTIVE (Some ActRETURN)) with ActRETURN.
  destruct (products s !! dto_productId dto) as [product|]; [|done].
  destruct (match JS.truthy_id (dto_branchId dto) with
            | Some _ => _ | None => _ end); [done|].
  rewrite bool_decide_eq_false_2 by done. cbn [andb].
  destruct (effects dto ActRETURN product s) as [e|] eqn:He; [|done].
  assert (newQuantity e = p_quantity product + dto_quantity dto) as Hq.
  { cbn in He. by simplify_eq. }
  unfold transactionBody. cbv zeta.
  destruct (linkedSaleStep _ _ _) as [|[s3 r]] eqn:Hstep; [done|].
  apply linkedSaleStep_return in Hstep as (Hwf3 & rows & Hp & Hrows & Hnil & Hlinked);
    [|by eapply wf_store_transactions; [|exact Hwf]].
  cbn [products transactionBonusProducts transactions
       set_products set_defectiveLogs] in Hp, Hnil, Hlinked, Hrows.
  set (s4 := match JS.truthy_id (dto_branchId dto) with
             | Some branchId => _ | None => s3 end).
  assert (products s4 = products s3
          ∧ transactionBonusProducts s4 = transactionBonusProducts s3
          ∧ wf_store s4) as (Hp4 & Ht4 & Hwf4).
  { unfold s4. by destruct (JS.truthy_id (dto_branchId dto)). }
  intros Hres.
  assert (products s' = products s4
          ∧ transactionBonusProducts s' = transactionBonusProducts s4
          ∧ wf_store s') as (Hp' & Ht' & Hwf').
  { destruct (JS.truthy_id r) as [recalcForTxId|]; simplify_eq; [|done].
    destruct (recalculate_sameStock recalcForTxId s4) as [-> ->].
    split; [done|]. split; [done|]. by apply recalculate_wf. }
  split; [done|]. exists product, e, rows.
  rewrite Hp', Ht', Hp4, Ht4. done.
Qed.




End Restock.

(** ** Post-sale adjustments: extraProfit *)

Section ExtraProfit.

Local Open Scope Qc_scope.

(** C4 (defect of the code).  The sale of the scenario carries an
    extraProfit of 900 on a line of 2 units.  Returning 1 unit should take
    900 * (1 / 2) off and leave 450; the code divides by the quantity of the
    line before the return plus the returned quantity, 2 + 1, and leaves
    600.  Returning both units should leave 0; the code leaves 450. *)
Theorem extraProfit_reduced_by_inflated_quantity :
  (tx_extraProfit <$> transactions Scenario.afterSale !! 1%Z)
    = Some (Some (JS.num 900))
  ∧ (fmap it_quantity <$> (tx_items <$> transactions Scenario.afterSale !! 1%Z))
    = Some [2%Z]
  ∧ (Scenario.afterReturn 1 ≫= λ s, tx_extraProfit <$> transactions s !! 1%Z)
    = Some (Some (JS.num 600))
  ∧ JS.max 0 (JS.num 900 - JS.num 900 * (JS.num 1 / JS.num 2)) = JS.num 450
  ∧ (Scenario.afterReturn 2 ≫= λ s, tx_extraProfit <$> transactions s !! 1%Z)
    = Some (Some (JS.num 450))
  ∧ JS.max 0 (JS.num 900 - JS.num 900 * (JS.num 2 / JS.num 2)) = 0.
Proof. repeat split; by_evaluation. Qed.

End ExtraProfit.

(** ** Sale mutation orchestrator: stock *)

Section Stock.

Local Open Scope Z_scope.
Import TransactionService.

Lemma updateProductQuantities_app type s pre post :
  foldl (updateProductQuantity type) s (pre ++ post)
  = foldl (updateProductQuantity type) (foldl (updateProductQuantity type) s pre) post.
Proof. apply foldl_app. Qed.

(** C7.  The stock update of a sale or a purchase handles the lines in
    order; on a line that refers to a product of the store, a SALE lowers
    the quantity of the product by the quantity of the line, floored at 0,
    and sets the status to SOLD when the new quantity is 0 and to IN_STORE
    otherwise, a PURCHASE raises the quantity by the quantity of the line
    and sets the status to IN_WAREHOUSE; no other product is touched by
    that line. *)
Theorem stock_update_per_line (transaction : Transaction) (s : Store)
    (pre post : list TransactionItem) (item : TransactionItem)
    (productId : Z) (product : Product) :
  tx_type transaction = SALE ∨ tx_type transaction = PURCHASE →
  tx_items transaction = pre ++ item :: post →
  it_productId item = Some productId →
  productId ≠ 0 →
  let before := foldl (updateProductQuantity (tx_type transaction)) s pre in
  let after := updateProductQuantity (tx_type transaction) before item in
  products before !! productId = Some product →
  updateProductQuantities transaction s
  = foldl (updateProductQuantity (tx_type transaction)) after post
  ∧ (∃ product',
       products after !! productId = Some product'
       ∧ (tx_type transaction = SALE →
          p_quantity product' = Z.max 0 (p_quantity product - it_quantity item)
          ∧ p_status product'
            = if decide (p_quantity product' = 0) then SOLD else IN_STORE)
       ∧ (tx_type transaction = PURCHASE →
          p_quantity product' = p_quantity product + it_quantity item
          ∧ p_status product' = IN_WAREHOUSE))
  ∧ ∀ other, other ≠ productId →
      products after !! other = products before !! other.
Proof.
  intros Htype Hitems Hid Hnz before after Hproduct.
  split; [|split].
  - unfold updateProductQuantities. rewrite Hitems.
    by rewrite updateProductQuantities_app.
  - unfold after, updateProductQuantity.
    rewrite Hid. cbn [JS.truthy_id]. rewrite decide_False by done.
    rewrite Hproduct.
    destruct Htype as [-> | ->]; cbn; rewrite lookup_alter_eq, Hproduct; cbn;
      eexists; (split; [reflexivity|]); split; intros; done.
  - intros other Hother. unfold after, updateProductQuantity.
    rewrite Hid. cbn [JS.truthy_id]. rewrite decide_False by done.
    rewrite Hproduct.
    destruct (tx_type transaction); cbn; by rewrite lookup_alter_ne.
Qed.

(** The witness of C7: a sale with one line of two units of product 7, of
    which the store holds ten. *)
Lemma stock_update_per_line_witness :
  ∃ product',
    products
      (updateProductQuantities
         (mkTransaction 1 SALE (Some CREDIT) MONTHS 0%Qc 0%Qc 0%Qc None None None
            None None None None
            [mkItem 2 (Some 7) 2 (JS.num 1000) None None (JS.num 2000)
                    None None None None])
         Scenario.store0) !! 7 = Some product'
    ∧ p_quantity product' = 8
    ∧ p_status product' = IN_STORE.
Proof.
  pose proof (stock_update_per_line
    (mkTransaction 1 SALE (Some CREDIT) MONTHS 0%Qc 0%Qc 0%Qc None None None None None
       None None
       [mkItem 2 (Some 7) 2 (JS.num 1000) None None (JS.num 2000) None None None None])
    Scenario.store0 [] []
    (mkItem 2 (Some 7) 2 (JS.num 1000) None None (JS.num 2000) None None None None)
    7 (mkProduct 7 (JS.num 1000) 10 0 0 0 IN_STORE (JS.num 20) (Some 1)))
    as Hline.
  cbv zeta in Hline.
  destruct Hline as (Hrun & (product' & Hlookup & Hsale & _) & _);
    [by left | reflexivity | reflexivity | lia | vm_compute; reflexivity |].
  exists product'. rewrite Hrun. split; [exact Hlookup|].
  destruct (Hsale eq_refl) as [Hq Hs]. rewrite Hs, Hq. split; reflexivity.
Defined.

End Stock.

(** ** Sale mutation orchestrator: the itemized payments *)

Section Payments.

Local Open Scope Qc_scope.
Import TransactionService.

(** Once the checks pass, [create] returns the stored transaction. *)
Lemma rounded_create_proceeds rnd dto userId s data :
  Rounded.createChecks rnd dto userId s = inr data →
  ∃ transaction s',
    Rounded.create rnd dto userId s = inr (transaction, s')
    ∧ tx_total transaction = computedTotal (Rounded.saleTotals rnd dto).
Proof. intros Hchecks. unfold Rounded.create. rewrite Hchecks. eauto. Qed.

Lemma rounded_create_fails rnd dto userId s e :
  Rounded.createChecks rnd dto userId s = inl e →
  Rounded.create rnd dto userId s = inl e.
Proof. intros Hchecks. unfold Rounded.create. by rewrite Hchecks. Qed.

(** The total [create] compares is the item total. *)
Lemma computedTotal_itemTotal rnd dto :
  computedTotal (Rounded.saleTotals rnd dto) = Rounded.itemTotal rnd (ct_items dto).
Proof.
  unfold Rounded.saleTotals. cbn [computedTotal].
  rewrite (rounded_aggregate_principal rnd lineQuantity false). reflexivity.
Qed.

(** The payments [create] adds up are the entries that count. *)
Lemma totalPayments_acceptedSum rnd payments :
  Rounded.totalPayments rnd (paymentsData payments)
  = Rounded.acceptedSum rnd payments.
Proof.
  unfold Rounded.totalPayments, Rounded.acceptedSum, paymentsData.
  enough (∀ sum,
            foldl (λ sum p, Rounded.add rnd sum p.2) sum
                  (filter (λ p, 0 < p.2 ∧ p.1 ∈ knownMethods) (normalise <$> payments))
            = foldl (λ sum p,
                       if decide (Rounded.accepted p)
                       then Rounded.add rnd sum (JS.or_num (pb_amount p) 0)
                       else sum)
                    sum payments) as Hgen by apply Hgen.
  induction payments as [|p payments IH]; intros sum; [done|].
  rewrite fmap_cons, filter_cons. cbn [foldl].
  destruct (decide (Rounded.accepted p)) as [Hp|Hp].
  - rewrite decide_True by exact Hp. cbn [foldl]. apply IH.
  - rewrite decide_False by exact Hp. apply IH.
Qed.

(** C8, as the code has it.  When the request supplies a payment breakdown
    (and names an existing user and a valid upfront payment type), creation
    fails if and only if the rounded item total differs from the rounded sum
    of the entries of the breakdown that have a positive amount and, in
    upper case, one of the methods CASH, CARD, TERMINAL, TOVAR (the other
    entries are dropped before the sum is taken); the failure is the
    validation error that reports both rounded figures, and when the figures
    agree the transaction is created with the item total as its total.  The
    item total and the sum are taken line by line and entry by entry in the
    arithmetic of the code; the statement holds whatever its rounding
    is. *)
Theorem payments_must_match_total rnd dto userId s p ps :
  ct_payments dto = Some (p :: ps) →
  (∀ u, JS.truthy_id userId = Some u → is_Some (users s !! u)) →
  (∀ t, ct_upfrontPaymentType dto = Some t →
        t = EmptyString ∨ t ∈ ["CASH"; "CARD"; "TERMINAL"]%string) →
  let roundedTotal := JS.round (Rounded.itemTotal rnd (ct_items dto)) in
  let roundedPayments := JS.round (Rounded.acceptedSum rnd (p :: ps)) in
  ((∃ e, Rounded.create rnd dto userId s = inl e) ↔ roundedTotal ≠ roundedPayments)
  ∧ (roundedTotal ≠ roundedPayments →
     Rounded.create rnd dto userId s
     = inl (PaymentsMismatch roundedTotal roundedPayments))
  ∧ (roundedTotal = roundedPayments →
     ∃ transaction s',
       Rounded.create rnd dto userId s = inr (transaction, s')
       ∧ tx_total transaction = Rounded.itemTotal rnd (ct_items dto)).
Proof.
  intros Hpayments Huser Htype roundedTotal roundedPayments.
  assert (Rounded.createChecks rnd dto userId s
          = if decide (roundedTotal ≠ roundedPayments)
            then inl (PaymentsMismatch roundedTotal roundedPayments)
            else inr (paymentsData (p :: ps))) as Hchecks.
  { unfold Rounded.createChecks. rewrite Hpayments.
    rewrite computedTotal_itemTotal, totalPayments_acceptedSum.
    fold roundedTotal roundedPayments.
    destruct (JS.truthy_id userId) as [u|] eqn:Hu.
    - destruct (Huser u eq_refl) as [user Hlookup]. rewrite Hlookup.
      rewrite bool_decide_eq_false_2 by done.
      destruct (ct_upfrontPaymentType dto) as [t|]; [|done].
      destruct (Htype t eq_refl) as [->|Hin]; [done|].
      by rewrite (bool_decide_eq_true_2 (t ∈ _)), andb_false_r by done.
    - destruct (ct_upfrontPaymentType dto) as [t|]; [|done].
      destruct (Htype t eq_refl) as [->|Hin]; [done|].
      by rewrite (bool_decide_eq_true_2 (t ∈ _)), andb_false_r by done. }
  destruct (decide (roundedTotal ≠ roundedPayments)) as [Hne|Heq].
  - apply rounded_create_fails in Hchecks. split; [|split].
    + split; [done|]. eauto.
    + done.
    + intros Heq. done.
  - apply rounded_create_proceeds in Hchecks as (transaction & s' & Hcreate & Htotal).
    rewrite computedTotal_itemTotal in Htotal.
    split; [|split].
    + split; [|done]. intros [e He]. congruence.
    + done.
    + eauto.
Qed.

(** The witness of C8, on doubles: ten units at 1.15 come to 11.5 on
    doubles, which rounds to 12; the breakdown pays 7 in cash and 5 by card
    (written in lower case), and carries an entry of an unknown method and
    an entry with a negative amount, both dropped.  The figures agree and
    the sale is created.  A breakdown of one entry of an unknown method is
    rejected with the figures 2000 and 0. *)
Lemma payments_must_match_total_witness :
  (∃ transaction s',
     Rounded.create Binary64.nearest
       (mkCreateDto (Some 5%Z) (Some 5%Z) (Some 1%Z) None SALE (Some CASH)
          None None None None
          [mkItemDto 7 10 (Binary64.nearest (Q2Qc (115 # 100))) None None None None
                     None]
          (Some [mkBreakdown (Some "CASH"%string) (Some (JS.num 7));
                 mkBreakdown (Some "card"%string) (Some (JS.num 5));
                 mkBreakdown (Some "BANK"%string) (Some (JS.num 500));
                 mkBreakdown (Some "CASH"%string) (Some (- JS.num 5))]))
       (Some 5%Z) Scenario.store0
     = inr (transaction, s')
     ∧ tx_total transaction = Q2Qc (23 # 2))
  ∧ Rounded.create Binary64.nearest Scenario.bankSaleDto (Some 5%Z) Scenario.store0
    = inl (PaymentsMismatch 2000 0).
Proof.
  split.
  - pose proof (payments_must_match_total Binary64.nearest
       (mkCreateDto (Some 5%Z) (Some 5%Z) (Some 1%Z) None SALE (Some CASH)
          None None None None
          [mkItemDto 7 10 (Binary64.nearest (Q2Qc (115 # 100))) None None None None
                     None]
          (Some [mkBreakdown (Some "CASH"%string) (Some (JS.num 7));
                 mkBreakdown (Some "card"%string) (Some (JS.num 5));
                 mkBreakdown (Some "BANK"%string) (Some (JS.num 500));
                 mkBreakdown (Some "CASH"%string) (Some (- JS.num 5))]))
       (Some 5%Z) Scenario.store0
       (mkBreakdown (Some "CASH"%string) (Some (JS.num 7)))
       [mkBreakdown (Some "card"%string) (Some (JS.num 5));
        mkBreakdown (Some "BANK"%string) (Some (JS.num 500));
        mkBreakdown (Some "CASH"%string) (Some (- JS.num 5))]) as Hcheck.
    cbv zeta in Hcheck.
    destruct Hcheck as (_ & _ & Hproceeds).
    + reflexivity.
    + intros u [= <-]. vm_compute. eauto.
    + intros t [=].
    + destruct Hproceeds as (transaction & s' & Hcreate & Htotal).
      * vm_compute. reflexivity.
      * exists transaction, s'. split; [exact Hcreate|]. rewrite Htotal.
        apply Qc_is_canon. vm_compute. reflexivity.
  - pose proof (payments_must_match_total Binary64.nearest Scenario.bankSaleDto
                  (Some 5%Z) Scenario.store0
                  (mkBreakdown (Some "BANK"%string) (Some (JS.num 2000))) [])
      as Hcheck.
    cbv zeta in Hcheck.
    destruct Hcheck as (_ & Hfail & _).
    + reflexivity.
    + intros u [= <-]. vm_compute. eauto.
    + intros t [=].
    + rewrite Hfail by (vm_compute; discriminate).
      f_equal.
Defined.

(** C8 as stated fails: the sum of the supplied breakdown, 2000, equals the
    item total, 2000, before and after rounding, and creation fails all the
    same, on doubles and in exact arithmetic alike. *)
Lemma payments_matching_total_rejected :
  ct_payments Scenario.bankSaleDto
  = Some [mkBreakdown (Some "BANK"%string) (Some (JS.num 2000))]
  ∧ JS.round (Rounded.suppliedSum Binary64.nearest
                [mkBreakdown (Some "BANK"%string) (Some (JS.num 2000))])
    = JS.round (Rounded.itemTotal Binary64.nearest (ct_items Scenario.bankSaleDto))
  ∧ (¬ ∃ transaction s',
         Rounded.create Binary64.nearest Scenario.bankSaleDto (Some 5%Z)
                        Scenario.store0
         = inr (transaction, s'))
  ∧ JS.round (breakdownSum [mkBreakdown (Some "BANK"%string) (Some (JS.num 2000))])
    = JS.round (computedTotal (saleTotals Scenario.bankSaleDto))
  ∧ ¬ ∃ transaction s',
        create Scenario.bankSaleDto (Some 5%Z) Scenario.store0
        = inr (transaction, s').
Proof.
  split; [reflexivity|]. split; [vm_compute; reflexivity|].
  split; [|split; [vm_compute; reflexivity|]].
  - intros (transaction & s' & Hcreate). vm_compute in Hcreate. discriminate.
  - intros (transaction & s' & Hcreate). vm_compute in Hcreate. discriminate.
Qed.

End Payments.

(** ** Bonus / penalty calculator *)

Section Bonuses.

Local Open Scope Qc_scope.
Import TransactionService.

Lemma fallback_bonuses rate transactionId items acc :
  bonuses (foldl (fallbackStep rate transactionId) acc items).2 = bonuses acc.2.
Proof.
  revert acc. induction items as [|bi items IH]; intros acc; [done|].
  cbn [foldl]. rewrite IH. destruct acc as [total s]. unfold fallbackStep.
  by destruct (JS.truthy_id (it_productId bi)).
Qed.

Lemma bonusProductsValue_bonuses rate transaction bonusProducts s :
  bonuses (bonusProductsValue rate transaction bonusProducts s).2 = bonuses s.
Proof.
  unfold bonusProductsValue. case_decide; [done|]. apply fallback_bonuses.
Qed.

(** The second loop appends records of reason SALES_BONUS with a positive
    amount, for the seller and the transaction, and nothing else. *)
Lemma bonusStep_records transaction soldByUserId branchContextId snap total pool
    infos s :
  ∃ lineBonuses,
    bonuses (foldl (bonusStep transaction soldByUserId branchContextId snap total pool)
                   s infos)
    = bonuses s ++ lineBonuses
    ∧ Forall (λ b, b_reason b = SALES_BONUS ∧ 0 < b_amount b
                   ∧ b_userId b = soldByUserId
                   ∧ b_transactionId b = tx_id transaction) lineBonuses.
Proof.
  revert s. induction infos as [|info infos IH]; intros s.
  - exists []. by rewrite app_nil_r.
  - cbn [foldl].
    destruct (IH (bonusStep transaction soldByUserId branchContextId snap total pool
                            s info)) as (rest & -> & Hrest).
    unfold bonusStep. case_decide as Hpos.
    + eexists (_ :: rest). cbn. rewrite <- app_assoc. split; [reflexivity|].
      constructor; [done|exact Hrest].
    + by exists rest.
Qed.

Lemma penalty_amount (gross : Qc) : gross < 0 → - JS.abs gross = gross.
Proof. intros Hneg. unfold JS.abs. rewrite decide_True by done. ring. Qed.






End Bonuses.

(** * Further properties *)

(** ** Shape of a monthly schedule *)

Section ScheduleShapeFacts.

Local Open Scope Qc_scope.
Import Schedule BlendedRateSpec Operations.

Lemma num_nonzero (n : Z) : (1 ≤ n)%Z → JS.num n ≠ 0.
Proof.
  intros Hn Heq. unfold JS.num in Heq. rewrite <- Z2Qc_inj_0 in Heq.
  apply Z2Qc_inj in Heq. lia.
Qed.

(** X1.  A monthly schedule generated at sale creation or at recomputation
    has one row per month of the term, numbered 1, 2, ... in order; every
    row is written unpaid with paidAmount 0; and every row before the last
    asks for the same payment, remainingWithInterest divided by the number
    of months as the arithmetic of the code rounds it (the last row asks for
    the balance that is left).  This holds whatever the rounding is. *)
Theorem schedule_equal_installments (rnd : Qc → Qc) (rows : list PaymentSchedule)
    (rwi : Qc) (n : Z) :
  Rounded.MonthlySchedule rnd rows rwi n →
  (1 ≤ n)%Z
  ∧ length rows = Z.to_nat n
  ∧ ps_month <$> rows = seqZ 1 n
  ∧ Forall (λ r, ps_isPaid r = false ∧ ps_paidAmount r = 0) rows
  ∧ ∀ i r, rows !! i = Some r → (Z.of_nat i < n - 1)%Z →
           ps_payment r = Rounded.div rnd rwi (JS.num n).
Proof.
  intros Hschedule.
  apply MonthlySchedule_rows in Hschedule
    as (Hterm & mk & -> & Hmonth & Hpayment & Hbalance & Hunpaid).
  destruct (monthRows_schedule rnd mk Hmonth Hpayment Hbalance Hunpaid n rwi Hterm)
    as (Hlen & Hmonths & Hrows & Hearly & _).
  done.
Qed.

Lemma schedule_equal_installments_witness :
  ps_month <$>
    Rounded.paymentScheduleRows Binary64.nearest 1
      [mkItem 1 (Some 7%Z) 1 (JS.num 1000000) None None (JS.num 1000000)
              (Some 3%Z) (Some (Binary64.nearest (Q2Qc (1 # 10)))) None None] 0
  = [1; 2; 3]%Z
  ∧ ∀ i r,
      Rounded.paymentScheduleRows Binary64.nearest 1
        [mkItem 1 (Some 7%Z) 1 (JS.num 1000000) None None (JS.num 1000000)
                (Some 3%Z) (Some (Binary64.nearest (Q2Qc (1 # 10)))) None None] 0
      !! i = Some r →
      (Z.of_nat i < 3 - 1)%Z →
      ps_payment r = Binary64.nearest (Q2Qc (1100000 # 3)).
Proof.
  pose proof (Rounded.AtSale Binary64.nearest 1
    [mkItem 1 (Some 7%Z) 1 (JS.num 1000000) None None (JS.num 1000000)
            (Some 3%Z) (Some (Binary64.nearest (Q2Qc (1 # 10)))) None None] 0)
    as Hsale.
  cbv zeta in Hsale.
  assert (Rounded.remainingWithInterest Binary64.nearest
            (totalPrincipal (Rounded.aggregate Binary64.nearest lineQuantity true
               [mkItem 1 (Some 7%Z) 1 (JS.num 1000000) None None (JS.num 1000000)
                       (Some 3%Z) (Some (Binary64.nearest (Q2Qc (1 # 10))))
                       None None]))
            0
            (Rounded.effectivePercent Binary64.nearest
               (Rounded.aggregate Binary64.nearest lineQuantity true
                  [mkItem 1 (Some 7%Z) 1 (JS.num 1000000) None None (JS.num 1000000)
                          (Some 3%Z) (Some (Binary64.nearest (Q2Qc (1 # 10))))
                          None None]))
          = JS.num 1100000) as Hrwi by (apply Qc_is_canon; vm_compute; reflexivity).
  assert (totalMonths (Rounded.aggregate Binary64.nearest lineQuantity true
            [mkItem 1 (Some 7%Z) 1 (JS.num 1000000) None None (JS.num 1000000)
                    (Some 3%Z) (Some (Binary64.nearest (Q2Qc (1 # 10)))) None None])
          = 3%Z) as Hterm by (vm_compute; reflexivity).
  rewrite Hrwi, Hterm in Hsale.
  destruct (schedule_equal_installments Binary64.nearest _ _ _
              (Hsale ltac:(by_evaluation) ltac:(lia)))
    as (_ & _ & Hmonths & _ & Hearly).
  split; [exact Hmonths|exact Hearly].
Defined.

End ScheduleShapeFacts.

(** ** The term of a schedule and the schedules that are skipped *)

Section Term.

Local Open Scope Qc_scope.
Import Schedule BlendedRateSpec Operations.

Lemma longestTerm_nonneg `{CreditLine A} (items : list A) : (0 ≤ longestTerm items)%Z.
Proof.
  unfold longestTerm. induction items as [|item items IH]; cbn; lia.
Qed.

Lemma foldl_accumulate_months `{CreditLine A} (qty : A → Z) (items : list A)
    (acc : Totals) :
  (0 ≤ totalMonths acc)%Z →
  totalMonths (foldl (accumulate qty true) acc items)
  = Z.max (totalMonths acc) (longestTerm items).
Proof.
  revert acc. induction items as [|item items IH]; intros acc Hacc.
  - cbn. lia.
  - cbn [foldl]. unfold longestTerm. rewrite fmap_cons. cbn [foldr].
    fold (longestTerm items). pose proof (longestTerm_nonneg items).
    assert (totalMonths (accumulate qty true acc item)
            = Z.max (totalMonths acc) (default 0%Z (lineCreditMonth item))) as Hstep.
    { unfold accumulate, JS.truthy_int, JS.or_int.
      destruct (JS.truthy_num (lineCreditPercent item));
        destruct (lineCreditMonth item) as [c|]; cbn;
        repeat case_bool_decide; repeat case_decide; cbn; lia. }
    rewrite IH by (rewrite Hstep; lia). rewrite Hstep. lia.
Qed.

Lemma foldl_accumulate_no_months `{CreditLine A} (qty : A → Z) (items : list A)
    (acc : Totals) :
  totalMonths (foldl (accumulate qty false) acc items) = totalMonths acc.
Proof.
  revert acc. induction items as [|item items IH]; intros acc; [done|].
  cbn [foldl]. rewrite IH. unfold accumulate.
  by destruct (JS.truthy_num (lineCreditPercent item)).
Qed.

Lemma totalMonths_longestTerm (items : list TransactionItem) :
  totalMonths (aggregate lineQuantity true items) = longestTerm items.
Proof.
  unfold aggregate. rewrite foldl_accumulate_months by done.
  pose proof (longestTerm_nonneg items). cbn. lia.
Qed.

(** X2.  The term of a schedule is the largest creditMonth among the
    lines (0 when no line has one); when it is 0 neither generator writes a
    row: both leave the store as it is. *)
Theorem term_is_longest_credit_month (items : list TransactionItem) :
  totalMonths (aggregate lineQuantity true items) = longestTerm items
  ∧ (longestTerm items = 0%Z →
     ∀ transactionId downPayment s,
       createPaymentSchedule transactionId items downPayment s = s
       ∧ createDailyPaymentSchedule transactionId items downPayment s = s).
Proof.
  pose proof (totalMonths_longestTerm items) as Hterm.
  split; [done|]. intros Hzero transactionId downPayment s.
  unfold createPaymentSchedule, createDailyPaymentSchedule,
    paymentScheduleRows, dailyScheduleRows.
  rewrite Hterm, Hzero.
  destruct (decide (0 < totalPrincipal (aggregate lineQuantity true items)
                    ∧ (0 < 0)%Z)) as [[_ ?]|_]; [lia|done].
Qed.

Lemma rounded_accumulate_months `{CreditLine A} rnd (qty : A → Z) (months : bool)
    (acc acc' : Totals) (item : A) :
  totalMonths acc = totalMonths acc' →
  totalMonths (Rounded.accumulate rnd qty months acc item)
  = totalMonths (accumulate qty months acc' item).
Proof.
  intros Hacc. unfold Rounded.accumulate, accumulate.
  destruct (JS.truthy_num (lineCreditPercent item)), months,
    (JS.truthy_int (lineCreditMonth item)); cbn; congruence.
Qed.

(** The term does not depend on the rounding of the arithmetic. *)
Lemma rounded_aggregate_months `{CreditLine A} rnd (qty : A → Z) (months : bool)
    (items : list A) :
  totalMonths (Rounded.aggregate rnd qty months items)
  = totalMonths (aggregate qty months items).
Proof.
  unfold Rounded.aggregate, aggregate.
  assert (totalMonths totals0 = totalMonths totals0) as Hacc by done.
  revert Hacc. generalize totals0 at 1 3. generalize totals0.
  induction items as [|item items IH]; intros acc' acc Hacc; [done|].
  cbn [foldl]. apply IH. by apply rounded_accumulate_months.
Qed.

(** X3.  For a positive principal and a term of at least one, the daily
    generator writes exactly one row, numbered 1 and unpaid, whose number of
    days is the term and whose payment and remainingBalance are both the
    amount the monthly generator spreads over the months of the same term:
    the rows the monthly generator writes for the same lines are a monthly
    schedule for the payment of the daily row, and their payments add up to
    it and to the rounding errors of the subtractions of the month loop.
    This holds whatever the rounding of the arithmetic is. *)
Theorem daily_row_owes_monthly_total (rnd : Qc → Qc) (transactionId : Z)
    (items : list TransactionItem) (downPayment : Qc) :
  0 < totalPrincipal (Rounded.aggregate rnd lineQuantity true items) →
  (1 ≤ longestTerm items)%Z →
  ∃ row,
    Rounded.dailyScheduleRows rnd transactionId items downPayment = [row]
    ∧ ps_month row = 1%Z
    ∧ ps_isPaid row = false
    ∧ ps_remainingBalance row = ps_payment row
    ∧ ps_totalDays row = Some (longestTerm items)
    ∧ Rounded.MonthlySchedule rnd
        (Rounded.paymentScheduleRows rnd transactionId items downPayment)
        (ps_payment row) (longestTerm items)
    ∧ sumPayments (Rounded.paymentScheduleRows rnd transactionId items downPayment)
      = ps_payment row
        + Rounded.subtractionDrift rnd
            (Rounded.div rnd (ps_payment row) (JS.num (longestTerm items)))
            (Z.to_nat (longestTerm items) - 1) (ps_payment row).
Proof.
  intros Hprincipal Hterm.
  assert (totalMonths (Rounded.aggregate rnd lineQuantity true items)
          = longestTerm items) as Hmonths
    by (rewrite rounded_aggregate_months; apply totalMonths_longestTerm).
  pose proof (Rounded.AtSale rnd transactionId items downPayment) as Hsale.
  cbv zeta in Hsale. rewrite Hmonths in Hsale.
  specialize (Hsale Hprincipal Hterm).
  unfold Rounded.dailyScheduleRows. cbv zeta.
  rewrite decide_True by (split; [done|lia]).
  eexists. split; [reflexivity|].
  cbn [ps_month ps_payment ps_remainingBalance ps_totalDays ps_isPaid].
  split; [done|]. split; [done|]. split; [done|].
  split; [by rewrite Hmonths|]. split; [exact Hsale|].
  unfold Rounded.paymentScheduleRows. cbv zeta.
  rewrite decide_True by (split; [done|lia]). rewrite Hmonths.
  by apply (monthRows_schedule rnd (saleRow transactionId (longestTerm items))).
Qed.

Lemma daily_row_owes_monthly_total_witness :
  ∃ row,
    Rounded.dailyScheduleRows Binary64.nearest 1
      [mkItem 1 (Some 7%Z) 1 (JS.num 1000000) None None (JS.num 1000000)
              (Some 30%Z) (Some (Binary64.nearest (Q2Qc (1 # 10)))) None None] 0
    = [row]
    ∧ ps_payment row = JS.num 1100000
    ∧ ps_totalDays row = Some 30%Z.
Proof.
  destruct (daily_row_owes_monthly_total Binary64.nearest 1
    [mkItem 1 (Some 7%Z) 1 (JS.num 1000000) None None (JS.num 1000000)
            (Some 30%Z) (Some (Binary64.nearest (Q2Qc (1 # 10)))) None None] 0)
    as (row & Hrow & _ & _ & _ & Hdays & _);
    [by_evaluation | vm_compute; discriminate |].
  exists row. split; [exact Hrow|]. split; [|exact Hdays].
  clear Hdays. vm_compute in Hrow. injection Hrow as <-. by_evaluation.
Defined.

End Term.

(** ** Recomputation: replacement and idempotence *)

Section RecalculationAgain.

Local Open Scope Qc_scope.
Import Schedule BlendedRateSpec.

Lemma store_ext (s s' : Store) :
  products s = products s' → branches s = branches s' → users s = users s' →
  transactions s = transactions s' →
  paymentSchedules s = paymentSchedules s' →
  transactionBonusProducts s = transactionBonusProducts s' →
  bonuses s = bonuses s' → defectiveLogs s = defectiveLogs s' →
  nextId s = nextId s' → s = s'.
Proof. destruct s, s'. cbn. by intros -> -> -> -> -> -> -> -> ->. Qed.

Lemma filter_twice {B} (P : B → Prop) `{∀ x, Decision (P x)} (l : list B) :
  filter P (filter P l) = filter P l.
Proof.
  apply filter_all, Forall_forall. intros x Hx.
  by apply list_elem_of_filter in Hx as [Hx _].
Qed.

Lemma delete_if_any transactionId s :
  (if decide (0 < length (schedulesOf transactionId s))%nat
   then deleteSchedules transactionId s else s)
  = deleteSchedules transactionId s.
Proof.
  pose proof (schedules_after_delete transactionId s) as Hrows.
  case_decide; [done|]. by apply store_ext.
Qed.

(** The three outcomes of a recomputation on a credit transaction. *)
Lemma recalculate_credit transactionId s transaction :
  transactions s !! transactionId = Some transaction →
  isCredit (tx_paymentType transaction) = true →
  recalculatePaymentSchedules transactionId s
  = if decide (length (remainingItems (tx_items transaction)) = 0%nat)
    then deleteSchedules transactionId s
    else if decide (0 < totalPrincipal (remainingTotals (tx_items transaction))
                    ∧ (0 < totalMonths (originalTotals (tx_items transaction)))%Z)
    then set_transactions
           (alter (setTotals (totalPrincipal (remainingTotals (tx_items transaction)))
                             (recalcRemainingWithInterest transaction))
                  transactionId)
           (set_paymentSchedules
              (λ rows, rows ++ recalcRows transactionId transaction)
              (deleteSchedules transactionId s))
    else deleteSchedules transactionId s.
Proof.
  intros Htx Hcredit. unfold recalculatePaymentSchedules.
  rewrite Htx, Hcredit. cbn [negb]. rewrite delete_if_any.
  case_decide; [done|]. case_decide as Hguard; [|done].
  rewrite decide_True; [done|].
  unfold recalcRows. rewrite monthLoop_length. lia.
Qed.

Lemma recalculate_other transactionId s :
  (∀ transaction, transactions s !! transactionId = Some transaction →
                  isCredit (tx_paymentType transaction) = false) →
  recalculatePaymentSchedules transactionId s = s.
Proof.
  intros Hother. unfold recalculatePaymentSchedules.
  destruct (transactions s !! transactionId) as [transaction|]; [|done].
  by rewrite (Hother transaction eq_refl).
Qed.

Lemma deleteSchedules_twice transactionId s :
  deleteSchedules transactionId (deleteSchedules transactionId s)
  = deleteSchedules transactionId s.
Proof.
  apply store_ext; try done. cbn.
  apply (filter_twice (λ r, ps_transactionId r ≠ transactionId)).
Qed.

(** X5.  Recomputing the schedule of a transaction twice in a row gives
    the store of the first recomputation: the rows, the totals and every
    other table are the same. *)
Theorem recalculate_idempotent (transactionId : Z) (s : Store) :
  recalculatePaymentSchedules transactionId
    (recalculatePaymentSchedules transactionId s)
  = recalculatePaymentSchedules transactionId s.
Proof.
  destruct (transactions s !! transactionId) as [transaction|] eqn:Htx; cycle 1.
  { rewrite (recalculate_other transactionId s) by (intros ? ?; congruence).
    apply recalculate_other. intros ? ?; congruence. }
  destruct (isCredit (tx_paymentType transaction)) eqn:Hcredit; cycle 1.
  { rewrite (recalculate_other transactionId s) by (intros ? ?; congruence).
    apply recalculate_other. intros ? ?; congruence. }
  rewrite (recalculate_credit transactionId s transaction) by done.
  destruct (decide (length (remainingItems (tx_items transaction)) = 0%nat))
    as [Hnone|Hsome].
  { rewrite (recalculate_credit _ _ transaction) by done.
    rewrite decide_True by done. apply deleteSchedules_twice. }
  destruct (decide (0 < totalPrincipal (remainingTotals (tx_items transaction))
                    ∧ (0 < totalMonths (originalTotals (tx_items transaction)))%Z))
    as [Hguard|Hguard]; cycle 1.
  { rewrite (recalculate_credit _ _ transaction) by done.
    rewrite decide_False, decide_False by done. apply deleteSchedules_twice. }
  set (total := totalPrincipal (remainingTotals (tx_items transaction))).
  set (final := recalcRemainingWithInterest transaction).
  rewrite (recalculate_credit _ _ (setTotals total final transaction));
    [|by cbn; rewrite lookup_alter_eq, Htx | done].
  change (tx_items (setTotals total final transaction)) with (tx_items transaction).
  rewrite decide_False, decide_True by done.
  change (recalcRemainingWithInterest (setTotals total final transaction))
    with final.
  change (recalcRows transactionId (setTotals total final transaction))
    with (recalcRows transactionId transaction).
  fold total.
  apply store_ext; try done.
  - cbn. apply map_eq. intros k.
    destruct (decide (transactionId = k)) as [<-|Hne].
    + rewrite !lookup_alter_eq, Htx. done.
    + by rewrite !lookup_alter_ne by done.
  - cbn. rewrite filter_app.
    rewrite (filter_twice (λ r, ps_transactionId r ≠ transactionId)).
    rewrite (filter_none (λ r, ps_transactionId r ≠ transactionId)
                         (recalcRows transactionId transaction)).
    + by rewrite app_nil_r.
    + eapply Forall_impl; [apply monthLoop_transactionId|]. cbn. intros r -> ?. done.
Qed.

(** X6.  A recomputation that passes its guard replaces the rows of the
    transaction and touches no other row.  The new rows are one per month of
    the term, all unpaid with paidAmount 0, whatever had been paid on the
    rows they replace.  The stored finalTotal is the amount the new rows
    spread: their payments add up to it and to the rounding errors of the
    subtractions of the month loop.  The stored total is the principal of
    the lines that still hold units, added up line by line; the lines
    themselves and the other columns of the transaction are as before.  This
    holds whatever the rounding of the arithmetic is. *)
Theorem recalculate_replaces_schedule (rnd : Qc → Qc) (s : Store)
    (transactionId : Z) (transaction : Transaction) :
  transactions s !! transactionId = Some transaction →
  isCredit (tx_paymentType transaction) = true →
  0 < totalPrincipal (Rounded.remainingTotals rnd (tx_items transaction)) →
  (1 ≤ totalMonths (Rounded.originalTotals rnd (tx_items transaction)))%Z →
  let s' := Rounded.recalculatePaymentSchedules rnd transactionId s in
  let n := totalMonths (Rounded.originalTotals rnd (tx_items transaction)) in
  filter (λ r, ps_transactionId r ≠ transactionId) (paymentSchedules s')
  = filter (λ r, ps_transactionId r ≠ transactionId) (paymentSchedules s)
  ∧ length (schedulesOf transactionId s') = Z.to_nat n
  ∧ Forall (λ r, ps_isPaid r = false ∧ ps_paidAmount r = 0)
           (schedulesOf transactionId s')
  ∧ ∃ transaction',
      transactions s' !! transactionId = Some transaction'
      ∧ sumPayments (schedulesOf transactionId s')
        = tx_finalTotal transaction'
          + Rounded.subtractionDrift rnd
              (Rounded.div rnd (tx_finalTotal transaction') (JS.num n))
              (Z.to_nat n - 1) (tx_finalTotal transaction')
      ∧ tx_total transaction'
        = foldl (λ sum item,
                   Rounded.add rnd sum
                     (Rounded.mul rnd (it_price item) (JS.num (it_quantity item))))
                0 (remainingItems (tx_items transaction))
      ∧ transaction'
        = setTotals (tx_total transaction') (tx_finalTotal transaction') transaction.
Proof.
  intros Htx Hcredit Hprincipal Hterm s' n.
  destruct (rounded_recalculate_rows rnd s transactionId transaction
              Htx Hcredit Hprincipal Hterm) as (Hrows & Hall & Htxs).
  fold s' in Hrows, Hall, Htxs.
  destruct (monthRows_schedule rnd (recalcRow transactionId))
    with (totalMonths := n) (amount := Rounded.recalcRemainingWithInterest rnd transaction)
    as (Hlen & _ & Hunpaid & _ & Hsum & _); [done..|].
  fold (Rounded.recalcRows rnd transactionId transaction) in Hlen, Hunpaid, Hsum.
  split; [|split; [|split]].
  - rewrite Hall, filter_app.
    rewrite (filter_twice (λ r, ps_transactionId r ≠ transactionId)).
    rewrite (filter_none (λ r, ps_transactionId r ≠ transactionId)
                         (Rounded.recalcRows rnd transactionId transaction)).
    + by rewrite app_nil_r.
    + eapply Forall_impl;
        [by apply (rounded_monthLoop_transactionId rnd _ transactionId)|].
      cbn. intros r -> ?. done.
  - by rewrite Hrows.
  - by rewrite Hrows.
  - eexists. rewrite Htxs, lookup_alter_eq, Htx. split; [reflexivity|].
    cbn [setTotals tx_finalTotal tx_total tx_items]. rewrite Hrows.
    split; [exact Hsum|]. split; [|done].
    unfold Rounded.remainingTotals.
    rewrite (rounded_aggregate_principal rnd lineQuantity false). reflexivity.
Qed.

Lemma recalculate_replaces_schedule_witness :
  length (schedulesOf 1
            (Rounded.recalculatePaymentSchedules Binary64.nearest 1 Scenario.afterSale))
  = 3%nat
  ∧ ∃ transaction',
      transactions
        (Rounded.recalculatePaymentSchedules Binary64.nearest 1 Scenario.afterSale)
      !! 1%Z = Some transaction'
      ∧ tx_total transaction' = JS.num 2000.
Proof.
  destruct (recalculate_replaces_schedule Binary64.nearest Scenario.afterSale 1)
    with (transaction :=
            default (mkTransaction 0 SALE None MONTHS 0 0 0 None None None None None
                                   None None [])
                    (transactions Scenario.afterSale !! 1%Z))
    as (_ & Hlen & _ & transaction' & Hlookup & _ & Htotal & _).
  - vm_compute. reflexivity.
  - reflexivity.
  - by_evaluation.
  - vm_compute. discriminate.
  - split; [exact Hlen|]. exists transaction'. split; [exact Hlookup|].
    rewrite Htotal. by_evaluation.
Defined.

End RecalculationAgain.

(** ** Arithmetic of signs *)

Section Signs.

Local Open Scope Qc_scope.

Lemma or_num_Some (x : Qc) : JS.or_num (Some x) 0 = x.
Proof. unfold JS.or_num. by case_decide. Qed.

Lemma Qc_neg_pos (x : Qc) : x < 0 ↔ 0 < - x.
Proof.
  rewrite (Qclt_minus_iff x 0). by replace (0 + - x) with (- x) by ring.
Qed.

Lemma Qc_pos_neg (x : Qc) : 0 < x ↔ - x < 0.
Proof.
  rewrite (Qclt_minus_iff (- x) 0). by replace (0 + - - x) with x by ring.
Qed.

Lemma Qc_lt_irrefl (x : Qc) : ¬ x < x.
Proof. intros H. by apply Qclt_not_eq in H. Qed.

Lemma Qc_lt_asym (x y : Qc) : x < y → ¬ y < x.
Proof. intros H1 H2. exact (Qc_lt_irrefl x (Qclt_trans _ _ _ H1 H2)). Qed.

Lemma js_abs_nonneg (x : Qc) : 0 ≤ JS.abs x.
Proof.
  unfold JS.abs. case_decide as H.
  - by apply Qclt_le_weak, Qc_neg_pos.
  - by apply Qcnot_lt_le.
Qed.

Lemma js_abs_of_nonneg (x : Qc) : 0 ≤ x → JS.abs x = x.
Proof.
  intros Hx. unfold JS.abs. case_decide as H; [|done].
  by apply Qcle_not_lt in Hx.
Qed.

Lemma js_abs_opp (x : Qc) : JS.abs (- x) = JS.abs x.
Proof.
  unfold JS.abs. destruct (decide (x < 0)) as [Hneg|Hnn].
  - rewrite decide_False; [done|].
    apply Qc_lt_asym. by apply Qc_neg_pos.
  - destruct (decide (- x < 0)) as [Hpos|Hz]; [ring|].
    assert (x = 0) as ->.
    { apply Qcle_antisym; [|by apply Qcnot_lt_le].
      apply Qcnot_lt_le. intros Hx. by apply Hz, Qc_pos_neg. }
    ring.
Qed.

Lemma js_abs_idemp (x : Qc) : JS.abs (JS.abs x) = JS.abs x.
Proof. apply js_abs_of_nonneg, js_abs_nonneg. Qed.

Lemma js_abs_pos (x : Qc) : x ≠ 0 → 0 < JS.abs x.
Proof.
  intros Hx. unfold JS.abs. case_decide as H.
  - by apply Qc_neg_pos.
  - destruct (Qcle_lt_or_eq 0 x) as [Hlt|Heq]; [by apply Qcnot_lt_le|done|].
    by destruct Hx.
Qed.

End Signs.

(** ** Post-sale adjustments: how [create] decomposes *)

Section CreateAnatomy.

Local Open Scope Qc_scope.
Import DefectiveLogService Ledger Operations.

(** A completed [create] has found its product (and its branch), computed
    the effects of the action, run the atomic write and then, when flagged,
    the recomputation. *)
Lemma create_inv dto s log s' :
  create dto s = inr (log, s') →
  ∃ product e s1 recalc,
    products s !! dto_productId dto = Some product
    ∧ effects dto (default ActDEFECTIVE (dto_actionType dto)) product s = Some e
    ∧ transactionBody dto (default ActDEFECTIVE (dto_actionType dto)) e s
      = inr (log, s1, recalc)
    ∧ s' = match JS.truthy_id recalc with
           | Some recalcForTxId =>
               Schedule.recalculatePaymentSchedules recalcForTxId s1
           | None => s1
           end.
Proof.
  unfold create. intros Hcreate.
  destruct (products s !! dto_productId dto) as [product|]; [|done].
  destruct (match JS.truthy_id (dto_branchId dto) with
            | Some _ => _ | None => _ end); [done|].
  destruct (_ && _); [done|].
  destruct (effects _ _ _ _) as [e|] eqn:He; [|done].
  destruct (transactionBody _ _ _ _) as [|[[result s1] recalc]] eqn:Hbody; [done|].
  exists product, e, s1, recalc.
  destruct (JS.truthy_id recalc); by simplify_eq.
Qed.

(** An action that is not linked to a sale runs to completion once its
    product and branch exist and, for DEFECTIVE, the stock suffices. *)
Lemma create_unlinked dto s product e :
  dto_isFromSale dto = false →
  products s !! dto_productId dto = Some product →
  (∀ b, JS.truthy_id (dto_branchId dto) = Some b → is_Some (branches s !! b)) →
  (default ActDEFECTIVE (dto_actionType dto) = ActDEFECTIVE →
   (dto_quantity dto ≤ p_quantity product)%Z) →
  effects dto (default ActDEFECTIVE (dto_actionType dto)) product s = Some e →
  create dto s
  = inr (logOf dto (default ActDEFECTIVE (dto_actionType dto)) (cashAmount e),
         let s2 :=
           set_products (alter (applyEffects e) (dto_productId dto))
             (set_defectiveLogs
                (λ logs, logs ++ [logOf dto (default ActDEFECTIVE (dto_actionType dto))
                                        (cashAmount e)]) s) in
         match JS.truthy_id (dto_branchId dto) with
         | Some branchId =>
             set_branches (alter (incrementCash (cashAmount e)) branchId) s2
         | None => s2
         end).
Proof.
  intros Hsale Hproduct Hbranch Hstock Heffects. unfold create.
  rewrite Hproduct.
  assert (match JS.truthy_id (dto_branchId dto) with
          | Some branchId => bool_decide (branches s !! branchId = None)
          | None => false
          end = false) as ->.
  { destruct (JS.truthy_id (dto_branchId dto)) as [b|]; [|done].
    destruct (Hbranch b eq_refl) as [branch Hb]. rewrite Hb.
    by apply bool_decide_eq_false_2. }
  rewrite Hsale. cbn [negb].
  assert (bool_decide (default ActDEFECTIVE (dto_actionType dto) = ActDEFECTIVE)
          && true
          && bool_decide (p_quantity product < dto_quantity dto)%Z = false) as ->.
  { case_bool_decide as Ha; [|done]. cbn.
    apply bool_decide_eq_false_2. specialize (Hstock Ha). lia. }
  rewrite Heffects. unfold transactionBody, linkedSaleStep, linkedTransaction.
  rewrite Hsale. cbv zeta. done.
Qed.

(** X7.  An action linked to a line of a sale that asks for more units
    than the line holds is rejected, whatever the action is, and nothing is
    written. *)
Theorem over_return_rejected dto s product transactionId tx orig :
  products s !! dto_productId dto = Some product →
  (∀ b, JS.truthy_id (dto_branchId dto) = Some b → is_Some (branches s !! b)) →
  dto_actionType dto ≠ Some ActOther →
  linkedTransaction dto = Some transactionId →
  transactions s !! transactionId = Some tx →
  List.find (λ i, bool_decide (it_productId i = Some (dto_productId dto)))
            (tx_items tx) = Some orig →
  (it_quantity orig < dto_quantity dto)%Z →
  create dto s = inl ExceedsSoldQuantity.
Proof.
  intros Hproduct Hbranch Haction Hlinked Htx Hfind Hover.
  assert (dto_isFromSale dto = true) as Hsale.
  { unfold linkedTransaction in Hlinked. by destruct (dto_isFromSale dto). }
  unfold create. rewrite Hproduct.
  assert (match JS.truthy_id (dto_branchId dto) with
          | Some branchId => bool_decide (branches s !! branchId = None)
          | None => false
          end = false) as ->.
  { destruct (JS.truthy_id (dto_branchId dto)) as [b|]; [|done].
    destruct (Hbranch b eq_refl) as [branch Hb]. rewrite Hb.
    by apply bool_decide_eq_false_2. }
  rewrite Hsale. cbn [negb]. rewrite andb_false_r. cbn [andb].
  destruct (effects dto (default ActDEFECTIVE (dto_actionType dto)) product s)
    as [e|] eqn:He.
  - unfold transactionBody, linkedSaleStep. cbv zeta. rewrite Hlinked.
    cbn [transactions set_products set_defectiveLogs]. rewrite Htx, Hfind.
    by rewrite decide_True by done.
  - destruct (dto_actionType dto) as [[]|]; cbn in He; done.
Qed.

Lemma over_return_rejected_witness :
  create (Scenario.returnDto 3) Scenario.afterSale = inl ExceedsSoldQuantity.
Proof.
  eapply (over_return_rejected (Scenario.returnDto 3) Scenario.afterSale _ 1).
  - vm_compute. reflexivity.
  - intros b [= <-]. vm_compute. eauto.
  - done.
  - reflexivity.
  - vm_compute. reflexivity.
  - vm_compute. reflexivity.
  - vm_compute. reflexivity.
Defined.

End CreateAnatomy.

(** ** Post-sale adjustments: round trip and cashier override *)

Section RoundTrip.

Local Open Scope Qc_scope.
Import DefectiveLogService Ledger Operations.

(** X8.  Marking units of a product defective (outside a sale, within the
    stock) and then fixing the same number of units brings the product back
    to its quantity and counters, with status IN_STORE, and the branch back
    to its cash balance: the two logged amounts cancel.  No other product is
    touched. *)
Theorem defective_then_fixed_round_trip (s : Store) (productId quantity : Z)
    (userId : option Z) (branchId : Z) (product : Product) (branch : Branch) :
  products s !! productId = Some product →
  branches s !! branchId = Some branch →
  branchId ≠ 0%Z →
  (0 ≤ quantity ≤ p_quantity product)%Z →
  (0 ≤ p_defectiveQuantity product)%Z →
  ∃ log1 s1 log2 s2,
    create (shorthandDto productId quantity userId (Some branchId) ActDEFECTIVE) s
    = inr (log1, s1)
    ∧ markAsFixed productId quantity userId (Some branchId) s1 = inr (log2, s2)
    ∧ products s2 !! productId
      = Some (TransactionService.setStock (p_quantity product) IN_STORE product)
    ∧ (∀ other, other ≠ productId → products s2 !! other = products s !! other)
    ∧ branches s2 !! branchId = Some branch
    ∧ dl_cashAmount log1 + dl_cashAmount log2 = 0.
Proof.
  intros Hproduct Hbranch Hnz Hq Hd.
  assert (JS.truthy_id (Some branchId) = Some branchId) as Hid
    by by apply truthy_id_Some.
  eexists _, _, _, _. split.
  { apply (create_unlinked _ s product); [done | done | | cbn; lia | reflexivity].
    cbn [shorthandDto dto_branchId]. rewrite Hid. intros b [= <-]. eauto. }
  cbn [shorthandDto dto_branchId dto_productId dto_quantity dto_actionType
       dto_isFromSale default cashAmount]. rewrite Hid. cbv zeta.
  split.
  { unfold markAsFixed.
    eapply (create_unlinked _ _ _); [done | | | done | reflexivity].
    - cbn. rewrite lookup_alter_eq, Hproduct. reflexivity.
    - cbn [shorthandDto dto_branchId]. rewrite Hid. intros b [= <-].
      cbn. rewrite lookup_alter_eq, Hbranch. eauto. }
  cbn [shorthandDto dto_branchId dto_productId dto_quantity dto_actionType
       dto_isFromSale default cashAmount]. rewrite Hid. cbv zeta.
  cbn [products branches set_products set_branches set_defectiveLogs
       logOf dl_cashAmount cashAmount].
  split; [|split; [|split]].
  - rewrite !lookup_alter_eq, Hproduct. cbn. f_equal.
    destruct product. unfold applyEffects, TransactionService.setStock. cbn in *.
    f_equal; lia.
  - intros other Hother. by rewrite !lookup_alter_ne by done.
  - rewrite !lookup_alter_eq, Hbranch. cbn. f_equal.
    destruct branch as [balance]. unfold incrementCash. cbn. f_equal. ring.
  - unfold applyEffects. cbn. ring.
Qed.

Lemma defective_then_fixed_round_trip_witness :
  ∃ log1 s1 log2 s2,
    create (shorthandDto 8 2 (Some 5%Z) (Some 1%Z) ActDEFECTIVE) Scenario.store0
    = inr (log1, s1)
    ∧ markAsFixed 8 2 (Some 5%Z) (Some 1%Z) s1 = inr (log2, s2)
    ∧ (p_quantity <$> products s2 !! 8%Z) = Some 5%Z
    ∧ branches s2 !! 1%Z = Some (mkBranch 0).
Proof.
  destruct (defective_then_fixed_round_trip Scenario.store0 8 2 (Some 5%Z) 1
              (mkProduct 8 (JS.num 100) 5 0 0 0 IN_STORE 0 (Some 1%Z)) (mkBranch 0))
    as (log1 & s1 & log2 & s2 & H1 & H2 & Hp & _ & Hb & _);
    [vm_compute; reflexivity | vm_compute; reflexivity | lia | cbn; lia | cbn; lia |].
  exists log1, s1, log2, s2. rewrite Hp. done.
Defined.

Lemma transactionBody_log dto actionType e s log s' recalc :
  transactionBody dto actionType e s = inr (log, s', recalc) →
  log = logOf dto actionType (cashAmount e).
Proof.
  unfold transactionBody. cbv zeta.
  destruct (linkedSaleStep _ _ _) as [|[s3 r]]; [done|]. by intros [= <- _ _].
Qed.

(** X9.  When the cashier override applies (an EXCHANGE with an amount and
    a direction, or a RETURN with a non-zero amount and a direction), the
    amount persisted on the log has the magnitude of the amount supplied and
    the sign of the direction, the direction is persisted with it, and the
    cashier listing reads the log back with that very amount. *)
Theorem override_amount_and_direction dto s log s' input direction :
  dto_cashAmount dto = Some input →
  dto_cashAdjustmentDirection dto = Some direction →
  dto_actionType dto = Some ActEXCHANGE
  ∨ (dto_actionType dto = Some ActRETURN ∧ input ≠ 0) →
  create dto s = inr (log, s') →
  dl_cashAmount log
  = (if decide (direction = PLUS) then JS.abs input else - JS.abs input)
  ∧ dl_cashAdjustmentDirection log = Some direction
  ∧ signedAmount s' log = dl_cashAmount log.
Proof.
  intros Hinput Hdirection Haction Hcreate.
  apply create_inv in Hcreate as (product & e & s1 & recalc & _ & He & Hbody & _).
  apply transactionBody_log in Hbody as ->.
  assert (cashAmount e
          = if decide (direction = PLUS) then JS.abs input else - JS.abs input)
    as Hcash.
  { destruct Haction as [Ha|[Ha Hnz]]; rewrite Ha in He; cbn in He;
      rewrite Hinput, Hdirection in He.
    - injection He as <-. cbn. unfold overrideAmount. rewrite or_num_Some.
      case_decide; ring.
    - rewrite decide_True in He by by apply js_abs_pos.
      injection He as <-. cbn. unfold overrideAmount. rewrite or_num_Some.
      case_decide; ring. }
  assert (dl_actionType (logOf dto (default ActDEFECTIVE (dto_actionType dto))
                               (cashAmount e)) = ActRETURN → input ≠ 0) as Hreturn.
  { cbn. destruct Haction as [Ha|[Ha Hnz]]; rewrite Ha; cbn; done. }
  split; [done|]. split; [done|].
  unfold signedAmount.
  cbn [logOf dl_cashAmount dl_cashAdjustmentDirection dl_actionType] in *.
  rewrite Hdirection, or_num_Some, Hcash.
  assert ((match direction with
           | PLUS => JS.abs (if decide (direction = PLUS) then JS.abs input
                             else - JS.abs input)
           | MINUS => - JS.abs (if decide (direction = PLUS) then JS.abs input
                                else - JS.abs input)
           end)
          = if decide (direction = PLUS) then JS.abs input else - JS.abs input)
    as ->.
  { destruct direction.
    - rewrite decide_True by done. apply js_abs_idemp.
    - rewrite decide_False by done. by rewrite js_abs_opp, js_abs_idemp. }
  case_bool_decide as Hzero; [|done]. case_bool_decide as Hret; [|done].
  exfalso. specialize (Hreturn Hret). apply js_abs_pos in Hreturn.
  case_decide.
  - rewrite Hzero in Hreturn. by apply Qc_lt_irrefl in Hreturn.
  - assert (JS.abs input = 0) as Habs.
    { rewrite <- (Qcopp_involutive (JS.abs input)), Hzero. ring. }
    rewrite Habs in Hreturn. by apply Qc_lt_irrefl in Hreturn.
Qed.

Lemma override_amount_and_direction_witness :
  ∃ log s',
    create (mkDto 7 1 (Some 5%Z) (Some 1%Z) (Some ActRETURN) true (Some 1%Z)
                  (Some PLUS) (Some (- JS.num 500)) None None None None)
           Scenario.afterSale
    = inr (log, s')
    ∧ dl_cashAmount log = JS.num 500
    ∧ signedAmount s' log = JS.num 500.
Proof.
  eexists _, _. split; [vm_compute; reflexivity|].
  match goal with
  | |- dl_cashAmount ?l = _ ∧ signedAmount ?st _ = _ =>
      destruct (override_amount_and_direction
                  (mkDto 7 1 (Some 5%Z) (Some 1%Z) (Some ActRETURN) true (Some 1%Z)
                         (Some PLUS) (Some (- JS.num 500)) None None None None)
                  Scenario.afterSale l st (- JS.num 500) PLUS)
        as (Hcash & _ & Hsigned)
  end.
  - reflexivity.
  - reflexivity.
  - right. split; [reflexivity|]. intros Heq. apply (f_equal this) in Heq.
    discriminate.
  - vm_compute. reflexivity.
  - rewrite Hsigned, Hcash. split; by_evaluation.
Defined.

End RoundTrip.

(** ** Post-sale adjustments: the stock *)

Section StockInvariant.

Local Open Scope Z_scope.
Import DefectiveLogService Ledger Operations.

Lemma stockOk_alter (f : Product → Product) (k : Z) (m : gmap Z Product) :
  (∀ p, m !! k = Some p → stockOk p → stockOk (f p)) →
  map_Forall (λ _, stockOk) m → map_Forall (λ _, stockOk) (alter f k m).
Proof.
  intros Hf Hm k' p. rewrite lookup_alter. case_decide as Hk; [|by apply Hm].
  destruct (m !! k) as [p0|] eqn:Hp0; [|done]. cbn. intros [= <-].
  apply Hf; [done|]. by eapply Hm.
Qed.

Lemma restockProducts_stockOk rows ps :
  Forall (λ bp, 0 ≤ bp_quantity bp) rows →
  map_Forall (λ _, stockOk) ps → map_Forall (λ _, stockOk) (restockProducts rows ps).
Proof.
  intros Hrows. revert ps.
  induction Hrows as [|bp rows Hbp _ IH]; intros ps Hps; [done|].
  unfold restockProducts in *. cbn [foldl]. apply IH. apply stockOk_alter; [|done].
  intros p _ (? & ? & ? & ?). unfold stockOk, incrementQuantity, setQuantity. cbn. lia.
Qed.

(** The replacement half of an EXCHANGE takes the replacement units from
    the stock of the replacement product, which holds them. *)
Lemma exchangeStep_stock dto transactionId s s' :
  exchangeStep dto transactionId s = inr s' →
  ∃ replProdId repl,
    dto_exchangeWithProductId dto = Some replProdId
    ∧ products s !! replProdId = Some repl
    ∧ replacementQty dto ≤ p_quantity repl
    ∧ products s'
      = alter (setQuantity (p_quantity repl - replacementQty dto)) replProdId
              (products s)
    ∧ transactionBonusProducts s' = transactionBonusProducts s.
Proof.
  unfold exchangeStep. destruct (dto_exchangeWithProductId dto) as [r|]; [|done].
  cbv zeta.
  match goal with
  | |- context [products ?st !! r] => set (s1 := st)
  end.
  assert (products s1 = products s
          ∧ transactionBonusProducts s1 = transactionBonusProducts s) as [Hp Ht].
  { unfold s1. by case_match. }
  destruct (products s1 !! r) as [repl|] eqn:Hrepl; [|done].
  case_decide as Hlt; [done|]. intros [= <-].
  exists r, repl. rewrite <- Hp. split; [done|]. split; [done|]. split; [lia|].
  cbn. by rewrite Z.max_r by lia.
Qed.

Lemma reverseBonuses_stockInvariant tx orig quantity s :
  stockInvariant s → stockInvariant (reverseBonuses tx orig quantity s).
Proof.
  intros [Hps Hrows]. unfold reverseBonuses, stockInvariant.
  destruct (restockBonusProducts_spec (tx_id tx) s) as (Hp & Ht & _).
  cbv zeta in Hp, Ht. cbn. rewrite Hp, Ht. split.
  - apply restockProducts_stockOk; [|done].
    unfold bonusProductsOf. apply Forall_forall. intros bp Hbp.
    apply list_elem_of_filter in Hbp as [_ Hbp].
    by eapply Forall_forall in Hrows.
  - apply Forall_forall. intros bp Hbp.
    apply list_elem_of_filter in Hbp as [_ Hbp].
    by eapply Forall_forall in Hrows.
Qed.

Lemma sameStock_stockInvariant s s' :
  sameStock s s' → stockInvariant s → stockInvariant s'.
Proof. intros [Hp Ht]. unfold stockInvariant. by rewrite Hp, Ht. Qed.

Lemma exchangeStep_stockInvariant dto transactionId s s' :
  exchangeStep dto transactionId s = inr s' → stockInvariant s → stockInvariant s'.
Proof.
  intros Hstep [Hps Hrows].
  apply exchangeStep_stock in Hstep as (r & repl & _ & Hrepl & Hle & Hp & Ht).
  unfold stockInvariant. rewrite Hp, Ht. split; [|done].
  apply stockOk_alter; [|done].
  intros p Hp' (? & ? & ? & ?). simplify_eq.
  unfold stockOk, setQuantity. cbn. lia.
Qed.

Lemma linkedSaleStep_stockInvariant dto actionType s s' recalc :
  linkedSaleStep dto actionType s = inr (s', recalc) →
  stockInvariant s → stockInvariant s'.
Proof.
  unfold linkedSaleStep. intros Hstep Hinv.
  destruct (linkedTransaction dto) as [transactionId|]; [|by simplify_eq].
  destruct (transactions s !! transactionId) as [tx|]; [|by simplify_eq].
  destruct (List.find _ (tx_items tx)) as [orig|]; [|by simplify_eq].
  destruct (decide (it_quantity orig < dto_quantity dto)%Z); [done|].
  pose proof (sameStock_stockInvariant _ _
                (reduceLine_sameStock (tx_id tx) orig (dto_quantity dto) s) Hinv)
    as Hline.
  pose proof (reverseBonuses_stockInvariant tx orig (dto_quantity dto) _ Hline)
    as Hrev.
  destruct (decide (actionType = ActRETURN ∨ actionType = ActEXCHANGE));
    destruct (decide (actionType = ActRETURN));
    destruct (decide (actionType = ActEXCHANGE));
    try (destruct (exchangeStep _ _ _) as [|s2] eqn:Hex; [done|];
         apply exchangeStep_stockInvariant in Hex);
    simplify_eq; eauto.
Qed.

Lemma effects_stockOk dto actionType product s e :
  effects dto actionType product s = Some e →
  0 ≤ dto_quantity dto → stockOk product → stockOk (applyEffects e product).
Proof.
  intros He Hq (? & ? & ? & ?).
  destruct actionType; cbn in He; simplify_eq;
    unfold stockOk, applyEffects; cbn; try case_match; lia.
Qed.

(** X10.  The counters of the stock never go negative: when no product has
    a negative counter and no giveaway row a negative quantity, a completed
    action on a non-negative number of units leaves it so, whatever the
    action, the linked sale and the replacement are. *)
Theorem stock_counters_stay_nonnegative dto s log s' :
  stockInvariant s →
  0 ≤ dto_quantity dto →
  create dto s = inr (log, s') →
  stockInvariant s'.
Proof.
  intros Hinv Hq Hcreate.
  apply create_inv in Hcreate as (product & e & s1 & recalc & Hproduct & He & Hbody & ->).
  assert (stockInvariant s1) as Hinv1.
  { unfold transactionBody in Hbody. cbv zeta in Hbody.
    destruct (linkedSaleStep _ _ _) as [|[s3 r]] eqn:Hstep; [done|].
    apply linkedSaleStep_stockInvariant in Hstep.
    - injection Hbody as _ <- _.
      by destruct (JS.truthy_id (dto_branchId dto)).
    - destruct Hinv as [Hps Hrows]. split; [|done]. cbn.
      apply stockOk_alter; [|done].
      intros p Hp Hok. simplify_eq. by eapply effects_stockOk. }
  destruct (JS.truthy_id recalc) as [recalcForTxId|]; [|done].
  by eapply sameStock_stockInvariant; [apply recalculate_sameStock|].
Qed.

Lemma stock_counters_stay_nonnegative_witness :
  ∃ log s',
    create (Scenario.returnDto 2) Scenario.afterGiveaway = inr (log, s')
    ∧ stockInvariant s'.
Proof.
  eexists _, _. split; [vm_compute; reflexivity|].
  eapply (stock_counters_stay_nonnegative (Scenario.returnDto 2)
            Scenario.afterGiveaway).
  - split.
    + apply (bool_decide_unpack
               (map_Forall (λ _ p, stockOk p) (products Scenario.afterGiveaway))).
      vm_compute. exact I.
    + apply (bool_decide_unpack
               (Forall (λ bp, 0 ≤ bp_quantity bp)
                       (transactionBonusProducts Scenario.afterGiveaway))).
      vm_compute. exact I.
  - vm_compute. discriminate.
  - vm_compute. reflexivity.
Defined.

(** X11.  An EXCHANGE linked to a line of a sale, with a replacement
    product other than the returned one, moves the stock both ways: the
    returned product gains the returned units (also on its exchanged
    counter), the replacement product, which must hold them, loses the
    replacement units, and no other product changes. *)
Theorem exchange_moves_stock_both_ways dto s log s' transactionId tx orig replProdId :
  dto_actionType dto = Some ActEXCHANGE →
  linkedTransaction dto = Some transactionId →
  transactions s !! transactionId = Some tx →
  List.find (λ i, bool_decide (it_productId i = Some (dto_productId dto)))
            (tx_items tx) = Some orig →
  dto_exchangeWithProductId dto = Some replProdId →
  replProdId ≠ dto_productId dto →
  create dto s = inr (log, s') →
  ∃ product repl product' repl',
    products s !! dto_productId dto = Some product
    ∧ products s !! replProdId = Some repl
    ∧ products s' !! dto_productId dto = Some product'
    ∧ products s' !! replProdId = Some repl'
    ∧ p_quantity product' = p_quantity product + dto_quantity dto
    ∧ p_exchangedQuantity product' = p_exchangedQuantity product + dto_quantity dto
    ∧ replacementQty dto ≤ p_quantity repl
    ∧ p_quantity repl' = p_quantity repl - replacementQty dto
    ∧ ∀ other, other ≠ dto_productId dto → other ≠ replProdId →
               products s' !! other = products s !! other.
Proof.
  intros Haction Hlinked Htx Hfind Hrepl Hne Hcreate.
  apply create_inv in Hcreate as (product & e & s1 & recalc & Hproduct & He & Hbody & ->).
  rewrite Haction in He, Hbody.
  change (default ActDEFECTIVE (Some ActEXCHANGE)) with ActEXCHANGE in He, Hbody.
  assert (newQuantity e = p_quantity product + dto_quantity dto
          ∧ newExchangedQuantity e = p_exchangedQuantity product + dto_quantity dto)
    as [Hq Hx].
  { cbn in He. by simplify_eq. }
  unfold transactionBody in Hbody. cbv zeta in Hbody.
  destruct (linkedSaleStep _ _ _) as [|[s3 r]] eqn:Hstep; [done|].
  unfold linkedSaleStep in Hstep. rewrite Hlinked in Hstep.
  cbn [transactions set_products set_defectiveLogs] in Hstep.
  rewrite Htx, Hfind in Hstep.
  destruct (decide (it_quantity orig < dto_quantity dto)); [done|].
  destruct (decide (ActEXCHANGE = ActRETURN ∨ ActEXCHANGE = ActEXCHANGE))
    as [_|[]]; [|by right].
  destruct (decide (ActEXCHANGE = ActRETURN)) as [?|_]; [done|].
  destruct (decide (ActEXCHANGE = ActEXCHANGE)) as [_|[]]; [|done].
  destruct (exchangeStep _ _ _) as [|s2] eqn:Hex; [done|].
  apply exchangeStep_stock in Hex as (r' & repl & Hr' & Hlookup & Hle & Hp & _).
  rewrite Hrepl in Hr'. injection Hr' as <-.
  destruct (reduceLine_sameStock (tx_id tx) orig (dto_quantity dto)
              (set_products (alter (applyEffects e) (dto_productId dto))
                 (set_defectiveLogs
                    (λ logs, logs ++ [logOf dto ActEXCHANGE (cashAmount e)]) s)))
    as [Hp1 _].
  rewrite Hp1 in Hp, Hlookup. cbn [products set_products set_defectiveLogs] in Hp, Hlookup.
  rewrite lookup_alter_ne in Hlookup by done.
  injection Hstep as <- _. injection Hbody as _ <- _.
  assert (products
            (match JS.truthy_id recalc with
             | Some recalcForTxId =>
                 Schedule.recalculatePaymentSchedules recalcForTxId
                   (match JS.truthy_id (dto_branchId dto) with
                    | Some branchId =>
                        set_branches (alter (incrementCash (cashAmount e)) branchId) s2
                    | None => s2
                    end)
             | None =>
                 match JS.truthy_id (dto_branchId dto) with
                 | Some branchId =>
                     set_branches (alter (incrementCash (cashAmount e)) branchId) s2
                 | None => s2
                 end
             end)
          = products s2) as ->.
  { destruct (JS.truthy_id recalc) as [recalcForTxId|].
    - destruct (recalculate_sameStock recalcForTxId
                  (match JS.truthy_id (dto_branchId dto) with
                   | Some branchId =>
                       set_branches (alter (incrementCash (cashAmount e)) branchId) s2
                   | None => s2
                   end)) as [-> _].
      by destruct (JS.truthy_id (dto_branchId dto)).
    - by destruct (JS.truthy_id (dto_branchId dto)). }
  rewrite Hp.
  eexists product, repl, _, _.
  split; [done|]. split; [done|].
  split. { rewrite lookup_alter_ne by done. by rewrite lookup_alter_eq, Hproduct. }
  split. { by rewrite lookup_alter_eq, lookup_alter_ne, Hlookup by done. }
  cbn. split; [done|]. split; [done|]. split; [done|]. split; [done|].
  intros other Ho1 Ho2. by rewrite !lookup_alter_ne by done.
Qed.

Lemma exchange_moves_stock_both_ways_witness :
  ∃ log s',
    create (mkDto 7 1 (Some 5) (Some 1) (Some ActEXCHANGE) true (Some 1)
                  None None (Some 9) (Some 2) (Some (JS.num 5000)) None)
           Scenario.afterSale
    = inr (log, s')
    ∧ (p_quantity <$> products Scenario.afterSale !! 7) = Some 8
    ∧ (p_quantity <$> products s' !! 7) = Some 9
    ∧ (p_quantity <$> products Scenario.afterSale !! 9) = Some 3
    ∧ (p_quantity <$> products s' !! 9) = Some 1.
Proof.
  assert (∃ log s',
            create (mkDto 7 1 (Some 5) (Some 1) (Some ActEXCHANGE) true (Some 1)
                          None None (Some 9) (Some 2) (Some (JS.num 5000)) None)
                   Scenario.afterSale
            = inr (log, s')) as (log & s' & Hcreate)
    by (eexists _, _; vm_compute; reflexivity).
  exists log, s'. split; [exact Hcreate|].
  edestruct (exchange_moves_stock_both_ways
              (mkDto 7 1 (Some 5) (Some 1) (Some ActEXCHANGE) true (Some 1)
                     None None (Some 9) (Some 2) (Some (JS.num 5000)) None)
              Scenario.afterSale log s' 1)
    as (product & repl & product' & repl' & Hp & Hr & Hp' & Hr'
        & Hq & _ & _ & Hrq & _);
    [reflexivity | reflexivity | vm_compute; reflexivity | vm_compute; reflexivity
     | reflexivity | done | exact Hcreate |].
  cbn [dto_productId dto_quantity] in Hp, Hp', Hq.
  rewrite Hp', Hr'. cbn [fmap option_fmap option_map]. rewrite Hq, Hrq.
  vm_compute in Hp, Hr. injection Hp as <-. injection Hr as <-.
  clear Hcreate Hp' Hr' Hq Hrq. vm_compute. repeat split.
Defined.

(** The lines of a transaction survive the recomputation of its
    schedule. *)
Lemma recalculate_items transactionId s k :
  tx_items <$> transactions (Schedule.recalculatePaymentSchedules transactionId s) !! k
  = tx_items <$> transactions s !! k.
Proof.
  unfold Schedule.recalculatePaymentSchedules.
  repeat (case_match || case_decide); try done;
    cbn; rewrite lookup_alter; case_decide; try done;
    subst; by destruct (transactions s !! _).
Qed.

(** X12.  A RETURN that reaches a line of a sale rewrites
    that line and no other: the line keeps the units that were not handed
    back, priced at its unit price, and a line left without units becomes
    RETURNED with total 0.  The other lines, and their order, stay. *)
Theorem sold_line_reduced_by_returned_units dto s log s' transactionId tx orig :
  wf_store s →
  dto_actionType dto = Some ActRETURN →
  linkedTransaction dto = Some transactionId →
  transactions s !! transactionId = Some tx →
  List.find (λ i, bool_decide (it_productId i = Some (dto_productId dto)))
            (tx_items tx) = Some orig →
  create dto s = inr (log, s') →
  dto_quantity dto ≤ it_quantity orig
  ∧ tx_items <$> transactions s' !! transactionId
    = Some ((λ it, if decide (it_id it = it_id orig)
                   then reducedLine orig (dto_quantity dto) it else it)
              <$> tx_items tx).
Proof.
  intros Hwf Haction Hlinked Htx Hfind Hcreate.
  apply create_inv in Hcreate as (product & e & s1 & recalc & Hproduct & He & Hbody & ->).
  rewrite Haction in He, Hbody.
  change (default ActDEFECTIVE (Some ActRETURN)) with ActRETURN in He, Hbody.
  unfold transactionBody in Hbody. cbv zeta in Hbody.
  destruct (linkedSaleStep _ _ _) as [|[s3 r]] eqn:Hstep; [done|].
  unfold linkedSaleStep in Hstep. rewrite Hlinked in Hstep.
  cbn [transactions set_products set_defectiveLogs] in Hstep.
  rewrite Htx, Hfind in Hstep.
  destruct (decide (it_quantity orig < dto_quantity dto)) as [|Hle]; [done|].
  split; [lia|].
  destruct (decide (ActRETURN = ActRETURN ∨ ActRETURN = ActEXCHANGE))
    as [_|[]]; [|by left].
  destruct (decide (ActRETURN = ActRETURN)) as [_|[]]; [|done].
  destruct (decide (ActRETURN = ActEXCHANGE)) as [?|_]; [done|].
  injection Hstep as <- _. injection Hbody as _ <- _.
  pose proof (Hwf _ _ Htx) as Hid.
  assert (∀ st, tx_items <$> transactions
            (match JS.truthy_id recalc with
             | Some recalcForTxId =>
                 Schedule.recalculatePaymentSchedules recalcForTxId
                   (match JS.truthy_id (dto_branchId dto) with
                    | Some branchId =>
                        set_branches (alter (incrementCash (cashAmount e)) branchId) st
                    | None => st
                    end)
             | None =>
                 match JS.truthy_id (dto_branchId dto) with
                 | Some branchId =>
                     set_branches (alter (incrementCash (cashAmount e)) branchId) st
                 | None => st
                 end
             end) !! transactionId
          = tx_items <$> transactions st !! transactionId) as ->.
  { intros st. destruct (JS.truthy_id recalc) as [recalcForTxId|].
    - rewrite recalculate_items. by destruct (JS.truthy_id (dto_branchId dto)).
    - by destruct (JS.truthy_id (dto_branchId dto)). }
  unfold reverseBonuses. rewrite Hid.
  cbn [transactions set_transactions set_bonuses].
  destruct (restockBonusProducts_spec transactionId
              (reduceLine transactionId orig (dto_quantity dto)
                 (set_products (alter (applyEffects e) (dto_productId dto))
                    (set_defectiveLogs
                       (λ logs, logs ++ [logOf dto ActRETURN (cashAmount e)]) s))))
    as (_ & _ & Htxs).
  cbv zeta in Htxs. rewrite lookup_alter_eq, Htxs.
  unfold reduceLine, reducedLine. cbv zeta.
  rewrite Z.max_r by lia.
  destruct (decide (it_quantity orig - dto_quantity dto = 0)) as [Hz|Hnz].
  - unfold updateItem. cbn. by rewrite lookup_alter_eq, Htx.
  - unfold updateItem. cbn. by rewrite lookup_alter_eq, Htx.
Qed.

Lemma sold_line_reduced_by_returned_units_witness :
  ∃ log s',
    create (Scenario.returnDto 2) Scenario.afterSale = inr (log, s')
    ∧ ((λ items, (λ it, (it_quantity it, it_status it)) <$> items)
         <$> (tx_items <$> transactions s' !! 1))
      = Some [(0, Some RETURNED)].
Proof.
  assert (∃ log s', create (Scenario.returnDto 2) Scenario.afterSale = inr (log, s'))
    as (log & s' & Hcreate) by (eexists _, _; vm_compute; reflexivity).
  exists log, s'. split; [exact Hcreate|].
  edestruct (sold_line_reduced_by_returned_units
              (Scenario.returnDto 2) Scenario.afterSale log s' 1)
    as [_ Hlines];
    [| reflexivity | reflexivity | vm_compute; reflexivity | vm_compute; reflexivity
     | exact Hcreate |].
  { apply (bool_decide_unpack
             (map_Forall (λ k t, tx_id t = k) (transactions Scenario.afterSale))).
    vm_compute. exact I. }
  rewrite Hlines. vm_compute. reflexivity.
Defined.

End StockInvariant.

(** ** Debts and installments *)

Section Debts.

Local Open Scope Qc_scope.
Import Operations.

Lemma marked_fields transactionId month paid r r' :
  marked transactionId month paid r r' →
  ps_transactionId r' = ps_transactionId r ∧ ps_month r' = ps_month r
  ∧ ps_payment r' = ps_payment r ∧ ps_paidAmount r' = ps_paidAmount r
  ∧ ps_isPaid r' = ps_isPaid r.
Proof. by intros [->|(_ & _ & _ & ->)]. Qed.

Lemma marked_refl transactionId month paid rows :
  Forall2 (marked transactionId month paid) rows rows.
Proof. apply Forall_Forall2_diag, Forall_forall. intros r _. by left. Qed.

Lemma marked_filter transactionId month paid (P : PaymentSchedule → Prop)
    `{∀ r, Decision (P r)} rows rows' :
  (∀ r r', marked transactionId month paid r r' → P r ↔ P r') →
  Forall2 (marked transactionId month paid) rows rows' →
  Forall2 (marked transactionId month paid) (filter P rows) (filter P rows').
Proof.
  intros HP. induction 1 as [|r r' rows rows' Hr Hrows IH]; [constructor|].
  rewrite !filter_cons. pose proof (HP r r' Hr) as Hiff.
  destruct (decide (P r)), (decide (P r')); try tauto.
  by constructor.
Qed.

Lemma marked_insertByMonth transactionId month paid r r' rows rows' :
  marked transactionId month paid r r' →
  Forall2 (marked transactionId month paid) rows rows' →
  Forall2 (marked transactionId month paid)
          (insertByMonth r rows) (insertByMonth r' rows').
Proof.
  intros Hr. induction 1 as [|x x' rows rows' Hx Hrows IH].
  - cbn. constructor; [done|constructor].
  - cbn [insertByMonth].
    destruct (marked_fields _ _ _ _ _ Hr) as (_ & -> & _).
    destruct (marked_fields _ _ _ _ _ Hx) as (_ & -> & _).
    case_decide.
    + constructor; done.
    + constructor; [done|]. constructor; done.
Qed.

Lemma sortByMonth_Forall (P : PaymentSchedule → Prop) rows :
  Forall P rows → Forall P (sortByMonth rows).
Proof.
  induction 1 as [|r rows Hr Hrows IH]; [constructor|].
  cbn [sortByMonth foldr]. fold (sortByMonth rows).
  induction IH as [|x l Hx Hl IHl]; cbn [insertByMonth].
  - by constructor.
  - case_decide; constructor; try done. by constructor.
Qed.

Lemma marked_sortByMonth transactionId month paid rows rows' :
  Forall2 (marked transactionId month paid) rows rows' →
  Forall2 (marked transactionId month paid) (sortByMonth rows) (sortByMonth rows').
Proof.
  induction 1 as [|r r' rows rows' Hr Hrows IH]; [constructor|].
  cbn. by apply marked_insertByMonth.
Qed.

Lemma marked_foldl transactionId month paid (h : PaymentSchedule → Qc) rows rows' a :
  (∀ r r', marked transactionId month paid r r' → h r' = h r) →
  Forall2 (marked transactionId month paid) rows rows' →
  foldl (λ sum r, sum + h r) a rows' = foldl (λ sum r, sum + h r) a rows.
Proof.
  intros Hh Hrows. revert a.
  induction Hrows as [|r r' rows rows' Hr Hrows IH]; intros a; [done|].
  cbn [foldl]. by rewrite (Hh r r' Hr), IH.
Qed.

Lemma marked_find transactionId month paid rows rows' :
  Forall2 (marked transactionId month paid) rows rows' →
  option_Forall2 (marked transactionId month paid)
                 (snd <$> list_find due rows) (snd <$> list_find due rows').
Proof.
  induction 1 as [|r r' rows rows' Hr Hrows IH]; [constructor|].
  cbn [list_find].
  assert (due r ↔ due r') as Hdue.
  { unfold due. destruct (marked_fields _ _ _ _ _ Hr) as (_ & _ & -> & -> & ->).
    done. }
  destruct (decide (due r)), (decide (due r')); try tauto.
  - by constructor.
  - destruct (list_find due rows) as [[i x]|], (list_find due rows') as [[i' x']|];
      cbn in *; inversion IH; subst; by constructor.
Qed.

(** The rows before and after an update of the payment status. *)
Lemma updatePaymentStatus_marked transactionId month paid s s' :
  updatePaymentStatus transactionId month paid s = inr s' →
  Forall2 (marked transactionId month paid) (paymentSchedules s) (paymentSchedules s')
  ∧ products s' = products s ∧ branches s' = branches s ∧ users s' = users s
  ∧ transactions s' = transactions s
  ∧ transactionBonusProducts s' = transactionBonusProducts s
  ∧ bonuses s' = bonuses s ∧ defectiveLogs s' = defectiveLogs s
  ∧ nextId s' = nextId s.
Proof.
  unfold updatePaymentStatus. case_decide; [done|].
  destruct (list_find _ _) as [[i r]|] eqn:Hfind; [|done]. intros [= <-].
  apply list_find_Some in Hfind as (Hi & [Htid Hmonth] & _).
  split; [|done]. cbn [paymentSchedules set_paymentSchedules].
  assert (marked transactionId month paid r
            (setBalance (if paid then 0 else ps_remainingBalance r) r)) as Hr.
  { destruct paid; [by right|]. left. by destruct r. }
  revert Hr. generalize (setBalance (if paid then 0 else ps_remainingBalance r) r).
  intros r' Hr. clear -Hi Hr. revert i Hi.
  induction (paymentSchedules s) as [|x rows IH]; intros i Hi; [done|].
  destruct i as [|i]; cbn in Hi.
  - injection Hi as ->. cbn. constructor; [done|apply marked_refl].
  - cbn. constructor; [by left|by apply IH].
Qed.

(** X13.  Marking an instalment paid or unpaid reaches the debt list in
    one place only.  The update rewrites the remainingBalance of one row, so
    for every transaction the payable, paid and outstanding figures, the
    monthly payment, the lines, and the month and the amount of the next
    instalment due stay what they were, and so does the set of transactions
    that are listed as debts; the remainingBalance shown for the next
    instalment due is the only figure that can change: it becomes 0 when the
    row addressed, marked paid, is the next one due.  The paid flags of the
    rows are not written, and with [paid = false] the store is not changed
    at all. *)
Theorem payment_status_leaves_debts (transactionId month : Z) (paid : bool)
    (s s' : Store) :
  updatePaymentStatus transactionId month paid s = inr s' →
  (∀ t,
     debt_transactionId (debtOf s' t) = debt_transactionId (debtOf s t)
     ∧ debt_paymentType (debtOf s' t) = debt_paymentType (debtOf s t)
     ∧ debt_totalPayable (debtOf s' t) = debt_totalPayable (debtOf s t)
     ∧ debt_totalPaid (debtOf s' t) = debt_totalPaid (debtOf s t)
     ∧ debt_outstanding (debtOf s' t) = debt_outstanding (debtOf s t)
     ∧ debt_monthlyPayment (debtOf s' t) = debt_monthlyPayment (debtOf s t)
     ∧ debt_items (debtOf s' t) = debt_items (debtOf s t)
     ∧ option_Forall2
         (λ due due',
            nd_month due' = nd_month due
            ∧ nd_amountDue due' = nd_amountDue due
            ∧ (nd_remainingBalance due' = nd_remainingBalance due
               ∨ (paid = true ∧ tx_id t = transactionId ∧ nd_month due = month
                  ∧ nd_remainingBalance due' = 0)))
         (debt_nextDue (debtOf s t)) (debt_nextDue (debtOf s' t)))
  ∧ (∀ ts, debt_transactionId <$> debtsOf s' ts = debt_transactionId <$> debtsOf s ts)
  ∧ (∀ ts, totalOutstanding (debtsOf s' ts) = totalOutstanding (debtsOf s ts))
  ∧ ps_isPaid <$> paymentSchedules s' = ps_isPaid <$> paymentSchedules s
  ∧ (paid = false → s' = s).
Proof.
  intros Hupdate.
  destruct (updatePaymentStatus_marked _ _ _ _ _ Hupdate)
    as (Hrows & Hp & Hb & Hu & Ht & Hbp & Hbon & Hl & Hn).
  assert (∀ t, Forall2 (marked transactionId month paid)
                 (sortByMonth (Schedule.schedulesOf (tx_id t) s))
                 (sortByMonth (Schedule.schedulesOf (tx_id t) s'))) as Hsorted.
  { intros t. apply marked_sortByMonth. unfold Schedule.schedulesOf.
    apply marked_filter; [|done].
    intros r r' Hr. by destruct (marked_fields _ _ _ _ _ Hr) as (-> & _). }
  assert (∀ t,
     debt_transactionId (debtOf s' t) = debt_transactionId (debtOf s t)
     ∧ debt_paymentType (debtOf s' t) = debt_paymentType (debtOf s t)
     ∧ debt_totalPayable (debtOf s' t) = debt_totalPayable (debtOf s t)
     ∧ debt_totalPaid (debtOf s' t) = debt_totalPaid (debtOf s t)
     ∧ debt_outstanding (debtOf s' t) = debt_outstanding (debtOf s t)
     ∧ debt_monthlyPayment (debtOf s' t) = debt_monthlyPayment (debtOf s t)
     ∧ debt_items (debtOf s' t) = debt_items (debtOf s t)
     ∧ option_Forall2
         (λ due due',
            nd_month due' = nd_month due
            ∧ nd_amountDue due' = nd_amountDue due
            ∧ (nd_remainingBalance due' = nd_remainingBalance due
               ∨ (paid = true ∧ tx_id t = transactionId ∧ nd_month due = month
                  ∧ nd_remainingBalance due' = 0)))
         (debt_nextDue (debtOf s t)) (debt_nextDue (debtOf s' t))) as Hdebt.
  { intros t. specialize (Hsorted t).
    assert (Forall (λ r, ps_transactionId r = tx_id t)
                   (sortByMonth (Schedule.schedulesOf (tx_id t) s))) as Hown.
    { apply sortByMonth_Forall, Forall_forall. intros r Hr.
      by apply list_elem_of_filter in Hr as [Hr _]. }
    unfold debtOf. cbv zeta.
    cbn [debt_transactionId debt_paymentType debt_totalPayable debt_totalPaid
         debt_outstanding debt_monthlyPayment debt_items debt_nextDue].
    rewrite (marked_foldl transactionId month paid
               (λ r, JS.or_num (Some (ps_payment r)) 0) _ _ 0 ltac:(
                 intros r r' Hr;
                 by destruct (marked_fields _ _ _ _ _ Hr) as (_ & _ & -> & _))
               Hsorted).
    rewrite (marked_foldl transactionId month paid
               (λ r, JS.or_num (Some (ps_paidAmount r)) 0) _ _ 0 ltac:(
                 intros r r' Hr;
                 by destruct (marked_fields _ _ _ _ _ Hr) as (_ & _ & _ & -> & _))
               Hsorted).
    do 5 (split; [done|]). split; [|split; [done|]].
    - destruct Hsorted as [|r r' rows rows' Hr _]; [done|].
      by destruct (marked_fields _ _ _ _ _ Hr) as (_ & _ & -> & _).
    - pose proof (marked_find _ _ _ _ _ Hsorted) as Hfind.
      assert (∀ r, snd <$> list_find due
                     (sortByMonth (Schedule.schedulesOf (tx_id t) s)) = Some r →
                   ps_transactionId r = tx_id t) as Hfound.
      { intros r Hr. destruct (list_find _ _) as [[i x]|] eqn:Hx; [|done].
        injection Hr as <-. apply list_find_Some in Hx as (Hx & _).
        eapply Forall_lookup_1 in Hown; [|exact Hx]. done. }
      destruct Hfind as [r r' Hr|]; [|constructor]. constructor.
      specialize (Hfound r eq_refl).
      destruct (marked_fields _ _ _ _ _ Hr) as (_ & Hm & Hpay & Hpaid & _).
      cbn [nextDueOf nd_month nd_amountDue nd_remainingBalance].
      rewrite Hm, Hpay, Hpaid. split; [done|]. split; [done|].
      destruct Hr as [->|(Hpaid' & Htid & Hmonth & ->)]; [by left|].
      right. rewrite <- Hfound. done. }
  assert (∀ ts, Forall2 (λ d d', debt_transactionId d' = debt_transactionId d
                               ∧ debt_outstanding d' = debt_outstanding d)
                  (debtsOf s ts) (debtsOf s' ts)) as Hlisted.
  { intros ts. unfold debtsOf. induction ts as [|t ts IH]; [constructor|].
    rewrite !fmap_cons, !filter_cons.
    destruct (Hdebt t) as (Hid & _ & _ & _ & Hout & _). rewrite Hout.
    case_decide; [|done]. by constructor. }
  split; [exact Hdebt|]. split; [|split; [|split]].
  - intros ts. induction (Hlisted ts) as [|d d' ds ds' [Hd _] _ IH]; [done|].
    rewrite !fmap_cons. by rewrite Hd, IH.
  - intros ts. unfold totalOutstanding. generalize (0 : Qc).
    induction (Hlisted ts) as [|d d' ds ds' [_ Hd] _ IH]; intros a; [done|].
    cbn [foldl]. by rewrite Hd, IH.
  - clear -Hrows. induction Hrows as [|r r' rows rows' Hr _ IH]; [done|].
    rewrite !fmap_cons, IH.
    by destruct (marked_fields _ _ _ _ _ Hr) as (_ & _ & _ & _ & ->).
  - intros ->. apply store_ext; try done.
    clear -Hrows. induction Hrows as [|r r' rows rows' Hr _ IH]; [done|].
    rewrite IH. by destruct Hr as [->|(? & _)].
Qed.

Lemma payment_status_leaves_debts_witness :
  ∃ s' t,
    updatePaymentStatus 1 1 true Scenario.afterSale = inr s'
    ∧ transactions Scenario.afterSale !! 1%Z = Some t
    ∧ debt_outstanding (debtOf s' t) = debt_outstanding (debtOf Scenario.afterSale t)
    ∧ (nd_month <$> debt_nextDue (debtOf s' t)) = Some 1%Z
    ∧ (nd_remainingBalance <$> debt_nextDue (debtOf s' t)) = Some 0
    ∧ (nd_remainingBalance <$> debt_nextDue (debtOf Scenario.afterSale t)) ≠ Some 0.
Proof.
  assert (∃ s', updatePaymentStatus 1 1 true Scenario.afterSale = inr s')
    as (s' & Hupdate) by (eexists; vm_compute; reflexivity).
  assert (∃ t, transactions Scenario.afterSale !! 1%Z = Some t) as (t & Ht)
    by (eexists; vm_compute; reflexivity).
  destruct (payment_status_leaves_debts 1 1 true Scenario.afterSale s' Hupdate)
    as (Hdebt & _).
  destruct (Hdebt t) as (_ & _ & _ & _ & Hout & _).
  exists s', t. split; [exact Hupdate|]. split; [exact Ht|]. split; [exact Hout|].
  clear Hdebt Hout.
  assert (s' = default s' (match updatePaymentStatus 1 1 true Scenario.afterSale with
                           | inr st => Some st
                           | inl _ => None
                           end)) as -> by by rewrite Hupdate.
  assert (t = default t (transactions Scenario.afterSale !! 1%Z)) as ->
    by by rewrite Ht.
  clear. split; [vm_compute; reflexivity|].
  split; [by_evaluation|]. by_evaluation.
Defined.

(** X14.  Once every line of a credit or installment sale has been handed
    back, the recomputation leaves the sale without schedule rows, and a
    sale without rows, whose upfront figures are not negative, is not listed
    among the debts. *)
Theorem fully_returned_sale_leaves_no_debt (s : Store) (transactionId : Z)
    (transaction : Transaction) :
  transactions s !! transactionId = Some transaction →
  tx_id transaction = transactionId →
  isCredit (tx_paymentType transaction) = true →
  Schedule.remainingItems (tx_items transaction) = [] →
  0 ≤ JS.or_num (tx_downPayment transaction) 0
      + JS.or_num (tx_amountPaid transaction) 0 →
  transactions (Schedule.recalculatePaymentSchedules transactionId s) !! transactionId
  = Some transaction
  ∧ Schedule.schedulesOf transactionId
      (Schedule.recalculatePaymentSchedules transactionId s) = []
  ∧ debtsOf (Schedule.recalculatePaymentSchedules transactionId s) [transaction] = [].
Proof.
  intros Htx Hid Hcredit Hnone Hupfront.
  unfold Schedule.recalculatePaymentSchedules. rewrite Htx, Hcredit. cbn [negb].
  cbv zeta. rewrite Hnone. rewrite decide_True by done.
  assert (Schedule.schedulesOf transactionId
            (if decide (0 < length (Schedule.schedulesOf transactionId s))%nat
             then Schedule.deleteSchedules transactionId s else s) = []) as Hrows.
  { unfold Schedule.schedulesOf at 1. rewrite schedules_after_delete.
    apply (filter_filter_neg (λ r, ps_transactionId r = transactionId)). }
  split; [by case_decide|]. split; [exact Hrows|].
  unfold debtsOf, debtOf. cbn [fmap list_fmap]. rewrite Hid, Hrows.
  cbn [sortByMonth foldr foldl].
  rewrite filter_cons_False; [done|].
  cbn [debt_outstanding]. rewrite js_max_0_of_nonpos; [apply Qc_lt_irrefl|].
  replace (0 - (0 + (JS.or_num (tx_downPayment transaction) 0
                     + JS.or_num (tx_amountPaid transaction) 0)))
    with (- (JS.or_num (tx_downPayment transaction) 0
             + JS.or_num (tx_amountPaid transaction) 0)) by ring.
  apply Qcopp_le_compat in Hupfront. exact Hupfront.
Qed.

Lemma fully_returned_sale_leaves_no_debt_witness :
  ∃ transaction,
    transactions (default Scenario.store0 Scenario.afterFullReturnWrite) !! 1%Z
    = Some transaction
    ∧ Schedule.schedulesOf 1 (default Scenario.store0 Scenario.afterFullReturnWrite)
      ≠ []
    ∧ debtsOf (Schedule.recalculatePaymentSchedules 1
                 (default Scenario.store0 Scenario.afterFullReturnWrite))
              [transaction] = [].
Proof.
  eexists. split; [vm_compute; reflexivity|]. split; [vm_compute; discriminate|].
  eapply (fully_returned_sale_leaves_no_debt
            (default Scenario.store0 Scenario.afterFullReturnWrite) 1).
  - vm_compute. reflexivity.
  - reflexivity.
  - reflexivity.
  - vm_compute. reflexivity.
  - by_evaluation.
Defined.

End Debts.

(** ** The cashier report and the cashier listing *)

Section Reports.

Local Open Scope Qc_scope.
Import DefectiveLogService Ledger Operations.

Lemma Qc_nonneg_add (a b : Qc) : 0 ≤ a → 0 ≤ b → 0 ≤ a + b.
Proof.
  intros Ha Hb. replace 0 with (0 + 0) by ring. by apply Qcplus_le_compat.
Qed.

Lemma Qc_sign_cases (x : Qc) : 0 < x ∨ x = 0 ∨ x < 0.
Proof.
  destruct (decide (0 < x)) as [|Hn]; [by left|]. right.
  apply Qcnot_lt_le, Qcle_lt_or_eq in Hn as [|]; eauto.
Qed.

Lemma js_abs_of_neg (x : Qc) : x < 0 → JS.abs x = - x.
Proof. intros Hx. unfold JS.abs. by rewrite decide_True. Qed.

Lemma defectiveStep_net (acc : Qc * Qc) (log : DefectiveLog) :
  (defectiveStep acc log).1 - (defectiveStep acc log).2
  = acc.1 - acc.2 + dl_cashAmount log
  ∧ (0 ≤ acc.1 → 0 ≤ (defectiveStep acc log).1)
  ∧ (0 ≤ acc.2 → 0 ≤ (defectiveStep acc log).2).
Proof.
  unfold defectiveStep. rewrite or_num_Some. cbv zeta.
  destruct (Qc_sign_cases (dl_cashAmount log)) as [Hpos|[Hzero|Hneg]].
  - rewrite decide_True by done. cbn. split; [ring|]. split; [|done].
    intros Ha. apply Qc_nonneg_add; [done|]. by apply Qclt_le_weak.
  - rewrite Hzero. rewrite !decide_False by apply Qc_lt_irrefl.
    split; [ring|done].
  - rewrite decide_False by by apply Qc_lt_asym.
    rewrite decide_True by done. cbn. rewrite js_abs_of_neg by done.
    split; [ring|]. split; [done|].
    intros Ha. apply Qc_nonneg_add; [done|].
    apply Qclt_le_weak. by apply Qc_neg_pos.
Qed.

Lemma foldl_defectiveStep_net (logs : list DefectiveLog) (acc : Qc * Qc) :
  (foldl defectiveStep acc logs).1 - (foldl defectiveStep acc logs).2
  = acc.1 - acc.2 + foldr Qcplus 0 (dl_cashAmount <$> logs)
  ∧ (0 ≤ acc.1 → 0 ≤ (foldl defectiveStep acc logs).1)
  ∧ (0 ≤ acc.2 → 0 ≤ (foldl defectiveStep acc logs).2).
Proof.
  revert acc. induction logs as [|log logs IH]; intros acc.
  - cbn. split; [ring|done].
  - cbn [foldl fmap list_fmap foldr].
    destruct (IH (defectiveStep acc log)) as (Hnet & Hplus & Hminus).
    destruct (defectiveStep_net acc log) as (Hnet1 & Hplus1 & Hminus1).
    split; [rewrite Hnet, Hnet1; ring|]. split; eauto.
Qed.

(** X15.  In the cashier report the defective-log totals are both
    non-negative and their difference, [defectivePlus - defectiveMinus], is
    the sum of the amounts the logs record. *)
Theorem report_nets_logged_cash (logs : list DefectiveLog) :
  (defectiveTotals logs).1 - (defectiveTotals logs).2
  = foldr Qcplus 0 (dl_cashAmount <$> logs)
  ∧ 0 ≤ (defectiveTotals logs).1
  ∧ 0 ≤ (defectiveTotals logs).2.
Proof.
  unfold defectiveTotals.
  destruct (foldl_defectiveStep_net logs (0, 0)) as (Hnet & Hplus & Hminus).
  split; [rewrite Hnet; cbn; ring|]. split; [by apply Hplus|by apply Hminus].
Qed.

(** A completed [create] with a branch: the log it returns is the log it
    appends, it carries the user and the branch of the request, and the
    branch is credited with its amount. *)
Lemma create_ledger dto s log s' branchId :
  JS.truthy_id (dto_branchId dto) = Some branchId →
  create dto s = inr (log, s') →
  defectiveLogs s' = defectiveLogs s ++ [log]
  ∧ dl_userId log = dto_userId dto
  ∧ dl_branchId log = dto_branchId dto
  ∧ ∃ branch,
      branches s !! branchId = Some branch
      ∧ branches s' !! branchId
        = Some (mkBranch (br_cashBalance branch + dl_cashAmount log)).
Proof.
  intros Hid Hcreate.
  assert (is_Some (branches s !! branchId)) as [branch Hbranch].
  { unfold create in Hcreate. rewrite Hid in Hcreate.
    destruct (products s !! dto_productId dto); [|done].
    destruct (branches s !! branchId); [eauto|done]. }
  apply create_inv in Hcreate as (product & e & s1 & recalc & _ & _ & Hbody & ->).
  pose proof (transactionBody_log _ _ _ _ _ _ _ Hbody) as Hlog.
  destruct (transactionBody_cash _ _ _ _ _ _ _ _ _ Hid Hbranch Hbody) as [Hlogs Hcash].
  assert (dl_userId log = dto_userId dto ∧ dl_branchId log = dto_branchId dto)
    as [Hu Hb] by by rewrite Hlog.
  destruct (JS.truthy_id recalc) as [recalcForTxId|].
  - destruct (recalculate_sameLedger recalcForTxId s1) as [-> ->]. eauto 10.
  - eauto 10.
Qed.

(** X16.  The cashier report moves in step with the cash of the branch: an
    action the cashier completes in the branch, inside the period of the
    report, changes [defectivePlus - defectiveMinus] of the report by exactly
    the amount by which it changes the cashBalance of the branch. *)
Theorem report_follows_branch_cash (inRange : DefectiveLog → bool)
    dto s log s' cashierId branchId :
  dto_userId dto = Some cashierId →
  dto_branchId dto = Some branchId →
  branchId ≠ 0%Z →
  create dto s = inr (log, s') →
  inRange log = true →
  ∃ branch branch',
    branches s !! branchId = Some branch
    ∧ branches s' !! branchId = Some branch'
    ∧ ((defectiveTotals (reportLogs inRange cashierId branchId s')).1
       - (defectiveTotals (reportLogs inRange cashierId branchId s')).2)
      - ((defectiveTotals (reportLogs inRange cashierId branchId s)).1
         - (defectiveTotals (reportLogs inRange cashierId branchId s)).2)
      = br_cashBalance branch' - br_cashBalance branch.
Proof.
  intros Huser Hbranch Hnz Hcreate Hrange.
  assert (JS.truthy_id (dto_branchId dto) = Some branchId) as Hid
    by by apply truthy_id_Some.
  destruct (create_ledger _ _ _ _ _ Hid Hcreate)
    as (Hlogs & Hu & Hb & branch & Hbr & Hbr').
  exists branch, (mkBranch (br_cashBalance branch + dl_cashAmount log)).
  split; [done|]. split; [done|].
  unfold defectiveTotals.
  destruct (foldl_defectiveStep_net (reportLogs inRange cashierId branchId s') (0, 0))
    as [-> _].
  destruct (foldl_defectiveStep_net (reportLogs inRange cashierId branchId s) (0, 0))
    as [-> _].
  unfold reportLogs. rewrite Hlogs, filter_app.
  rewrite (filter_cons_True _ log) by (rewrite Hu, Hb, Huser, Hbranch; done).
  rewrite filter_nil, fmap_app, foldr_app. cbn [fmap list_fmap foldr].
  generalize (dl_cashAmount <$>
                filter (λ l, dl_userId l = Some cashierId
                             ∧ dl_branchId l = Some branchId ∧ inRange l = true)
                       (defectiveLogs s)).
  intros amounts. cbn [br_cashBalance].
  assert (∀ a, foldr Qcplus a amounts = foldr Qcplus 0 amounts + a) as Hsum.
  { induction amounts as [|x amounts IH]; intros a; cbn; [ring|].
    rewrite IH. ring. }
  rewrite Hsum. ring.
Qed.

Lemma report_follows_branch_cash_witness :
  ∃ log s' branch branch',
    create (Scenario.returnDto 1) Scenario.afterSale = inr (log, s')
    ∧ branches Scenario.afterSale !! 1%Z = Some branch
    ∧ branches s' !! 1%Z = Some branch'
    ∧ ((defectiveTotals (reportLogs (λ _, true) 5 1 s')).1
       - (defectiveTotals (reportLogs (λ _, true) 5 1 s')).2)
      - ((defectiveTotals (reportLogs (λ _, true) 5 1 Scenario.afterSale)).1
         - (defectiveTotals (reportLogs (λ _, true) 5 1 Scenario.afterSale)).2)
      = br_cashBalance branch' - br_cashBalance branch.
Proof.
  assert (∃ log s', create (Scenario.returnDto 1) Scenario.afterSale = inr (log, s'))
    as (log & s' & Hcreate) by (eexists _, _; vm_compute; reflexivity).
  destruct (report_follows_branch_cash (λ _, true) (Scenario.returnDto 1)
              Scenario.afterSale log s' 5 1)
    as (branch & branch' & Hb & Hb' & Hnet);
    [reflexivity | reflexivity | lia | exact Hcreate | reflexivity |].
  exists log, s', branch, branch'.
  split; [exact Hcreate|]. split; [exact Hb|]. split; [exact Hb'|exact Hnet].
Defined.

Lemma signedAmount_consistent (s : Store) (log : DefectiveLog) :
  dl_cashAmount log ≠ 0 →
  match dl_cashAdjustmentDirection log with
  | Some PLUS => 0 < dl_cashAmount log
  | Some MINUS => dl_cashAmount log < 0
  | None => True
  end →
  signedAmount s log = dl_cashAmount log.
Proof.
  intros Hnz Hdir. unfold signedAmount. rewrite or_num_Some. cbv zeta.
  assert (match dl_cashAdjustmentDirection log with
          | Some MINUS => - JS.abs (dl_cashAmount log)
          | Some PLUS => JS.abs (dl_cashAmount log)
          | None => dl_cashAmount log
          end = dl_cashAmount log) as ->.
  { destruct (dl_cashAdjustmentDirection log) as [[]|]; [| |done].
    - apply js_abs_of_nonneg. by apply Qclt_le_weak.
    - rewrite js_abs_of_neg by done. ring. }
  by rewrite bool_decide_eq_false_2.
Qed.

(** X17.  The cashier listing and the cashier report count the same money:
    over logs whose amount is not zero and whose direction, when there is
    one, agrees with the sign of the amount, the [plus] and [minus] of the
    listing are the [defectivePlus] and [defectiveMinus] of the report. *)
Theorem cashier_listing_agrees_with_report (s : Store) (logs : list DefectiveLog) :
  Forall (λ log,
            dl_cashAmount log ≠ 0
            ∧ match dl_cashAdjustmentDirection log with
              | Some PLUS => 0 < dl_cashAmount log
              | Some MINUS => dl_cashAmount log < 0
              | None => True
              end) logs →
  cashierTotals s logs = defectiveTotals logs.
Proof.
  unfold cashierTotals, defectiveTotals. generalize (0 : Qc, 0 : Qc).
  intros acc Hlogs. revert acc.
  induction Hlogs as [|log logs [Hnz Hdir] _ IH]; intros acc; [done|].
  cbn [foldl]. rewrite <- IH. f_equal.
  unfold cashierStep, defectiveStep. cbv zeta.
  rewrite signedAmount_consistent, or_num_Some by done.
  rewrite decide_False by done.
  destruct (decide (0 < dl_cashAmount log)) as [|Hn]; [done|].
  rewrite decide_True; [done|].
  destruct (Qc_sign_cases (dl_cashAmount log)) as [|[|]]; done.
Qed.

Lemma cashier_listing_agrees_with_report_witness :
  cashierTotals Scenario.afterSale
    [logOf (Scenario.returnDto 1) ActRETURN (- JS.num 1450);
     mkLog 7 1 (Some 5%Z) (Some 1%Z) (JS.num 500) ActEXCHANGE None None (Some PLUS)]
  = defectiveTotals
      [logOf (Scenario.returnDto 1) ActRETURN (- JS.num 1450);
       mkLog 7 1 (Some 5%Z) (Some 1%Z) (JS.num 500) ActEXCHANGE None None (Some PLUS)].
Proof.
  apply cashier_listing_agrees_with_report.
  constructor.
  { cbn. split; [|done]. intros Heq. apply (f_equal this) in Heq. discriminate. }
  constructor; [|constructor].
  cbn. split; [|by_evaluation]. intros Heq. apply (f_equal this) in Heq. discriminate.
Defined.

End Reports.

(** ** Sales: stock, removal and the schedule of a fresh sale *)

Section Sales.

Local Open Scope Z_scope.
Import TransactionService Ledger Operations.

Lemma unitsOf_cons productId item items :
  unitsOf productId (item :: items)
  = (if decide (JS.truthy_id (it_productId item) = Some productId)
     then it_quantity item else 0) + unitsOf productId items.
Proof.
  unfold unitsOf. rewrite filter_cons. by case_decide.
Qed.

Lemma unitsOf_nonneg productId items :
  Forall (λ it, 0 ≤ it_quantity it) items → 0 ≤ unitsOf productId items.
Proof.
  induction 1 as [|item items Hq _ IH]; [done|].
  rewrite unitsOf_cons. case_decide; lia.
Qed.

(** The stock update writes the product table only. *)
Lemma foldl_updateProductQuantity_frame type items s :
  transactions (foldl (updateProductQuantity type) s items) = transactions s
  ∧ paymentSchedules (foldl (updateProductQuantity type) s items) = paymentSchedules s
  ∧ branches (foldl (updateProductQuantity type) s items) = branches s
  ∧ defectiveLogs (foldl (updateProductQuantity type) s items) = defectiveLogs s
  ∧ transactionBonusProducts (foldl (updateProductQuantity type) s items)
    = transactionBonusProducts s
  ∧ bonuses (foldl (updateProductQuantity type) s items) = bonuses s.
Proof.
  revert s. induction items as [|item items IH]; intros s; [done|].
  cbn [foldl]. destruct (IH (updateProductQuantity type s item))
    as (-> & -> & -> & -> & -> & ->).
  unfold updateProductQuantity.
  destruct (JS.truthy_id (it_productId item)) as [productId|]; [|done].
  destruct (products s !! productId) as [product|]; [|done].
  by destruct type.
Qed.

(** A sale whose lines ask for no more units than the store holds lowers
    each product by the units its lines name. *)
Lemma sale_stock items s :
  Forall (λ it, 0 ≤ it_quantity it) items →
  (∀ productId p, products s !! productId = Some p →
                  unitsOf productId items ≤ p_quantity p) →
  ∀ productId,
    p_quantity <$> products (foldl (updateProductQuantity SALE) s items) !! productId
    = (λ p, p_quantity p - unitsOf productId items) <$> products s !! productId.
Proof.
  intros Hq. revert s. induction Hq as [|item items Hitem Hrest IH]; intros s Hstock pid.
  { cbn. destruct (products s !! pid); [|done]. cbn. f_equal. unfold unitsOf. cbn. lia. }
  cbn [foldl]. pose proof (unitsOf_nonneg pid items Hrest) as Hnn.
  unfold updateProductQuantity at 2.
  destruct (JS.truthy_id (it_productId item)) as [productId|] eqn:Hid; cycle 1.
  { rewrite IH.
    - rewrite unitsOf_cons, Hid. by rewrite decide_False by done.
    - intros k p Hp. specialize (Hstock k p Hp).
      rewrite unitsOf_cons, Hid in Hstock. by rewrite decide_False in Hstock by done. }
  destruct (products s !! productId) as [product|] eqn:Hproduct; cycle 1.
  { rewrite IH.
    - rewrite unitsOf_cons, Hid. case_decide as Heq; [|done].
      injection Heq as ->. by rewrite Hproduct.
    - intros k p Hp. specialize (Hstock k p Hp).
      rewrite unitsOf_cons in Hstock. pose proof (unitsOf_nonneg k items Hrest).
      case_decide; lia. }
  pose proof (Hstock productId product Hproduct) as Henough.
  rewrite unitsOf_cons, Hid, decide_True in Henough by done.
  pose proof (unitsOf_nonneg productId items Hrest) as Hnn'.
  rewrite IH.
  - cbn [products set_products]. rewrite lookup_alter, unitsOf_cons, Hid.
    destruct (decide (productId = pid)) as [->|Hne].
    + destruct (decide (Some pid = Some pid)); [|done].
      rewrite Hproduct. cbn. f_equal. lia.
    + destruct (decide (Some productId = Some pid)); [congruence|].
      by destruct (products s !! pid).
  - intros k p. cbn [products set_products]. rewrite lookup_alter.
    destruct (decide (productId = k)) as [->|Hne].
    + rewrite Hproduct. cbn. intros [= <-]. cbn. lia.
    + intros Hp. specialize (Hstock k p Hp). rewrite unitsOf_cons, Hid in Hstock.
      destruct (decide (Some productId = Some k)); [congruence|]. lia.
Qed.

Lemma foldl_putBackLine_None items : foldl putBackLine None items = None.
Proof. by induction items. Qed.

(** The restock loop of [remove], when it runs to its end, raises each
    product by the units the lines name and writes nothing else. *)
Lemma foldl_putBackLine_Some items s s1 :
  foldl putBackLine (Some s) items = Some s1 →
  transactions s1 = transactions s
  ∧ paymentSchedules s1 = paymentSchedules s
  ∧ branches s1 = branches s
  ∧ defectiveLogs s1 = defectiveLogs s
  ∧ ∀ productId,
      p_quantity <$> products s1 !! productId
      = (λ p, p_quantity p + unitsOf productId items) <$> products s !! productId.
Proof.
  revert s. induction items as [|item items IH]; intros s.
  { cbn. intros [= <-]. do 4 (split; [done|]). intros pid.
    destruct (products s !! pid); [|done]. cbn. f_equal. unfold unitsOf. cbn. lia. }
  cbn [foldl]. unfold putBackLine at 2. cbn [mbind option_bind].
  destruct (JS.truthy_id (it_productId item)) as [productId|] eqn:Hid; cycle 1.
  { intros Hfold. destruct (IH _ Hfold) as (-> & -> & -> & -> & Hq).
    do 4 (split; [done|]). intros pid. rewrite Hq, unitsOf_cons, Hid.
    by rewrite decide_False by done. }
  destruct (products s !! productId) as [product|] eqn:Hproduct;
    [|by rewrite foldl_putBackLine_None].
  intros Hfold. destruct (IH _ Hfold) as (-> & -> & -> & -> & Hq).
  do 4 (split; [done|]). intros pid. rewrite Hq, unitsOf_cons, Hid.
  cbn [products set_products]. rewrite lookup_alter.
  destruct (decide (productId = pid)) as [->|Hne].
  - rewrite decide_True by done. rewrite Hproduct. cbn. f_equal. lia.
  - rewrite decide_False by congruence. by destruct (products s !! pid).
Qed.

(** The restock loop runs to its end when the products of the lines
    exist. *)
Lemma foldl_putBackLine_total items s :
  Forall (λ it, ∀ productId, JS.truthy_id (it_productId it) = Some productId →
                             is_Some (products s !! productId)) items →
  is_Some (foldl putBackLine (Some s) items).
Proof.
  intros Hitems. revert s Hitems.
  induction items as [|item items IH]; intros s Hitems; [by eexists|].
  apply Forall_cons in Hitems as [Hitem Hitems].
  cbn [foldl]. unfold putBackLine at 2. cbn [mbind option_bind].
  destruct (JS.truthy_id (it_productId item)) as [productId|] eqn:Hid;
    [|by apply IH].
  destruct (Hitem productId eq_refl) as [product Hproduct]. rewrite Hproduct.
  apply IH. eapply Forall_impl; [exact Hitems|].
  intros it Hit pid Hpid. cbn [products set_products]. rewrite lookup_alter.
  case_decide as Heq; [|by apply Hit]. subst. rewrite Hproduct. by eexists.
Qed.

(** X18.  A completed [remove] deletes the transaction and its schedule
    rows, leaves the rows of the other transactions, and raises the quantity
    of each product by the units the lines of the transaction name, whatever
    the type of the transaction is; a COMPLETED transaction is removed for an
    ADMIN only. *)
Theorem remove_puts_lines_back (id : Z) (role : option Role)
    (statuses : gmap Z TransactionStatus) (s s' : Store) :
  remove id role statuses s = inr s' →
  ∃ transaction,
    transactions s !! id = Some transaction
    ∧ (statuses !! id = Some COMPLETED → role = Some ADMIN)
    ∧ transactions s' = delete id (transactions s)
    ∧ Schedule.schedulesOf id s' = []
    ∧ (∀ other, other ≠ id →
                Schedule.schedulesOf other s' = Schedule.schedulesOf other s)
    ∧ ∀ productId,
        p_quantity <$> products s' !! productId
        = (λ p, p_quantity p + unitsOf productId (tx_items transaction))
            <$> products s !! productId.
Proof.
  unfold remove. case_decide; [done|].
  destruct (transactions s !! id) as [transaction|]; [|done].
  destruct (bool_decide (statuses !! id = Some COMPLETED)
            && negb (bool_decide (role = Some ADMIN))) eqn:Hguard; [done|].
  destruct (foldl putBackLine (Some s) (tx_items transaction)) as [s1|] eqn:Hfold;
    [|done].
  intros [= <-]. exists transaction.
  destruct (foldl_putBackLine_Some _ _ _ Hfold) as (Ht & Hrows & _ & _ & Hq).
  split; [done|]. split.
  { intros Hcompleted. rewrite bool_decide_eq_true_2 in Hguard by done.
    cbn in Hguard. apply negb_false_iff in Hguard. by apply bool_decide_eq_true in Hguard. }
  cbn [transactions products set_transactions set_paymentSchedules].
  split; [by rewrite Ht|].
  unfold Schedule.schedulesOf. cbn [paymentSchedules set_transactions set_paymentSchedules].
  rewrite Hrows. split; [|split; [|done]].
  - apply (filter_filter_neg (λ r, ps_transactionId r = id)).
  - intros other Hother. rewrite list_filter_filter. apply list_filter_iff.
    intros r. split; [tauto|]. intros Hr. split; [done|]. congruence.
Qed.

Lemma remove_puts_lines_back_witness :
  ∃ s',
    remove 1 None ∅ Scenario.afterSale = inr s'
    ∧ transactions s' !! 1 = None
    ∧ (p_quantity <$> products Scenario.afterSale !! 7) = Some 8
    ∧ (p_quantity <$> products s' !! 7) = Some 10.
Proof.
  assert (∃ s', remove 1 None ∅ Scenario.afterSale = inr s') as [s' Hremove]
    by (eexists; vm_compute; reflexivity).
  exists s'. split; [exact Hremove|].
  destruct (remove_puts_lines_back 1 None ∅ Scenario.afterSale s' Hremove)
    as (transaction & Htx & _ & Ht & _ & _ & Hq).
  rewrite Ht, Hq. vm_compute in Htx. injection Htx as <-.
  clear Hremove Ht Hq. vm_compute. repeat split.
Defined.

(** X19.  Removing a sale undoes its stock update: when the store holds
    the units the lines of the sale ask for, the sale followed by its removal
    leaves every product with the quantity it had. *)
Theorem sale_then_remove_restores_stock dto userId s t s1 role statuses :
  TransactionService.create dto userId s = inr (t, s1) →
  ct_type dto = SALE →
  0 < nextId s →
  Forall (λ item, 0 ≤ d_quantity item ∧ is_Some (products s !! d_productId item))
         (ct_items dto) →
  (∀ productId p, products s !! productId = Some p →
                  unitsOf productId (tx_items t) ≤ p_quantity p) →
  (statuses !! tx_id t = Some COMPLETED → role = Some ADMIN) →
  ∃ s2,
    remove (tx_id t) role statuses s1 = inr s2
    ∧ transactions s2 !! tx_id t = None
    ∧ ∀ productId,
        p_quantity <$> products s2 !! productId
        = p_quantity <$> products s !! productId.
Proof.
  intros Hcreate Htype Hid Hlines Hstock Hrole.
  unfold TransactionService.create in Hcreate.
  destruct (createChecks dto userId s) as [|data]; [done|].
  cbv zeta in Hcreate.
  match type of Hcreate with
  | inr (?tt, _) = _ => set (t0 := tt) in *
  end.
  match type of Hcreate with
  | inr (_, updateProductQuantities _ ?st) = _ => set (s0 := st) in *
  end.
  injection Hcreate as <- Hs1.
  assert (tx_id t0 = nextId s) as Htid by done.
  assert (Forall (λ it, 0 ≤ it_quantity it
                        ∧ ∀ productId, JS.truthy_id (it_productId it) = Some productId →
                                       is_Some (products s !! productId))
                 (tx_items t0)) as Hitems.
  { cbn [tx_items t0]. apply Forall_forall. intros it Hit.
    apply elem_of_lookup_imap in Hit as (i & item & -> & Hitem).
    apply list_elem_of_lookup_2 in Hitem.
    eapply Forall_forall in Hlines as [Hq Hp]; [|exact Hitem].
    split; [done|]. cbn. intros pid Hpid. case_decide; by simplify_eq. }
  unfold updateProductQuantities in Hs1.
  change (tx_type t0) with (ct_type dto) in Hs1. rewrite Htype in Hs1.
  assert (products s0 = products s
          ∧ transactions s0 !! nextId s = Some t0) as [Hp0 Ht0].
  { unfold s0. split.
    - unfold Schedule.createPaymentSchedule, Schedule.createDailyPaymentSchedule.
      repeat (case_match || case_decide); done.
    - unfold Schedule.createPaymentSchedule, Schedule.createDailyPaymentSchedule.
      repeat (case_match || case_decide);
        cbn [transactions set_paymentSchedules set_nextId set_transactions];
        by rewrite lookup_insert_eq. }
  clearbody t0 s0.
  destruct (foldl_updateProductQuantity_frame SALE (tx_items t0) s0)
    as (Htx1 & _).
  rewrite Hs1 in Htx1.
  pose proof (sale_stock (tx_items t0) s0) as Hsold. rewrite Hs1, Hp0 in Hsold.
  specialize (Hsold ltac:(eapply Forall_impl; [exact Hitems|]; by intros ? [? _]) Hstock).
  unfold remove. rewrite Htid. rewrite decide_False by lia.
  rewrite Htx1, Ht0.
  assert (bool_decide (statuses !! nextId s = Some COMPLETED)
          && negb (bool_decide (role = Some ADMIN)) = false) as ->.
  { case_bool_decide as Hc; [|done]. cbn. rewrite <- Htid in Hc.
    by rewrite bool_decide_eq_true_2 by by apply Hrole. }
  destruct (foldl_putBackLine_total (tx_items t0) s1) as [s2 Hfold].
  { eapply Forall_impl; [exact Hitems|]. intros it [_ Hit] pid Hpid.
    specialize (Hit pid Hpid). apply (fmap_is_Some p_quantity).
    rewrite Hsold. by apply fmap_is_Some. }
  rewrite Hfold. eexists. split; [reflexivity|].
  destruct (foldl_putBackLine_Some _ _ _ Hfold) as (_ & _ & _ & _ & Hq).
  cbn [transactions products set_transactions set_paymentSchedules].
  split; [apply lookup_delete_eq|].
  intros pid. rewrite Hq.
  specialize (Hsold pid). destruct (products s1 !! pid) as [p1|];
    destruct (products s !! pid) as [p|]; cbn in *; simplify_eq; [|done].
  f_equal. lia.
Qed.

Lemma sale_then_remove_restores_stock_witness :
  ∃ t s1 s2,
    TransactionService.create Scenario.saleDto (Some 5) Scenario.store0 = inr (t, s1)
    ∧ remove (tx_id t) None ∅ s1 = inr s2
    ∧ (p_quantity <$> products s1 !! 7) = Some 8
    ∧ (p_quantity <$> products s2 !! 7) = Some 10.
Proof.
  assert (∃ t s1, TransactionService.create Scenario.saleDto (Some 5) Scenario.store0
                  = inr (t, s1)) as (t & s1 & Hcreate)
    by (eexists _, _; vm_compute; reflexivity).
  assert (t = default t (fst <$> Scenario.sale)
          ∧ s1 = default s1 (snd <$> Scenario.sale)) as [Ht Hs1].
  { unfold Scenario.sale. rewrite Hcreate. done. }
  destruct (sale_then_remove_restores_stock Scenario.saleDto (Some 5) Scenario.store0
              t s1 None ∅ Hcreate) as (s2 & Hremove & _ & Hq).
  - reflexivity.
  - vm_compute. reflexivity.
  - repeat constructor; vm_compute; (discriminate || eauto).
  - rewrite Ht. intros productId p Hp.
    apply (map_Forall_lookup_1 (λ k p, unitsOf k (tx_items (default t (fst <$> Scenario.sale)))
                                       ≤ p_quantity p)
             (products Scenario.store0)); [|exact Hp].
    apply map_Forall_to_list. vm_compute. repeat constructor; discriminate.
  - intros Hc. rewrite lookup_empty in Hc. discriminate.
  - exists t, s1, s2. split; [exact Hcreate|]. split; [exact Hremove|].
    rewrite Hq. rewrite Hs1. clear. vm_compute. repeat split.
Defined.

End Sales.

(** ** The schedule of a fresh sale *)

Section FreshSale.

Local Open Scope Qc_scope.
Import Schedule TransactionService Ledger Operations.

(** A stored line carries the price, the quantity and the credit terms of
    the request line it was created from. *)
Lemma rounded_aggregate_persisted rnd s (h : nat → Z) months
    (items : list TransactionItemDto) :
  Rounded.aggregate rnd lineQuantity months
    (imap (λ i item, Rounded.persistItem rnd s (h i) item) items)
  = Rounded.aggregate rnd lineQuantity months items.
Proof.
  unfold Rounded.aggregate. generalize totals0. revert h.
  induction items as [|item items IH]; intros h acc; [done|].
  cbn [imap foldl]. rewrite <- (IH (h ∘ S)). reflexivity.
Qed.

(** Tracking the term does not change the money accumulators. *)
Lemma rounded_aggregate_money `{CreditLine A} rnd (items : list A) :
  totalPrincipal (Rounded.aggregate rnd lineQuantity true items)
  = totalPrincipal (Rounded.aggregate rnd lineQuantity false items)
  ∧ Rounded.effectivePercent rnd (Rounded.aggregate rnd lineQuantity true items)
    = Rounded.effectivePercent rnd (Rounded.aggregate rnd lineQuantity false items).
Proof.
  enough (∀ acc acc',
            totalPrincipal acc = totalPrincipal acc' →
            weightedPercentSum acc = weightedPercentSum acc' →
            percentWeightBase acc = percentWeightBase acc' →
            totalPrincipal (foldl (Rounded.accumulate rnd lineQuantity true) acc items)
            = totalPrincipal
                (foldl (Rounded.accumulate rnd lineQuantity false) acc' items)
            ∧ weightedPercentSum
                (foldl (Rounded.accumulate rnd lineQuantity true) acc items)
              = weightedPercentSum
                  (foldl (Rounded.accumulate rnd lineQuantity false) acc' items)
            ∧ percentWeightBase
                (foldl (Rounded.accumulate rnd lineQuantity true) acc items)
              = percentWeightBase
                  (foldl (Rounded.accumulate rnd lineQuantity false) acc' items))
    as Hgen.
  { destruct (Hgen totals0 totals0) as (Hp & Hw & Hb); [done..|].
    unfold Rounded.effectivePercent, Rounded.aggregate. by rewrite Hp, Hw, Hb. }
  induction items as [|item items IH]; intros acc acc' Hp Hw Hb; [done|].
  cbn [foldl]. apply IH; unfold Rounded.accumulate;
    destruct (JS.truthy_num (lineCreditPercent item)),
      (JS.truthy_int (lineCreditMonth item)); cbn; congruence.
Qed.

Lemma foldl_updateProductQuantity_users type items s :
  users (foldl (updateProductQuantity type) s items) = users s.
Proof.
  revert s. induction items as [|item items IH]; intros s; [done|].
  cbn [foldl]. rewrite IH. unfold updateProductQuantity.
  destruct (JS.truthy_id (it_productId item)) as [productId|]; [|done].
  destruct (products s !! productId) as [product|]; [|done].
  by destruct type.
Qed.

(** What [create] writes, up to its return value. *)
Lemma rounded_create_writes rnd dto userId s t s' :
  Rounded.create rnd dto userId s = inr (t, s') →
  tx_id t = nextId s
  ∧ tx_type t = ct_type dto
  ∧ tx_paymentType t = ct_paymentType dto
  ∧ tx_remainingBalance t = saleRemainingWithInterest (Rounded.saleTotals rnd dto)
  ∧ tx_items t
    = imap (λ i item, Rounded.persistItem rnd s (nextId s + 1 + Z.of_nat i)%Z item)
           (ct_items dto)
  ∧ transactions s' = <[nextId s := t]> (transactions s)
  ∧ users s' = users s
  ∧ branches s' = branches s
  ∧ defectiveLogs s' = defectiveLogs s
  ∧ bonuses s' = bonuses s
  ∧ transactionBonusProducts s' = transactionBonusProducts s
  ∧ paymentSchedules s'
    = paymentSchedules s
      ++ (if isCredit (ct_paymentType dto) then
            match default MONTHS (ct_termUnit dto) with
            | DAYS => Rounded.dailyScheduleRows rnd (nextId s) (tx_items t)
                        (JS.or_num (ct_downPayment dto) 0)
            | MONTHS => Rounded.paymentScheduleRows rnd (nextId s) (tx_items t)
                          (JS.or_num (ct_downPayment dto) 0)
            end
          else [])
  ∧ ∃ s0, products s0 = products s
          ∧ products s'
            = products (foldl (updateProductQuantity (ct_type dto)) s0 (tx_items t)).
Proof.
  intros Hcreate. unfold Rounded.create in Hcreate.
  destruct (Rounded.createChecks rnd dto userId s) as [|data]; [done|].
  cbv zeta in Hcreate.
  match type of Hcreate with
  | inr (?tt, _) = _ => set (t0 := tt) in *
  end.
  match type of Hcreate with
  | inr (_, updateProductQuantities _ ?st) = _ => set (s0 := st) in *
  end.
  injection Hcreate as <- <-.
  destruct (foldl_updateProductQuantity_frame (tx_type t0) (tx_items t0) s0)
    as (Ht & Hrows & Hb & Hl & Hbp & Hbon).
  assert (users (foldl (updateProductQuantity (tx_type t0)) s0 (tx_items t0))
          = users s0) as Hu.
  { apply foldl_updateProductQuantity_users. }
  unfold updateProductQuantities. rewrite Ht, Hrows, Hb, Hl, Hbp, Hbon, Hu.
  do 5 (split; [done|]).
  assert (products s0 = products s ∧ users s0 = users s) as [Hp0 Hu0].
  { unfold s0, Rounded.createPaymentSchedule, Rounded.createDailyPaymentSchedule.
    repeat (case_match || case_decide); done. }
  split; [|split; [exact Hu0|]].
  { unfold s0, Rounded.createPaymentSchedule, Rounded.createDailyPaymentSchedule.
    repeat (case_match || case_decide); done. }
  split.
  { unfold s0, Rounded.createPaymentSchedule, Rounded.createDailyPaymentSchedule.
    repeat (case_match || case_decide); done. }
  split.
  { unfold s0, Rounded.createPaymentSchedule, Rounded.createDailyPaymentSchedule.
    repeat (case_match || case_decide); done. }
  split.
  { unfold s0, Rounded.createPaymentSchedule, Rounded.createDailyPaymentSchedule.
    repeat (case_match || case_decide); done. }
  split.
  { unfold s0, Rounded.createPaymentSchedule, Rounded.createDailyPaymentSchedule.
    repeat (case_match || case_decide); done. }
  split; [|by exists s0].
  unfold s0. change (tx_paymentType t0) with (ct_paymentType dto).
  change (tx_termUnit t0) with (default MONTHS (ct_termUnit dto)).
  unfold Rounded.createPaymentSchedule, Rounded.createDailyPaymentSchedule.
  destruct (isCredit (ct_paymentType dto)).
  - destruct (default MONTHS (ct_termUnit dto)).
    + destruct (Rounded.paymentScheduleRows _ _ _ _) as [|r rows] eqn:Hr.
      * rewrite decide_False by (cbn; lia). by rewrite app_nil_r.
      * rewrite decide_True by (cbn; lia). done.
    + destruct (Rounded.dailyScheduleRows _ _ _ _) as [|r rows] eqn:Hr.
      * rewrite decide_False by (cbn; lia). by rewrite app_nil_r.
      * rewrite decide_True by (cbn; lia). done.
  - by rewrite app_nil_r.
Qed.

(** X21.  The monthly schedule written for a fresh CREDIT or INSTALLMENT
    sale agrees with the sale: when the request carries its upfront payment
    as downPayment (or carries none), the rows stored for the sale are a
    monthly schedule for the remainingBalance stored on the transaction, one
    row per month of the longest term; the last row leaves nothing to pay,
    and the payments add up to the stored remainingBalance and to the
    rounding errors of the subtractions of the month loop.  This holds
    whatever the rounding of the arithmetic is (it maps 0 to 0). *)
Theorem fresh_sale_schedule_matches_balance rnd dto userId s t s' :
  rnd 0 = 0 →
  Rounded.create rnd dto userId s = inr (t, s') →
  isCredit (ct_paymentType dto) = true →
  ct_termUnit dto ≠ Some DAYS →
  schedulesOf (nextId s) s = [] →
  JS.or_num (ct_downPayment dto) (JS.or_num (ct_amountPaid dto) 0)
  = JS.or_num (ct_downPayment dto) 0 →
  0 < totalPrincipal (Rounded.aggregate rnd lineQuantity true (ct_items dto)) →
  (1 ≤ longestTerm (ct_items dto))%Z →
  Rounded.MonthlySchedule rnd (schedulesOf (tx_id t) s') (tx_remainingBalance t)
                          (longestTerm (ct_items dto))
  ∧ length (schedulesOf (tx_id t) s') = Z.to_nat (longestTerm (ct_items dto))
  ∧ (∃ row, last (schedulesOf (tx_id t) s') = Some row ∧ ps_remainingBalance row = 0)
  ∧ sumPayments (schedulesOf (tx_id t) s')
    = tx_remainingBalance t
      + Rounded.subtractionDrift rnd
          (Rounded.div rnd (tx_remainingBalance t)
                       (JS.num (longestTerm (ct_items dto))))
          (Z.to_nat (longestTerm (ct_items dto)) - 1) (tx_remainingBalance t).
Proof.
  intros Hzero Hcreate Hcredit Hunit Hfresh Hupfront Hprincipal Hterm.
  destruct (rounded_create_writes _ _ _ _ _ _ Hcreate)
    as (Hid & _ & _ & Hbalance & Hitems & _ & _ & _ & _ & _ & _ & Hrows & _).
  assert (default MONTHS (ct_termUnit dto) = MONTHS) as Hmonths.
  { destruct (ct_termUnit dto) as [[]|]; done. }
  rewrite Hcredit, Hmonths in Hrows.
  assert (totalMonths (Rounded.aggregate rnd lineQuantity true (ct_items dto))
          = longestTerm (ct_items dto)) as Hlongest.
  { rewrite rounded_aggregate_months.
    unfold aggregate. rewrite foldl_accumulate_months by done.
    pose proof (longestTerm_nonneg (ct_items dto)). cbn. lia. }
  assert (Rounded.aggregate rnd lineQuantity true (tx_items t)
          = Rounded.aggregate rnd lineQuantity true (ct_items dto)) as Hagg.
  { rewrite Hitems. apply rounded_aggregate_persisted. }
  assert (Rounded.remainingWithInterest rnd
            (totalPrincipal (Rounded.aggregate rnd lineQuantity true (ct_items dto)))
            (JS.or_num (ct_downPayment dto) 0)
            (Rounded.effectivePercent rnd
               (Rounded.aggregate rnd lineQuantity true (ct_items dto)))
          = tx_remainingBalance t) as Hrwi.
  { rewrite Hbalance. unfold Rounded.saleTotals. cbn [saleRemainingWithInterest].
    rewrite Hcredit, or_num_Some, Hupfront.
    destruct (rounded_aggregate_money rnd (ct_items dto)) as [-> ->]. reflexivity. }
  assert (schedulesOf (tx_id t) s'
          = Rounded.paymentScheduleRows rnd (nextId s) (tx_items t)
              (JS.or_num (ct_downPayment dto) 0)) as Hstored.
  { unfold schedulesOf in *. rewrite Hrows, Hid, filter_app, Hfresh. cbn [app].
    apply filter_all. unfold Rounded.paymentScheduleRows. cbv zeta.
    case_decide; [|constructor].
    by apply rounded_monthLoop_transactionId. }
  pose proof (Rounded.AtSale rnd (nextId s) (tx_items t)
                (JS.or_num (ct_downPayment dto) 0)) as Hsale.
  cbv zeta in Hsale. rewrite Hagg, Hrwi, Hlongest, <- Hstored in Hsale.
  specialize (Hsale Hprincipal Hterm).
  split; [exact Hsale|].
  apply MonthlySchedule_rows in Hsale
    as (_ & mk & -> & Hmonth & Hpayment & Hrest & Hunpaid).
  destruct (monthRows_schedule rnd mk Hmonth Hpayment Hrest Hunpaid
              (longestTerm (ct_items dto)) (tx_remainingBalance t) Hterm)
    as (Hlen & _ & _ & _ & Hsum & Hlast).
  destruct (Hlast Hzero) as (row & Hrow & Hnothing & _).
  split; [done|]. split; [eauto|done].
Qed.

Lemma fresh_sale_schedule_matches_balance_witness :
  ∃ t s',
    Rounded.create Binary64.nearest Scenario.saleDto (Some 5%Z) Scenario.store0
    = inr (t, s')
    ∧ length (schedulesOf (tx_id t) s') = 3%nat
    ∧ ∃ row, last (schedulesOf (tx_id t) s') = Some row ∧ ps_remainingBalance row = 0.
Proof.
  assert (∃ t s', Rounded.create Binary64.nearest Scenario.saleDto (Some 5%Z)
                    Scenario.store0 = inr (t, s')) as (t & s' & Hcreate)
    by (eexists _, _; vm_compute; reflexivity).
  destruct (fresh_sale_schedule_matches_balance Binary64.nearest _ _ _ _ _
              eq_refl Hcreate)
    as (_ & Hlen & Hlast & _).
  - reflexivity.
  - done.
  - reflexivity.
  - apply Qc_is_canon. vm_compute. reflexivity.
  - by_evaluation.
  - vm_compute. discriminate.
  - exists t, s'. split; [exact Hcreate|]. split; [exact Hlen|exact Hlast].
Defined.

End FreshSale.

(** ** Bonus / penalty calculator: what it writes *)

Section BonusFrame.

Local Open Scope Qc_scope.
Import TransactionService Ledger.

Lemma fallback_frame rate transactionId items acc :
  products (foldl (fallbackStep rate transactionId) acc items).2 = products acc.2
  ∧ branches (foldl (fallbackStep rate transactionId) acc items).2 = branches acc.2
  ∧ paymentSchedules (foldl (fallbackStep rate transactionId) acc items).2
    = paymentSchedules acc.2
  ∧ defectiveLogs (foldl (fallbackStep rate transactionId) acc items).2
    = defectiveLogs acc.2
  ∧ transactions (foldl (fallbackStep rate transactionId) acc items).2
    = transactions acc.2.
Proof.
  revert acc. induction items as [|bi items IH]; intros acc; [done|].
  cbn [foldl]. destruct (IH (fallbackStep rate transactionId acc bi))
    as (-> & -> & -> & -> & ->).
  destruct acc as [total s]. unfold fallbackStep.
  by destruct (JS.truthy_id (it_productId bi)).
Qed.

Lemma bonusStep_frame transaction soldByUserId branchContextId snap total pool infos s :
  products (foldl (bonusStep transaction soldByUserId branchContextId snap total pool)
                  s infos) = products s
  ∧ branches (foldl (bonusStep transaction soldByUserId branchContextId snap total pool)
                    s infos) = branches s
  ∧ paymentSchedules
      (foldl (bonusStep transaction soldByUserId branchContextId snap total pool)
             s infos) = paymentSchedules s
  ∧ defectiveLogs
      (foldl (bonusStep transaction soldByUserId branchContextId snap total pool)
             s infos) = defectiveLogs s
  ∧ transactions
      (foldl (bonusStep transaction soldByUserId branchContextId snap total pool)
             s infos) = transactions s.
Proof.
  revert s. induction infos as [|info infos IH]; intros s; [done|].
  cbn [foldl].
  destruct (IH (bonusStep transaction soldByUserId branchContextId snap total pool
                          s info)) as (-> & -> & -> & -> & ->).
  unfold bonusStep. by case_decide.
Qed.

(** X22.  The bonus computation of a sale writes bonus records, giveaway
    rows and one field of the sale: the stock, the cash of the branches, the
    audit log and the schedules are what they were, and the extraProfit
    stored on the sale is the gross margin of the sale.  Without a seller it
    writes nothing. *)
Theorem bonus_calculation_writes (branchRate globalRate : Qc)
    (transaction : Transaction) (soldByUserId : Z) (s : Store) :
  sameLedger s (calculateAndCreateSalesBonuses branchRate globalRate transaction
                                               soldByUserId s)
  ∧ products (calculateAndCreateSalesBonuses branchRate globalRate transaction
                                             soldByUserId s) = products s
  ∧ paymentSchedules (calculateAndCreateSalesBonuses branchRate globalRate transaction
                                                     soldByUserId s)
    = paymentSchedules s
  ∧ (is_Some (users s !! soldByUserId) →
     transactions (calculateAndCreateSalesBonuses branchRate globalRate transaction
                                                  soldByUserId s)
     = alter (setExtraProfit (grossMargin branchRate globalRate transaction s))
             (tx_id transaction) (transactions s))
  ∧ (users s !! soldByUserId = None →
     calculateAndCreateSalesBonuses branchRate globalRate transaction soldByUserId s
     = s).
Proof.
  unfold calculateAndCreateSalesBonuses, grossMargin, sameLedger.
  destruct (users s !! soldByUserId) as [seller|]; cycle 1.
  { do 3 (split; [done|]). split; [by intros [? ?]|done]. }
  cbv zeta.
  pose proof (fallback_frame (usdToSomRate branchRate globalRate) (tx_id transaction)
                (potentialBonusItems (tx_items transaction)) (0, s)) as Hfallback.
  unfold bonusProductsValue.
  destruct (decide (0 < length (filter (λ bp, bp_transactionId bp = tx_id transaction)
                                       (transactionBonusProducts s)))%nat).
  - match goal with
    | |- context [foldl (bonusStep ?t ?u ?b ?sn ?tot ?pool) s ?infos] =>
        destruct (bonusStep_frame t u b sn tot pool infos s)
          as (Hp & Hb & Hr & Hl & Ht)
    end.
    case_decide; cbn [products branches paymentSchedules defectiveLogs transactions
                      bonusServiceCreate set_bonuses set_transactions];
      rewrite Hp, Hb, Hr, Hl, Ht; done.
  - destruct (foldl _ (0, s) _) as [value s1]. cbn [snd] in Hfallback.
    destruct Hfallback as (Hp1 & Hb1 & Hr1 & Hl1 & Ht1).
    match goal with
    | |- context [foldl (bonusStep ?t ?u ?b ?sn ?tot ?pool) s1 ?infos] =>
        destruct (bonusStep_frame t u b sn tot pool infos s1)
          as (Hp & Hb & Hr & Hl & Ht)
    end.
    case_decide; cbn [products branches paymentSchedules defectiveLogs transactions
                      bonusServiceCreate set_bonuses set_transactions];
      rewrite Hp, Hb, Hr, Hl, Ht, Hp1, Hb1, Hr1, Hl1, Ht1; done.
Qed.

Lemma roundN_0 : JS.roundN 0 = 0.
Proof. apply Qc_is_canon. vm_compute. reflexivity. Qed.

(** With an empty pool no line earns a bonus. *)
Lemma bonusStep_empty_pool transaction soldByUserId branchContextId snap total infos s :
  foldl (bonusStep transaction soldByUserId branchContextId snap total 0) s infos = s.
Proof.
  revert s. induction infos as [|info infos IH]; intros s; [done|].
  cbn [foldl]. rewrite IH.
  unfold bonusStep, bonusAmountOf. cbv zeta.
  match goal with
  | |- context [JS.roundN (0 * ?share)] => replace (0 * share) with (0 : Qc) by ring
  end.
  rewrite roundN_0.
  match goal with
  | |- context [JS.roundN (0 * ?x)] => replace (0 * x) with (0 : Qc) by ring
  end.
  rewrite roundN_0. by rewrite decide_False by apply Qc_lt_irrefl.
Qed.

(** X23.  When the giveaways of a sale cost at least the markup of its
    lines (both rounded), the pool is empty and the sale earns no
    SALES_BONUS record: the calculator creates at most one record, the
    penalty. *)
Theorem no_bonus_when_giveaways_cost_the_markup (branchRate globalRate : Qc)
    (transaction : Transaction) (soldByUserId : Z) (s : Store) :
  JS.roundN
    (totalPriceDifferenceForTransaction
       (precompute (usdToSomRate branchRate globalRate)
          (bonusProductsValue (usdToSomRate branchRate globalRate) transaction
             (filter (λ bp, bp_transactionId bp = tx_id transaction)
                     (transactionBonusProducts s)) s).2
          (tx_items transaction)))
  ≤ JS.roundN
      (bonusProductsValue (usdToSomRate branchRate globalRate) transaction
         (filter (λ bp, bp_transactionId bp = tx_id transaction)
                 (transactionBonusProducts s)) s).1 →
  ∃ penalties,
    bonuses (calculateAndCreateSalesBonuses branchRate globalRate transaction
                                            soldByUserId s)
    = bonuses s ++ penalties
    ∧ (length penalties ≤ 1)%nat
    ∧ Forall (λ b, b_reason b = SALES_PENALTY
                   ∧ b_amount b = grossMargin branchRate globalRate transaction s)
             penalties.
Proof.
  intros Hpool. unfold calculateAndCreateSalesBonuses, grossMargin.
  destruct (users s !! soldByUserId) as [seller|]; cycle 1.
  { exists []. rewrite app_nil_r. split; [done|]. split; [cbn; lia|constructor]. }
  cbv zeta.
  pose proof (bonusProductsValue_bonuses (usdToSomRate branchRate globalRate)
                transaction
                (filter (λ bp, bp_transactionId bp = tx_id transaction)
                        (transactionBonusProducts s)) s) as Hsame.
  destruct (bonusProductsValue _ _ _ _) as [value s1]. cbn [fst snd] in Hpool, Hsame.
  rewrite js_max_0_of_nonpos; cycle 1.
  { apply Qcle_minus_iff in Hpool. apply Qcle_minus_iff.
    match goal with
    | |- 0 ≤ 0 + - (?a - ?b) => replace (0 + - (a - b)) with (b + - a) by ring
    end.
    exact Hpool. }
  rewrite bonusStep_empty_pool.
  case_decide as Hneg.
  - eexists [_]. cbn [bonuses bonusServiceCreate set_bonuses set_transactions].
    rewrite Hsame. split; [reflexivity|]. split; [cbn; lia|].
    constructor; [|constructor]. cbn. split; [done|]. by apply penalty_amount.
  - exists []. cbn [bonuses set_transactions]. rewrite Hsame, app_nil_r.
    split; [done|]. split; [cbn; lia|constructor].
Qed.

Lemma no_bonus_when_giveaways_cost_the_markup_witness :
  ∃ penalties,
    bonuses (calculateAndCreateSalesBonuses 0 0
               (default (mkTransaction 0 SALE None MONTHS 0 0 0 None None None None None
                                       None None [])
                        (fst <$> Scenario.sale))
               5
               (set_transactionBonusProducts (λ rows, rows ++ [mkBonusProduct 1 9 1])
                  (default Scenario.store0 (snd <$> Scenario.sale))))
    = bonuses (set_transactionBonusProducts (λ rows, rows ++ [mkBonusProduct 1 9 1])
                 (default Scenario.store0 (snd <$> Scenario.sale)))
      ++ penalties
    ∧ Forall (λ b, b_reason b = SALES_PENALTY ∧ b_amount b = - JS.num 4100) penalties.
Proof.
  destruct (no_bonus_when_giveaways_cost_the_markup 0 0
              (default (mkTransaction 0 SALE None MONTHS 0 0 0 None None None None None
                                      None None [])
                       (fst <$> Scenario.sale))
              5
              (set_transactionBonusProducts (λ rows, rows ++ [mkBonusProduct 1 9 1])
                 (default Scenario.store0 (snd <$> Scenario.sale))))
    as (penalties & Hall & _ & Hpenalties).
  - by_evaluation.
  - exists penalties. split; [exact Hall|].
    eapply Forall_impl; [exact Hpenalties|]. intros b [Hreason ->].
    split; [exact Hreason|]. by_evaluation.
Defined.

End BonusFrame.

(** ** A sale, its delayed bonus computation, and a return *)

Section Settlement.

Local Open Scope Qc_scope.
Import DefectiveLogService Ledger Operations.

Lemma fallback_rows rate transactionId items acc :
  transactionBonusProducts
    (foldl (TransactionService.fallbackStep rate transactionId) acc items).2
  = transactionBonusProducts acc.2
    ++ TransactionService.fallbackRows transactionId items.
Proof.
  revert acc. induction items as [|bi items IH]; intros acc.
  { cbn. by rewrite app_nil_r. }
  cbn [foldl]. rewrite IH. destruct acc as [total s].
  unfold TransactionService.fallbackStep, TransactionService.fallbackRows.
  cbn [omap list_omap].
  destruct (JS.truthy_id (it_productId bi)) as [productId|]; cbn; [|done].
  by rewrite <- app_assoc.
Qed.

Lemma fallbackRows_transactionId transactionId items :
  Forall (λ bp, bp_transactionId bp = transactionId)
         (TransactionService.fallbackRows transactionId items).
Proof.
  unfold TransactionService.fallbackRows.
  induction items as [|bi items IH]; [constructor|].
  cbn [omap list_omap]. destruct (JS.truthy_id (it_productId bi)); cbn; [|done].
  by constructor.
Qed.

Lemma bonusStep_joinRows transaction soldByUserId branchContextId snap total pool
    infos s :
  transactionBonusProducts
    (foldl (TransactionService.bonusStep transaction soldByUserId branchContextId snap
              total pool) s infos)
  = transactionBonusProducts s.
Proof.
  revert s. induction infos as [|info infos IH]; intros s; [done|].
  cbn [foldl]. rewrite IH. unfold TransactionService.bonusStep. by case_decide.
Qed.

(** What the bonus computation of a sale writes. *)
Lemma calculate_writes branchRate globalRate transaction soldByUserId s :
  let s' := TransactionService.calculateAndCreateSalesBonuses branchRate globalRate
              transaction soldByUserId s in
  products s' = products s
  ∧ branches s' = branches s
  ∧ paymentSchedules s' = paymentSchedules s
  ∧ defectiveLogs s' = defectiveLogs s
  ∧ (transactions s' = transactions s
     ∨ ∃ profit,
         transactions s'
         = alter (setExtraProfit profit) (tx_id transaction) (transactions s))
  ∧ (∃ records,
       bonuses s' = bonuses s ++ records
       ∧ Forall (λ b, b_transactionId b = tx_id transaction) records)
  ∧ transactionBonusProducts s'
    = transactionBonusProducts s
      ++ (if decide (is_Some (users s !! soldByUserId)
                     ∧ bonusProductsOf (tx_id transaction) s = [])
          then TransactionService.fallbackRows (tx_id transaction)
                 (TransactionService.potentialBonusItems (tx_items transaction))
          else []).
Proof.
  unfold TransactionService.calculateAndCreateSalesBonuses.
  destruct (users s !! soldByUserId) as [seller|]; cycle 1.
  { cbv zeta. do 4 (split; [done|]). split; [by left|]. split.
    - exists []. by rewrite app_nil_r.
    - rewrite decide_False by (by intros [[? ?] _]). by rewrite app_nil_r. }
  cbv zeta.
  pose proof (fallback_frame
                (TransactionService.usdToSomRate branchRate globalRate)
                (tx_id transaction)
                (TransactionService.potentialBonusItems (tx_items transaction)) (0, s))
    as Hfallback.
  pose proof (fallback_rows
                (TransactionService.usdToSomRate branchRate globalRate)
                (tx_id transaction)
                (TransactionService.potentialBonusItems (tx_items transaction)) (0, s))
    as Hjoin.
  pose proof (fallback_bonuses
                (TransactionService.usdToSomRate branchRate globalRate)
                (tx_id transaction)
                (TransactionService.potentialBonusItems (tx_items transaction)) (0, s))
    as Hsame.
  unfold TransactionService.bonusProductsValue, bonusProductsOf.
  destruct (decide (0 < length (filter (λ bp, bp_transactionId bp = tx_id transaction)
                                       (transactionBonusProducts s)))%nat)
    as [Hsome|Hnone].
  - rewrite (decide_False (P := _ ∧ _)); cycle 1.
    { intros [_ Hnil]. rewrite Hnil in Hsome. cbn in Hsome. lia. }
    rewrite app_nil_r.
    match goal with
    | |- context [foldl (TransactionService.bonusStep ?t ?u ?b ?sn ?tot ?pool) s ?infos] =>
        destruct (bonusStep_frame t u b sn tot pool infos s)
          as (Hp & Hb & Hr & Hl & Ht);
        destruct (bonusStep_records t u b sn tot pool infos s)
          as (records & Hrec & Hall);
        pose proof (bonusStep_joinRows t u b sn tot pool infos s) as Hrows
    end.
    case_decide;
      cbn [products branches paymentSchedules defectiveLogs transactions bonuses
           transactionBonusProducts TransactionService.bonusServiceCreate
           set_bonuses set_transactions];
      rewrite Hp, Hb, Hr, Hl, Ht, Hrec, Hrows;
      (do 4 (split; [done|])); (split; [right; eauto|]); (split; [|done]).
    + eexists. rewrite <- app_assoc. split; [reflexivity|].
      apply Forall_app. split; [|by repeat constructor].
      eapply Forall_impl; [exact Hall|]. by intros b (_ & _ & _ & ?).
    + eexists. split; [reflexivity|].
      eapply Forall_impl; [exact Hall|]. by intros b (_ & _ & _ & ?).
  - rewrite (decide_True (P := _ ∧ _)); cycle 1.
    { split; [by eexists|].
      destruct (filter _ (transactionBonusProducts s)); [done|]. cbn in Hnone. lia. }
    destruct (foldl _ (0, s) _) as [value s1]. cbn [snd] in Hfallback, Hjoin, Hsame.
    destruct Hfallback as (Hp1 & Hb1 & Hr1 & Hl1 & Ht1).
    match goal with
    | |- context [foldl (TransactionService.bonusStep ?t ?u ?b ?sn ?tot ?pool) s1 ?infos] =>
        destruct (bonusStep_frame t u b sn tot pool infos s1)
          as (Hp & Hb & Hr & Hl & Ht);
        destruct (bonusStep_records t u b sn tot pool infos s1)
          as (records & Hrec & Hall);
        pose proof (bonusStep_joinRows t u b sn tot pool infos s1) as Hrows
    end.
    case_decide;
      cbn [products branches paymentSchedules defectiveLogs transactions bonuses
           transactionBonusProducts TransactionService.bonusServiceCreate
           set_bonuses set_transactions];
      rewrite Hp, Hb, Hr, Hl, Ht, Hrec, Hrows, Hp1, Hb1, Hr1, Hl1, Ht1, Hsame, Hjoin;
      (do 4 (split; [done|])); (split; [right; eauto|]); (split; [|done]).
    + eexists. rewrite <- app_assoc. split; [reflexivity|].
      apply Forall_app. split; [|by repeat constructor].
      eapply Forall_impl; [exact Hall|]. by intros b (_ & _ & _ & ?).
    + eexists. split; [reflexivity|].
      eapply Forall_impl; [exact Hall|]. by intros b (_ & _ & _ & ?).
Qed.

(** What the job scheduled by [create] writes. *)
Lemma scheduledBonuses_writes branchRate globalRate transaction s :
  let s' := TransactionService.scheduledBonuses branchRate globalRate transaction s in
  products s' = products s
  ∧ branches s' = branches s
  ∧ paymentSchedules s' = paymentSchedules s
  ∧ defectiveLogs s' = defectiveLogs s
  ∧ (transactions s' = transactions s
     ∨ ∃ profit,
         transactions s'
         = alter (setExtraProfit profit) (tx_id transaction) (transactions s))
  ∧ (∃ records,
       bonuses s' = bonuses s ++ records
       ∧ Forall (λ b, b_transactionId b = tx_id transaction) records)
  ∧ transactionBonusProducts s'
    = transactionBonusProducts s
      ++ (if decide (tx_type transaction = SALE
                     ∧ is_Some (tx_soldByUserId transaction ≫= λ u, users s !! u)
                     ∧ bonusProductsOf (tx_id transaction) s = [])
          then TransactionService.fallbackRows (tx_id transaction)
                 (TransactionService.potentialBonusItems (tx_items transaction))
          else []).
Proof.
  unfold TransactionService.scheduledBonuses.
  destruct (tx_soldByUserId transaction) as [u|] eqn:Hseller; cycle 1.
  { cbv zeta. do 4 (split; [done|]). split; [by left|]. split.
    - exists []. by rewrite app_nil_r.
    - rewrite decide_False by (by intros (_ & [? ?] & _)). by rewrite app_nil_r. }
  destruct (decide (tx_type transaction = SALE)) as [Htype|Htype]; cycle 1.
  { assert (∀ (X : Type) (x y : X),
              match tx_type transaction with SALE => x | _ => y end = y) as Helse
      by (intros; by destruct (tx_type transaction)).
    rewrite Helse. cbv zeta. do 4 (split; [done|]). split; [by left|]. split.
    - exists []. by rewrite app_nil_r.
    - rewrite decide_False by (by intros (? & _)). by rewrite app_nil_r. }
  rewrite Htype. cbn [mbind option_bind].
  pose proof (calculate_writes branchRate globalRate transaction u s) as Hcalc.
  cbv zeta in *. destruct Hcalc as (Hp & Hb & Hr & Hl & Ht & Hrec & Hrows).
  do 6 (split; [done|]). rewrite Hrows. f_equal.
  destruct (decide (is_Some (users s !! u)
                    ∧ bonusProductsOf (tx_id transaction) s = [])) as [[? ?]|Hn].
  - by rewrite decide_True.
  - rewrite decide_False; [done|]. intros (_ & ? & ?). by apply Hn.
Qed.

(** X20.  Of the tables of the model, a sale and the bonus computation it
    schedules write the transaction, its schedule, the stock, bonus records
    and giveaway rows, and never the cash: the balances of the branches and
    the audit log are what they were.  [create] itself writes no bonus record and no giveaway
    row; the job it schedules only appends such rows, all of them for the
    new transaction, and leaves the stock and the schedules as [create]
    wrote them.  The other transactions are not touched, the new one is
    stored with its lines, and a sale that is neither CREDIT nor INSTALLMENT
    has no schedule row written.  This holds whatever the rounding of the
    arithmetic is. *)
Theorem sale_leaves_cash_untouched rnd branchRate globalRate dto userId s t s1 :
  Rounded.create rnd dto userId s = inr (t, s1) →
  let s' := TransactionService.scheduledBonuses branchRate globalRate t s1 in
  sameLedger s s1 ∧ sameLedger s s'
  ∧ transactions s1 !! tx_id t = Some t
  ∧ (∃ t', transactions s' !! tx_id t = Some t'
           ∧ (t' = t ∨ ∃ profit, t' = setExtraProfit profit t))
  ∧ (∀ other, other ≠ tx_id t → transactions s' !! other = transactions s !! other)
  ∧ bonuses s1 = bonuses s
  ∧ transactionBonusProducts s1 = transactionBonusProducts s
  ∧ (∃ records,
       bonuses s' = bonuses s ++ records
       ∧ Forall (λ b, b_transactionId b = tx_id t) records)
  ∧ (∃ rows,
       transactionBonusProducts s' = transactionBonusProducts s ++ rows
       ∧ Forall (λ bp, bp_transactionId bp = tx_id t) rows)
  ∧ products s' = products s1
  ∧ paymentSchedules s' = paymentSchedules s1
  ∧ (isCredit (TransactionService.ct_paymentType dto) = false →
     paymentSchedules s' = paymentSchedules s).
Proof.
  intros Hcreate s'.
  destruct (rounded_create_writes _ _ _ _ _ _ Hcreate)
    as (Hid & _ & _ & _ & _ & Ht & _ & Hb & Hl & Hbon & Hbp & Hrows & _).
  destruct (scheduledBonuses_writes branchRate globalRate t s1)
    as (Hp' & Hb' & Hr' & Hl' & Ht' & Hrec' & Hrows').
  fold s' in Hp', Hb', Hr', Hl', Ht', Hrec', Hrows'.
  assert (transactions s1 !! tx_id t = Some t) as Hstored
    by (rewrite Ht, Hid; apply lookup_insert_eq).
  split; [done|]. split; [by unfold sameLedger; rewrite Hb', Hl'|].
  split; [done|]. split; [|split].
  - destruct Ht' as [->|[profit ->]]; [by eauto|].
    rewrite lookup_alter_eq, Hstored. eauto.
  - intros other Hother.
    destruct Ht' as [->|[profit ->]].
    + rewrite Ht. apply lookup_insert_ne. congruence.
    + rewrite lookup_alter_ne by done. rewrite Ht. apply lookup_insert_ne. congruence.
  - split; [done|]. split; [done|].
    split; [by rewrite <- Hbon|]. split.
    + eexists. rewrite Hrows', Hbp. split; [reflexivity|].
      case_decide; [apply fallbackRows_transactionId|constructor].
    + split; [done|]. split; [done|].
      intros Hcash. rewrite Hr', Hrows, Hcash. apply app_nil_r.
Qed.

Lemma sale_leaves_cash_untouched_witness :
  ∃ t s1 records,
    Rounded.create Binary64.nearest Scenario.mixedSaleDto (Some 5%Z) Scenario.store0
    = inr (t, s1)
    ∧ branches (TransactionService.scheduledBonuses 0 0 t s1)
      = branches Scenario.store0
    ∧ paymentSchedules (TransactionService.scheduledBonuses 0 0 t s1)
      = paymentSchedules Scenario.store0
    ∧ bonuses (TransactionService.scheduledBonuses 0 0 t s1)
      = bonuses Scenario.store0 ++ records
    ∧ Forall (λ b, b_transactionId b = tx_id t) records.
Proof.
  assert (∃ t s1, Rounded.create Binary64.nearest Scenario.mixedSaleDto (Some 5%Z)
                    Scenario.store0 = inr (t, s1)) as (t & s1 & Hcreate)
    by (eexists _, _; vm_compute; reflexivity).
  destruct (sale_leaves_cash_untouched Binary64.nearest 0 0 _ _ _ _ _ Hcreate)
    as (_ & [Hb _] & _ & _ & _ & _ & _ & (records & Hrecords & Hall) & _ & _ & _
        & Hrows).
  exists t, s1, records. split; [exact Hcreate|]. split; [exact Hb|].
  split; [by apply Hrows|]. split; [exact Hrecords|exact Hall].
Defined.

(** X24.  A RETURN that reaches a line of a fresh sale, once the bonus
    computation of the sale has run, gives back to the stock what the sale
    took from the product returned, and restocks the giveaways that the
    computation recorded: when the store held the units the sale asked for
    and no giveaway row was waiting for the new transaction, every product
    ends with its quantity before the sale, less the units sold, plus the
    units returned (for the product of the RETURN), plus the units of the
    giveaway rows of the sale.  Those rows are the ones the computation
    recorded for the zero-price lines of the sale, when the sale has a
    seller, and there are none otherwise; the RETURN removes them. *)
Theorem sale_then_return_restores_stock rnd branchRate globalRate dto userId s t s1
    rdto log s2 :
  Rounded.create rnd dto userId s = inr (t, s1) →
  TransactionService.ct_type dto = SALE →
  wf_store s →
  bonusProductsOf (nextId s) s = [] →
  Forall (λ item, (0 ≤ TransactionService.d_quantity item)%Z)
         (TransactionService.ct_items dto) →
  (∀ productId p, products s !! productId = Some p →
                  (unitsOf productId (tx_items t) ≤ p_quantity p)%Z) →
  dto_actionType rdto = Some ActRETURN →
  linkedTransaction rdto = Some (tx_id t) →
  is_Some (List.find (λ i, bool_decide (it_productId i = Some (dto_productId rdto)))
                     (tx_items t)) →
  create rdto (TransactionService.scheduledBonuses branchRate globalRate t s1)
  = inr (log, s2) →
  let rows :=
    bonusProductsOf (tx_id t)
      (TransactionService.scheduledBonuses branchRate globalRate t s1) in
  (∀ productId,
     p_quantity <$> products s2 !! productId
     = (λ p, p_quantity p - unitsOf productId (tx_items t)
             + (if decide (productId = dto_productId rdto)
                then dto_quantity rdto else 0)
             + givenAway rows productId)%Z
         <$> products s !! productId)
  ∧ rows
    = (if decide (is_Some (tx_soldByUserId t ≫= λ u, users s !! u))
       then TransactionService.fallbackRows (tx_id t)
              (TransactionService.potentialBonusItems (tx_items t))
       else [])
  ∧ bonusProductsOf (tx_id t) s2 = [].
Proof.
  intros Hsale Htype Hwf Hnone Hlines Hstock Haction Hlinked Hreach Hreturn rows.
  destruct (rounded_create_writes _ _ _ _ _ _ Hsale)
    as (Hid & Htt & _ & _ & Hitems & Ht & Hu & _ & _ & _ & Hbp & _
        & s0 & Hp0 & Hp1).
  destruct (scheduledBonuses_writes branchRate globalRate t s1)
    as (Hp' & _ & _ & _ & Ht' & _ & Hrows').
  set (s' := TransactionService.scheduledBonuses branchRate globalRate t s1) in *.
  assert (wf_store s1) as Hwf1.
  { intros k t'. rewrite Ht. destruct (decide (k = nextId s)) as [->|Hk].
    - rewrite lookup_insert_eq. by intros [= <-].
    - rewrite lookup_insert_ne by done. apply Hwf. }
  assert (wf_store s') as Hwf'.
  { destruct Ht' as [Hsame|[profit Halter]].
    - by eapply wf_store_transactions.
    - intros k t'. rewrite Halter, lookup_alter.
      destruct (decide (tx_id t = k)) as [<-|Hk]; [|apply Hwf1].
      destruct (transactions s1 !! tx_id t) as [t0|] eqn:Ht0; [|done].
      intros [= <-]. cbn. by apply Hwf1. }
  assert (∃ t', transactions s' !! tx_id t = Some t' ∧ tx_items t' = tx_items t)
    as (t' & Hstored & Hsame).
  { assert (transactions s1 !! tx_id t = Some t) as Hs1
      by (rewrite Ht, Hid; apply lookup_insert_eq).
    destruct Ht' as [->|[profit ->]]; [by eauto|].
    rewrite lookup_alter_eq, Hs1. eexists. split; [reflexivity|done]. }
  assert (∀ k, p_quantity <$> products s' !! k
               = (λ p, p_quantity p - unitsOf k (tx_items t))%Z <$> products s !! k)
    as Hsold.
  { intros k. rewrite Hp', Hp1, Htype.
    pose proof (sale_stock (tx_items t) s0) as Hs. rewrite Hp0 in Hs.
    apply Hs; [|exact Hstock].
    rewrite Hitems. apply Forall_forall. intros it Hit.
    apply elem_of_lookup_imap in Hit as (i & item & -> & Hitem).
    apply list_elem_of_lookup_2 in Hitem.
    eapply Forall_forall in Hlines; [|exact Hitem]. exact Hlines. }
  destruct (create_return _ _ _ _ Hwf' Haction Hreturn)
    as (_ & product & e & rows' & Hproduct & Hq & Hp2 & _ & _ & Hfound).
  rewrite <- Hsame in Hreach.
  destruct (Hfound _ _ Hlinked Hstored Hreach) as [-> Hgone].
  fold rows in Hp2.
  split; [|split].
  - intros pid. rewrite Hp2, restockProducts_lookup, lookup_alter.
    destruct (decide (dto_productId rdto = pid)) as [<-|Hne].
    + rewrite decide_True by done. specialize (Hsold (dto_productId rdto)).
      rewrite Hproduct in *. destruct (products s !! dto_productId rdto); [|done].
      cbn in *. f_equal. injection Hsold as Hsold. lia.
    + rewrite decide_False by congruence.
      specialize (Hsold pid). destruct (products s' !! pid) as [p'|];
        destruct (products s !! pid) as [p|]; try done.
      cbn in *. f_equal. injection Hsold as Hsold. lia.
  - unfold rows, bonusProductsOf. rewrite Hrows', filter_app.
    fold (bonusProductsOf (tx_id t) s1).
    assert (bonusProductsOf (tx_id t) s1 = []) as Hfresh
      by (unfold bonusProductsOf in *; by rewrite Hbp, Hid).
    rewrite Hfresh. cbn [app]. rewrite Htt, Htype, Hu.
    destruct (decide (is_Some (tx_soldByUserId t ≫= λ u, users s !! u)))
      as [Hseller|Hseller].
    + rewrite decide_True by done.
      apply filter_all, fallbackRows_transactionId.
    + rewrite decide_False; [done|]. by intros (_ & ? & _).
  - unfold bonusProductsOf. rewrite Hgone.
    apply (filter_filter_neg (λ bp, bp_transactionId bp = tx_id t)).
Qed.

Lemma sale_then_return_restores_stock_witness :
  ∃ t s1 log s2,
    Rounded.create Binary64.nearest Scenario.giftSaleDto (Some 5%Z) Scenario.store0
    = inr (t, s1)
    ∧ create (Scenario.returnDto 1) (TransactionService.scheduledBonuses 0 0 t s1)
      = inr (log, s2)
    ∧ (p_quantity <$> products Scenario.store0 !! 8%Z) = Some 5%Z
    ∧ (p_quantity <$> products s1 !! 8%Z) = Some 4%Z
    ∧ (p_quantity <$> products s2 !! 8%Z) = Some 5%Z
    ∧ (p_quantity <$> products s2 !! 7%Z) = Some 9%Z.
Proof.
  assert (∃ t s1, Rounded.create Binary64.nearest Scenario.giftSaleDto (Some 5%Z)
                    Scenario.store0 = inr (t, s1)) as (t & s1 & Hsale)
    by (eexists _, _; vm_compute; reflexivity).
  assert (t = default t (fst <$> match Rounded.create Binary64.nearest
                                         Scenario.giftSaleDto (Some 5%Z)
                                         Scenario.store0 with
                                 | inr r => Some r
                                 | inl _ => None
                                 end)
          ∧ s1 = default s1 (snd <$> match Rounded.create Binary64.nearest
                                             Scenario.giftSaleDto (Some 5%Z)
                                             Scenario.store0 with
                                     | inr r => Some r
                                     | inl _ => None
                                     end)) as [Ht Hs1].
  { rewrite Hsale. done. }
  assert (∃ log s2,
            create (Scenario.returnDto 1)
                   (TransactionService.scheduledBonuses 0 0 t s1) = inr (log, s2))
    as (log & s2 & Hreturn).
  { rewrite Ht, Hs1. eexists _, _. vm_compute. reflexivity. }
  destruct (sale_then_return_restores_stock Binary64.nearest 0 0 Scenario.giftSaleDto
              (Some 5%Z) Scenario.store0 t s1 (Scenario.returnDto 1) log s2 Hsale)
    as (Hq & _ & _).
  - reflexivity.
  - intros k t'. vm_compute. discriminate.
  - reflexivity.
  - repeat constructor; vm_compute; discriminate.
  - rewrite Ht. intros productId p Hp.
    apply (map_Forall_lookup_1
             (λ k p,
                (unitsOf k
                   (tx_items
                      (default t (fst <$> match Rounded.create Binary64.nearest
                                                  Scenario.giftSaleDto (Some 5%Z)
                                                  Scenario.store0 with
                                          | inr r => Some r
                                          | inl _ => None
                                          end)))
                 ≤ p_quantity p)%Z)
             (products Scenario.store0)); [|exact Hp].
    apply map_Forall_to_list. vm_compute. repeat constructor; discriminate.
  - reflexivity.
  - rewrite Ht. vm_compute. reflexivity.
  - rewrite Ht. vm_compute. eexists. reflexivity.
  - exact Hreturn.
  - exists t, s1, log, s2. split; [exact Hsale|]. split; [exact Hreturn|].
    split; [reflexivity|]. split; [rewrite Hs1; clear; vm_compute; reflexivity|].
    rewrite !Hq. clear Hq Hreturn Hsale. rewrite Ht, Hs1.
    split; vm_compute; reflexivity.
Defined.

End Settlement.

(** ** The shorthands of the adjustments and the summary of the debts *)

Section Shorthands.

Local Open Scope Qc_scope.
Import DefectiveLogService Ledger Operations.

(** What an adjustment that is not linked to a sale writes. *)
Lemma shorthand_writes productId quantity userId branchId actionType s product e :
  products s !! productId = Some product →
  (∀ b, JS.truthy_id branchId = Some b → is_Some (branches s !! b)) →
  actionType ≠ ActDEFECTIVE →
  effects (shorthandDto productId quantity userId branchId actionType) actionType
          product s = Some e →
  ∃ log s',
    create (shorthandDto productId quantity userId branchId actionType) s
    = inr (log, s')
    ∧ dl_cashAmount log = cashAmount e
    ∧ products s' !! productId = Some (applyEffects e product)
    ∧ (∀ other, other ≠ productId → products s' !! other = products s !! other)
    ∧ transactions s' = transactions s
    ∧ paymentSchedules s' = paymentSchedules s
    ∧ transactionBonusProducts s' = transactionBonusProducts s
    ∧ bonuses s' = bonuses s.
Proof.
  intros Hproduct Hbranch Haction He.
  eexists _, _. split.
  { apply (create_unlinked _ s product e); [done | done | done | done | exact He]. }
  cbn [shorthandDto dto_branchId dto_productId dto_actionType default logOf
       dl_cashAmount]. cbv zeta.
  split; [done|].
  destruct (JS.truthy_id branchId);
    cbn [products transactions paymentSchedules transactionBonusProducts bonuses
         set_products set_branches set_defectiveLogs];
    rewrite lookup_alter_eq, Hproduct;
    (split; [done|]); (split; [|done]);
    intros other Hother; by rewrite lookup_alter_ne.
Qed.

(** X25.  The shorthands [returnProduct] and [exchangeProduct] act on the
    stock of one product and on the cash only: the product gains the units
    (on its quantity and on its returned or exchanged counter), the amount
    logged is the list price of the units, paid out for a return and taken in
    for an exchange, every other product is left as it was (no replacement
    leaves the stock), and no sale, schedule, giveaway row or bonus record is
    touched. *)
Theorem shorthands_leave_sales_untouched (productId quantity : Z)
    (userId branchId : option Z) (s : Store) (product : Product) :
  products s !! productId = Some product →
  (∀ b, JS.truthy_id branchId = Some b → is_Some (branches s !! b)) →
  (∃ log s',
     returnProduct productId quantity userId branchId s = inr (log, s')
     ∧ dl_cashAmount log = - (p_price product * JS.num quantity)
     ∧ products s' !! productId
       = Some (mkProduct (p_id product) (p_price product)
                 (p_quantity product + quantity) (p_defectiveQuantity product)
                 (p_returnedQuantity product + quantity) (p_exchangedQuantity product)
                 RETURNED (p_bonusPercentage product) (p_branchId product))
     ∧ (∀ other, other ≠ productId → products s' !! other = products s !! other)
     ∧ transactions s' = transactions s
     ∧ paymentSchedules s' = paymentSchedules s
     ∧ transactionBonusProducts s' = transactionBonusProducts s
     ∧ bonuses s' = bonuses s)
  ∧ (∃ log s',
       exchangeProduct productId quantity userId branchId s = inr (log, s')
       ∧ dl_cashAmount log = p_price product * JS.num quantity
       ∧ products s' !! productId
         = Some (mkProduct (p_id product) (p_price product)
                   (p_quantity product + quantity) (p_defectiveQuantity product)
                   (p_returnedQuantity product) (p_exchangedQuantity product + quantity)
                   EXCHANGED (p_bonusPercentage product) (p_branchId product))
       ∧ (∀ other, other ≠ productId → products s' !! other = products s !! other)
       ∧ transactions s' = transactions s
       ∧ paymentSchedules s' = paymentSchedules s
       ∧ transactionBonusProducts s' = transactionBonusProducts s
       ∧ bonuses s' = bonuses s).
Proof.
  intros Hproduct Hbranch. split.
  - apply (shorthand_writes productId quantity userId branchId ActRETURN s product
             (mkEffects (- (p_price product * JS.num quantity))
                (p_quantity product + quantity) (p_defectiveQuantity product)
                (p_returnedQuantity product + quantity) (p_exchangedQuantity product)
                RETURNED)); done.
  - apply (shorthand_writes productId quantity userId branchId ActEXCHANGE s product
             (mkEffects (p_price product * JS.num quantity)
                (p_quantity product + quantity) (p_defectiveQuantity product)
                (p_returnedQuantity product) (p_exchangedQuantity product + quantity)
                EXCHANGED)); done.
Qed.

Lemma shorthands_leave_sales_untouched_witness :
  ∃ log s',
    exchangeProduct 7 1 (Some 5%Z) (Some 1%Z) Scenario.afterSale = inr (log, s')
    ∧ dl_cashAmount log = JS.num 1000
    ∧ (p_quantity <$> products s' !! 7%Z) = Some 9%Z
    ∧ (p_quantity <$> products s' !! 9%Z) = Some 3%Z
    ∧ transactions s' = transactions Scenario.afterSale.
Proof.
  destruct (shorthands_leave_sales_untouched 7 1 (Some 5%Z) (Some 1%Z)
              Scenario.afterSale
              (mkProduct 7 (JS.num 1000) 8 0 0 0 IN_STORE (JS.num 20) (Some 1%Z)))
    as [_ (log & s' & Hrun & Hcash & Hp & Hothers & Ht & _)].
  - vm_compute. reflexivity.
  - intros b [= <-]. vm_compute. eauto.
  - exists log, s'. split; [exact Hrun|]. rewrite Hcash, Hp, Ht.
    split; [by_evaluation|]. split; [reflexivity|]. split; [|reflexivity].
    rewrite Hothers by done. reflexivity.
Defined.

Lemma foldl_outstanding (debts : list Debt) (a : Qc) :
  foldl (λ sum d, sum + debt_outstanding d) a debts
  = a + foldr Qcplus 0 (debt_outstanding <$> debts).
Proof.
  revert a. induction debts as [|d debts IH]; intros a; cbn; [ring|].
  rewrite IH. ring.
Qed.

Lemma debt_outstanding_nonneg s t : 0 ≤ debt_outstanding (debtOf s t).
Proof. apply js_max_0_nonneg. Qed.

(** X26.  The summary of the debt list loses nothing to the filter: the
    total outstanding over the listed debts is the sum of the outstanding
    amounts of all the transactions considered, and it is not negative. *)
Theorem total_outstanding_counts_every_debt (s : Store) (ts : list Transaction) :
  totalOutstanding (debtsOf s ts)
  = foldr Qcplus 0 ((λ t, debt_outstanding (debtOf s t)) <$> ts)
  ∧ 0 ≤ totalOutstanding (debtsOf s ts).
Proof.
  unfold totalOutstanding, debtsOf. rewrite foldl_outstanding.
  assert (foldr Qcplus 0
            (debt_outstanding <$> filter (λ d, 0 < debt_outstanding d) (debtOf s <$> ts))
          = foldr Qcplus 0 ((λ t, debt_outstanding (debtOf s t)) <$> ts)) as ->.
  { induction ts as [|t ts IH]; [done|].
    rewrite !fmap_cons, filter_cons.
    destruct (decide (0 < debt_outstanding (debtOf s t))) as [|Hn].
    - rewrite fmap_cons. cbn [foldr]. by rewrite IH.
    - cbn [foldr]. rewrite IH.
      assert (debt_outstanding (debtOf s t) = 0) as ->; [|ring].
      pose proof (debt_outstanding_nonneg s t) as Hnn.
      apply Qcle_lt_or_eq in Hnn as [|]; [done|by symmetry]. }
  split; [ring|].
  replace (0 + foldr Qcplus 0 ((λ t, debt_outstanding (debtOf s t)) <$> ts))
    with (foldr Qcplus 0 ((λ t, debt_outstanding (debtOf s t)) <$> ts)) by ring.
  induction ts as [|t ts IH]; [done|].
  rewrite fmap_cons. cbn [foldr].
  apply Qc_nonneg_add; [apply debt_outstanding_nonneg | exact IH].
Qed.

End Shorthands.
